(** * walioss: the transfer execution engine

    A shallow embedding of the transfer engine of walioss (the Go file that
    defines [transferLimiter], [EnqueueUpload], [EnqueueDownload],
    [parseProgressSegment], [splitOnCRLF], [ringBuffer] and
    [runOssutilWithProgress], together with [ossutilStartFailed] of
    [oss_service.go]), of the rest of that file ([runTransfer], the thread
    limit, [sdkEndpointForConfig], the prefixes and paths), of the endpoint
    and region normalization, [runOssutil], [parseBucketList] and the
    profiles of [oss_service.go], and of [oss_mutations.go], followed by
    the properties proved about them.

    Conventions of the embedding:
    - a Go [int] or [int64] is a [Z]; arithmetic that can wrap is written
      with [wrap64];
    - a Go [string] is a [string] (a sequence of 8-bit [ascii] bytes), a
      [[]byte] is a [list ascii];
    - a Go [float64] is a [spec_float] at precision 53 and maximal exponent
      1024 (IEEE-754 binary64, round to nearest even);
    - code under a mutex is one atomic step; what the operating system, the
      clock and the external tool answer is an explicit input. *)

From Stdlib Require Import ZArith List Bool Ascii String Lia.
From Stdlib Require Import DecimalString DecimalZ.
From Stdlib Require Import Floats.SpecFloat.
From Equations Require Import Equations.
Import ListNotations.

Local Open Scope Z_scope.

(** ** Machine integers *)

Definition min_int64 : Z := - 2 ^ 63.
Definition max_int64 : Z := 2 ^ 63 - 1.

Definition in_int64 (z : Z) : Prop := min_int64 <= z <= max_int64.

Definition in_int64b (z : Z) : bool := (min_int64 <=? z) && (z <=? max_int64).

(** Two's complement wrap-around of a 64-bit signed integer. *)
Definition wrap64 (z : Z) : Z := (z + 2 ^ 63) mod 2 ^ 64 - 2 ^ 63.

(** ** ConcurrencyLimiter: [transferLimiter] *)

Module Limiter.

(** [mu] and [cond] are not data: every method body below runs under [mu]
    and is one atomic step. [waiting] counts the goroutines parked in
    [cond.Wait] inside [Acquire]. *)
Record transferLimiter := mkLimiter {
  active : Z;
  max : Z;
  waiting : nat
}.

Definition newTransferLimiter (max : Z) : transferLimiter :=
  let max := if max <? 1 then 1 else max in
  {| active := 0; max := max; waiting := 0 |}.

(** [Acquire], first pass through [for l.active >= l.max { l.cond.Wait() }]:
    the caller either parks or takes a slot. *)
Definition Acquire (l : transferLimiter) : transferLimiter :=
  if max l <=? active l
  then {| active := active l; max := max l; waiting := S (waiting l) |}
  else {| active := wrap64 (active l + 1); max := max l; waiting := waiting l |}.

(** A parked caller returns from [cond.Wait] and tests the loop condition
    again: it parks again or takes a slot. Without a parked caller nothing
    happens. *)
Definition Wake (l : transferLimiter) : transferLimiter :=
  match waiting l with
  | O => l
  | S w =>
      if max l <=? active l then l
      else {| active := wrap64 (active l + 1); max := max l; waiting := w |}
  end.

Definition Release (l : transferLimiter) : transferLimiter :=
  if 0 <? active l
  then {| active := wrap64 (active l - 1); max := max l; waiting := waiting l |}
  else l.

Definition SetMax (max : Z) (l : transferLimiter) : transferLimiter :=
  let max := if max <? 1 then 1 else max in
  {| active := active l; max := max; waiting := waiting l |}.

(** The calls a client can make, and the wake-up of a parked [Acquire]. *)
Inductive call :=
| CAcquire
| CWake
| CRelease
| CSetMax (n : Z).

Definition step (l : transferLimiter) (c : call) : transferLimiter :=
  match c with
  | CAcquire => Acquire l
  | CWake => Wake l
  | CRelease => Release l
  | CSetMax n => SetMax n l
  end.

Definition run (cs : list call) (l : transferLimiter) : transferLimiter :=
  fold_left step cs l.

(** The argument of [SetMax] is a Go [int]. *)
Definition call_ok (c : call) : Prop :=
  match c with
  | CSetMax n => in_int64 n
  | _ => True
  end.

(** [SetMax] calls that keep the capacity at or above the slots held at
    the time of the call. *)
Fixpoint keeps_holders (cs : list call) (l : transferLimiter) : bool :=
  match cs with
  | [] => true
  | c :: cs' =>
      match c with
      | CSetMax n => active l <=? max (SetMax n l)
      | _ => true
      end && keeps_holders cs' (step l c)
  end.

End Limiter.

(** ** Go strings and byte slices *)

Definition byte := ascii.

Definition byte_val (c : byte) : Z := Z.of_N (N_of_ascii c).

Definition byte_eqb (a b : byte) : bool := Ascii.eqb a b.

Definition len {A : Type} (l : list A) : Z := Z.of_nat (List.length l).

Definition bytes_of (s : string) : list byte := list_ascii_of_string s.

Definition string_of (l : list byte) : string := string_of_list_ascii l.

(** The bytes of the escapes the source writes in its literals. *)
Definition TAB : byte := "009"%char.
Definition LF : byte := "010"%char.
Definition VT : byte := "011"%char.
Definition FF : byte := "012"%char.
Definition CR : byte := "013"%char.
Definition ESC : byte := "027"%char.
Definition SPC : byte := " "%char.

(** [l[i:]]; Go panics when the index is out of range. *)
Definition slice_from {A : Type} (l : list A) (i : Z) : option (list A) :=
  if (0 <=? i) && (i <=? len l) then Some (skipn (Z.to_nat i) l) else None.

Fixpoint has_prefix (l p : list byte) : bool :=
  match p, l with
  | [], _ => true
  | x :: p', y :: l' => byte_eqb x y && has_prefix l' p'
  | _ :: _, [] => false
  end.

(** [strings.HasPrefix], [strings.HasSuffix], [strings.TrimPrefix]. *)
Definition HasPrefix (s prefix : string) : bool :=
  has_prefix (bytes_of s) (bytes_of prefix).

Definition HasSuffix (s suffix : string) : bool :=
  has_prefix (rev (bytes_of s)) (rev (bytes_of suffix)).

Definition TrimPrefix (s prefix : string) : string :=
  if HasPrefix s prefix
  then string_of (skipn (String.length prefix) (bytes_of s))
  else s.

(** White space as [unicode.IsSpace] defines it, each code point by its
    UTF-8 encoding: the six ASCII ones, U+0085, U+00A0, U+1680,
    U+2000..U+200A, U+2028, U+2029, U+202F, U+205F and U+3000. *)
Definition space_encodings : list (list byte) :=
  [ [TAB]; [LF]; [VT]; [FF]; [CR]; [SPC];
    ["194"; "133"]; ["194"; "160"];
    ["225"; "154"; "128"];
    ["226"; "128"; "128"]; ["226"; "128"; "129"]; ["226"; "128"; "130"];
    ["226"; "128"; "131"]; ["226"; "128"; "132"]; ["226"; "128"; "133"];
    ["226"; "128"; "134"]; ["226"; "128"; "135"]; ["226"; "128"; "136"];
    ["226"; "128"; "137"]; ["226"; "128"; "138"];
    ["226"; "128"; "168"]; ["226"; "128"; "169"]; ["226"; "128"; "175"];
    ["226"; "129"; "159"];
    ["227"; "128"; "128"] ]%char.

(** The number of bytes of the white-space rune [l] starts with, [0] when
    it starts with none. *)
Fixpoint space_width (encs : list (list byte)) (l : list byte) : nat :=
  match encs with
  | [] => O
  | e :: encs' => if has_prefix l e then List.length e else space_width encs' l
  end.

Fixpoint trim_left (encs : list (list byte)) (fuel : nat) (l : list byte) : list byte :=
  match fuel with
  | O => l
  | S fuel' =>
      match space_width encs l with
      | O => l
      | w => trim_left encs fuel' (skipn w l)
      end
  end.

Definition TrimLeftSpace (l : list byte) : list byte :=
  trim_left space_encodings (List.length l) l.

Definition TrimRightSpace (l : list byte) : list byte :=
  rev (trim_left (map (@rev byte) space_encodings) (List.length l) (rev l)).

(** [strings.TrimSpace]: leading and trailing white space removed. Go
    decodes runes from either end and tests them with [unicode.IsSpace];
    a rune of white space is decoded exactly where one of the encodings
    above stands, and an invalid byte decodes to U+FFFD, which is not
    white space. *)
Definition TrimSpace (s : string) : string :=
  string_of (TrimRightSpace (TrimLeftSpace (bytes_of s))).

(** ** DiagnosticRingBuffer: [ringBuffer] *)

Module Ring.

Record ringBuffer := mkRing {
  data : list byte;
  cap : Z
}.

Definition newRingBuffer (capacity : Z) : ringBuffer :=
  let capacity := if capacity <? 1 then 1 else capacity in
  {| data := []; cap := capacity |}.

(** [None] is a slice index out of range, a panic in Go. *)
Definition AppendLine (line : string) (b : ringBuffer) : option ringBuffer :=
  if String.eqb line "" then Some b
  else
    let line := if HasSuffix line (String LF "") then line
                else (line ++ String LF "")%string in
    let raw := bytes_of line in
    if cap b <=? len raw then
      match slice_from raw (len raw - cap b) with
      | Some d => Some {| data := [] ++ d; cap := cap b |}
      | None => None
      end
    else
      let kept :=
        if cap b <? len (data b) + len raw then
          let trim := len (data b) + len raw - cap b in
          match slice_from (data b) trim with
          | Some d => Some ([] ++ d)
          | None => None
          end
        else Some (data b) in
      match kept with
      | Some d => Some {| data := d ++ raw; cap := cap b |}
      | None => None
      end.

(** [String()]: the trimmed contents. *)
Definition String_ (b : ringBuffer) : string :=
  TrimSpace (string_of (data b)).

Fixpoint AppendLines (lines : list string) (b : ringBuffer) : option ringBuffer :=
  match lines with
  | [] => Some b
  | line :: rest =>
      match AppendLine line b with
      | Some b' => AppendLines rest b'
      | None => None
      end
  end.

(** The bytes one [AppendLine] call hands to the buffer: none for the empty
    line, which returns at once, otherwise the line with its newline. *)
Definition appended (line : string) : list byte :=
  if String.eqb line "" then []
  else if HasSuffix line (String LF "") then bytes_of line
  else bytes_of (line ++ String LF "")%string.

Definition stream (lines : list string) : list byte :=
  List.concat (map appended lines).

End Ring.

(** ** OutputLineSplitter: [splitOnCRLF] *)

Module Splitter.

(** The [chars] argument of [bytes.IndexAny(pending, "\r\n")]. *)
Definition crlf : list byte := [CR; LF].

Definition is_any (chars : list byte) (c : byte) : bool :=
  existsb (byte_eqb c) chars.

Fixpoint index_any (s chars : list byte) (i : Z) : Z :=
  match s with
  | [] => -1
  | c :: s' => if is_any chars c then i else index_any s' chars (i + 1)
  end.

(** [bytes.IndexAny] for ASCII [chars]: the index of the first byte of [s]
    that is one of [chars], or [-1]. *)
Definition IndexAny (s chars : list byte) : Z := index_any s chars 0.

Lemma len_cons {A} (x : A) (l : list A) : len (x :: l) = 1 + len l.
Proof. unfold len. simpl List.length. lia. Qed.

Lemma index_any_range (s chars : list byte) : forall i,
  index_any s chars i = -1 \/ i <= index_any s chars i < i + len s.
Proof.
  induction s as [|c s IH]; intros i; simpl.
  - left; reflexivity.
  - destruct (is_any chars c).
    + right. rewrite len_cons. unfold len. lia.
    + destruct (IH (i + 1)) as [H|H]; [left; exact H|].
      right. rewrite len_cons. lia.
Qed.

Definition inspect {A} (a : A) : {b | a = b} := exist _ a eq_refl.

(** [emit(seg)] appends to the lines emitted so far. *)
Definition emit_nonempty (seg : string) (emitted : list string) : list string :=
  if String.eqb seg "" then emitted else emitted ++ [seg].

(** The inner [for]: cut [pending] at each terminator, emit what is not
    empty once trimmed. [pending[:idx]] and [pending[idx+1:]] are in
    range by [index_any_range]. *)
Equations? drain (pending : list byte) (emitted : list string)
  : list byte * list string by wf (List.length pending) lt :=
drain pending emitted with inspect (IndexAny pending crlf =? -1) := {
  | exist _ true _ => (pending, emitted)
  | exist _ false Hidx =>
      let idx := IndexAny pending crlf in
      let seg := string_of (firstn (Z.to_nat idx) pending) in
      let pending := skipn (Z.to_nat (idx + 1)) pending in
      let seg := TrimSpace seg in
      drain pending (emit_nonempty seg emitted) }.
Proof.
  apply Z.eqb_neq in Hidx. unfold IndexAny in *.
  subst seg pending seg0 idx.
  match goal with
  | Hne : index_any ?p _ _ <> _ |- _ =>
      destruct (index_any_range p crlf 0) as [H|H]; [congruence|]
  end.
  rewrite length_skipn. unfold len in H. lia.
Qed.

(** What [r.Read(buf)] can fail with: [io.EOF] or another error. *)
Inductive read_error := EOF | ErrOther (msg : string).

(** [if n > 0 { pending = append(pending, buf[:n]...); for { ... } }] *)
Definition consume (chunk pending : list byte) (emitted : list string)
  : list byte * list string :=
  if 0 <? len chunk then drain (pending ++ chunk) emitted else (pending, emitted).

(** The reader is given by what its calls return: [reads] are the chunks
    of the calls that return no error, then one call returns [last]
    together with the error [e]. The result is the lines emitted, in
    order, and the error returned ([None] is [nil]). [buf] bounds a chunk
    by 4096 bytes; nothing below depends on the bound. *)
Fixpoint splitOnCRLF_loop (reads : list (list byte)) (last : list byte) (e : read_error)
    (pending : list byte) (emitted : list string) : list string * option read_error :=
  match reads with
  | chunk :: reads' =>
      let '(pending, emitted) := consume chunk pending emitted in
      splitOnCRLF_loop reads' last e pending emitted
  | [] =>
      let '(pending, emitted) := consume last pending emitted in
      match e with
      | EOF =>
          if 0 <? len pending
          then (emit_nonempty (TrimSpace (string_of pending)) emitted, None)
          else (emitted, None)
      | ErrOther _ => (emitted, Some e)
      end
  end.

Definition splitOnCRLF (reads : list (list byte)) (last : list byte) (e : read_error)
  : list string * option read_error :=
  splitOnCRLF_loop reads last e [] [].

(** The specification's reading of the splitter, on the whole stream:
    cut at every [\r] and every [\n], trim each piece, drop the empty
    ones. *)
Definition is_terminator (c : byte) : bool := byte_eqb c CR || byte_eqb c LF.

Fixpoint split_at_terminators (l : list byte) : list (list byte) :=
  match l with
  | [] => [[]]
  | c :: t =>
      if is_terminator c then [] :: split_at_terminators t
      else match split_at_terminators t with
           | [] => [[c]]
           | piece :: pieces => (c :: piece) :: pieces
           end
  end.

Definition nonempty (s : string) : bool := negb (String.eqb s "").

Definition trimmed_lines (pieces : list (list byte)) : list string :=
  filter nonempty (map (fun piece => TrimSpace (string_of piece)) pieces).

Definition spec_lines (stream : list byte) : list string :=
  trimmed_lines (split_at_terminators stream).

End Splitter.

(** ** Regular expressions: the part of Go's [regexp] the patterns use

    A pattern is written as a term of [re]; the matcher is a backtracking
    one, which finds the leftmost match and, among those, the one
    preferred by the order of alternatives and by greedy repetition: the
    match Go's [regexp] documents. The matcher works on bytes. The four
    patterns of the source consume ASCII bytes only, except where a
    letter under the flag [i] also matches a non-ASCII code point (the
    Kelvin sign for [k], the long s for [s]); such a code point is given
    by its UTF-8 encoding. Repetition is needed for one-byte classes
    only. *)

Module Regexp.

Inductive re :=
| Empty                          (* the empty pattern *)
| Class (p : byte -> bool)       (* one byte of a class *)
| Cat (r1 r2 : re)               (* r1 r2 *)
| Alt (r1 r2 : re)               (* r1|r2, r1 preferred *)
| Star (p : byte -> bool)        (* [class]*, greedy *)
| Capture (n : nat) (r : re)     (* (r), group number n *)
| WordBoundary                   (* \b, ASCII *)
| EndText.                       (* $, without the flag m *)

Definition Plus (p : byte -> bool) : re := Cat (Class p) (Star p).
Definition Opt (r : re) : re := Alt r Empty.

Fixpoint Seq (rs : list re) : re :=
  match rs with
  | [] => Empty
  | [r] => r
  | r :: rs' => Cat r (Seq rs')
  end.

Definition in_range (lo hi : Z) (c : byte) : bool :=
  (lo <=? byte_val c) && (byte_val c <=? hi).

Definition is_digit : byte -> bool := in_range 48 57.
Definition is_upper : byte -> bool := in_range 65 90.
Definition is_lower : byte -> bool := in_range 97 122.

(** [\w]: [0-9A-Za-z_]. *)
Definition is_word (c : byte) : bool :=
  is_digit c || is_upper c || is_lower c || byte_eqb c "_"%char.

(** [\s]: [\t\n\f\r ]. *)
Definition is_space (c : byte) : bool :=
  byte_eqb c TAB || byte_eqb c LF || byte_eqb c FF || byte_eqb c CR || byte_eqb c SPC.

Definition to_lower (c : byte) : byte :=
  if is_upper c then ascii_of_N (N_of_ascii c + 32) else c.

Definition to_upper (c : byte) : byte :=
  if is_lower c then ascii_of_N (N_of_ascii c - 32) else c.

(** One ASCII byte, whatever its case. *)
Definition fold_eq (c x : byte) : bool := byte_eqb (to_lower c) (to_lower x).

Definition bytes_re (l : list byte) : re := Seq (map (fun b => Class (byte_eqb b)) l).

(** A literal byte under the flag [i]: both cases of a letter and, for [k]
    and [s], the code points U+212A and U+017F that fold to them. *)
Definition fold_lit (c : byte) : re :=
  if byte_eqb (to_lower c) "k"%char
  then Alt (Class (fold_eq c)) (bytes_re ["226"; "132"; "170"]%char)
  else if byte_eqb (to_lower c) "s"%char
  then Alt (Class (fold_eq c)) (bytes_re ["197"; "191"]%char)
  else Class (fold_eq c).

(** A literal string under the flag [i]. *)
Definition fold_str (s : string) : re := Seq (map fold_lit (bytes_of s)).

(** A class of letters under the flag [i]. *)
Definition fold_set (s : string) : re :=
  let cs := bytes_of s in
  let ascii_part := Class (fun x => existsb (fun c => fold_eq c x) cs) in
  if existsb (fun c => byte_eqb (to_lower c) "k"%char) cs
  then Alt ascii_part (bytes_re ["226"; "132"; "170"]%char)
  else if existsb (fun c => byte_eqb (to_lower c) "s"%char) cs
  then Alt ascii_part (bytes_re ["197"; "191"]%char)
  else ascii_part.

(** Offsets of the groups that took part in the match. *)
Definition captures := list (nat * (nat * nat)).

(** A position in the text: the byte before it, the bytes from it on, its
    offset. *)
Definition cont : Type :=
  option byte -> list byte -> nat -> captures -> option (nat * captures).

Definition word_before (prev : option byte) : bool :=
  match prev with Some c => is_word c | None => false end.

Definition word_after (l : list byte) : bool :=
  match l with c :: _ => is_word c | [] => false end.

Fixpoint star (p : byte -> bool) (prev : option byte) (l : list byte) (off : nat)
    (cs : captures) (k : cont) {struct l} : option (nat * captures) :=
  match l with
  | c :: t =>
      if p c then
        match star p (Some c) t (S off) cs k with
        | Some res => Some res
        | None => k prev l off cs
        end
      else k prev l off cs
  | [] => k prev l off cs
  end.

Fixpoint exec (r : re) (prev : option byte) (l : list byte) (off : nat)
    (cs : captures) (k : cont) {struct r} : option (nat * captures) :=
  match r with
  | Empty => k prev l off cs
  | Class p =>
      match l with
      | c :: t => if p c then k (Some c) t (S off) cs else None
      | [] => None
      end
  | Cat r1 r2 =>
      exec r1 prev l off cs (fun prev' l' off' cs' => exec r2 prev' l' off' cs' k)
  | Alt r1 r2 =>
      match exec r1 prev l off cs k with
      | Some res => Some res
      | None => exec r2 prev l off cs k
      end
  | Star p => star p prev l off cs k
  | Capture n r1 =>
      exec r1 prev l off cs
        (fun prev' l' off' cs' => k prev' l' off' ((n, (off, off')) :: cs'))
  | WordBoundary =>
      if xorb (word_before prev) (word_after l) then k prev l off cs else None
  | EndText =>
      match l with
      | [] => k prev l off cs
      | _ :: _ => None
      end
  end.

(** A match that starts at this position: where it ends, and the groups. *)
Definition match_here (r : re) (prev : option byte) (l : list byte) (off : nat)
  : option (nat * captures) :=
  exec r prev l off [] (fun _ _ off' cs => Some (off', cs)).

(** The leftmost match: where it starts and ends, and the groups. *)
Fixpoint search (r : re) (prev : option byte) (l : list byte) (off : nat)
  : option (nat * nat * captures) :=
  match match_here r prev l off with
  | Some (e, cs) => Some (off, e, cs)
  | None =>
      match l with
      | [] => None
      | c :: t => search r (Some c) t (S off)
      end
  end.

Fixpoint group_span (n : nat) (cs : captures) : option (nat * nat) :=
  match cs with
  | [] => None
  | (m, span) :: cs' => if Nat.eqb m n then Some span else group_span n cs'
  end.

Definition sub (l : list byte) (b e : nat) : string :=
  string_of (firstn (e - b) (skipn b l)).

(** [FindStringSubmatch] of a pattern with [groups] groups: [None] is the
    nil slice; otherwise the match and then each group, [""] for a group
    that took no part. *)
Definition FindStringSubmatch (r : re) (groups : nat) (s : string) : option (list string) :=
  let l := bytes_of s in
  match search r None l 0 with
  | None => None
  | Some (b, e, cs) =>
      Some (sub l b e ::
            map (fun n => match group_span n cs with
                          | Some (gb, ge) => sub l gb ge
                          | None => ""%string
                          end) (seq 1 groups))
  end.

(** [ReplaceAllString(s, "")] for a pattern that matches no empty string:
    every match, leftmost first and not overlapping, is dropped. [skip]
    counts the bytes of the current match still to drop. *)
Fixpoint remove_all (r : re) (prev : option byte) (skip : nat) (l : list byte) : list byte :=
  match l with
  | [] => []
  | c :: t =>
      match skip with
      | S skip' => remove_all r (Some c) skip' t
      | O =>
          match match_here r prev l 0 with
          | Some (S n, _) => remove_all r (Some c) n t
          | _ => c :: remove_all r (Some c) O t
          end
      end
  end.

Definition RemoveAllString (r : re) (s : string) : string :=
  string_of (remove_all r None O (bytes_of s)).

End Regexp.

(** ** float64 and [strconv] *)

Module Float64.

Definition float64 := spec_float.

Definition prec : Z := 53.
Definition emax : Z := 1024.

(** [float64(z)] for an integer [z], and the value of an integer constant
    used as a [float64]: the nearest float, ties to even. *)
Definition of_Z (z : Z) : float64 := binary_normalize prec emax z 0 false.

Definition mul (x y : float64) : float64 := SFmul prec emax x y.
Definition div (x y : float64) : float64 := SFdiv prec emax x y.
Definition ltb (x y : float64) : bool := SFltb x y.

Definition zero : float64 := S754_zero false.

(** The integer part of a finite float, towards zero. *)
Definition trunc (f : float64) : option Z :=
  match f with
  | S754_zero _ => Some 0
  | S754_finite sign m e =>
      let magnitude := if 0 <=? e then Z.pos m * 2 ^ e else Z.pos m / 2 ^ (- e) in
      Some (if sign then - magnitude else magnitude)
  | S754_infinity _ | S754_nan => None
  end.

(** [int64(f)]: the integer part when it is an [int64]. Go leaves the
    result to the implementation otherwise; [overflow] is what the
    platform gives then. *)
Definition to_int64 (overflow : float64 -> Z) (f : float64) : Z :=
  match trunc f with
  | Some z => if in_int64b z then z else overflow f
  | None => overflow f
  end.

(** The float nearest to [digits / 10 ^ scale], ties to even. *)
Definition of_decimal (digits : Z) (scale : Z) : float64 :=
  if digits =? 0 then zero
  else
    let '(q, e, loc) := SFdiv_core_binary prec emax digits 0 (10 ^ scale) 0 in
    binary_round_aux prec emax false q e loc.

End Float64.

Module Strconv.
Import Regexp Float64.

Definition digit_val (c : byte) : Z := byte_val c - 48.

(** The value of a string of decimal digits, [None] when a byte is not a
    digit. *)
Fixpoint digits_val (acc : Z) (l : list byte) : option Z :=
  match l with
  | [] => Some acc
  | c :: t => if is_digit c then digits_val (10 * acc + digit_val c) t else None
  end.

(** [strconv.ParseInt(s, 10, 64)]: an optional sign and at least one
    digit; [None] is a syntax or range error. *)
Definition ParseInt (s : string) : option Z :=
  let l := bytes_of s in
  let '(neg, body) :=
    match l with
    | c :: t =>
        if byte_eqb c "+"%char then (false, t)
        else if byte_eqb c "-"%char then (true, t)
        else (false, l)
    | [] => (false, l)
    end in
  match body with
  | [] => None
  | _ :: _ =>
      match digits_val 0 body with
      | None => None
      | Some un =>
          if negb neg && (2 ^ 63 <=? un) then None
          else if neg && (2 ^ 63 <? un) then None
          else Some (if neg then - un else un)
      end
  end.

Fixpoint span_digits (l : list byte) : list byte * list byte :=
  match l with
  | c :: t =>
      if is_digit c then let '(ds, rest) := span_digits t in (c :: ds, rest)
      else ([], l)
  | [] => ([], [])
  end.

(** [strconv.ParseFloat(s, 64)] on decimal numbers without sign and
    exponent, which is what the patterns below pass to it: digits,
    optionally a point and digits, at least one digit in all. The value
    is the nearest float, ties to even; [None] is an error: a syntax
    error, or a range error when that float is infinite. Signs,
    exponents, hexadecimal numbers, infinities and NaN, which
    [ParseFloat] also reads, are not modelled. *)
Definition ParseFloat (s : string) : option float64 :=
  let '(int_part, rest) := span_digits (bytes_of s) in
  let '(frac_part, rest) :=
    match rest with
    | c :: t => if byte_eqb c "."%char then span_digits t else ([], rest)
    | [] => ([], [])
    end in
  match rest, int_part ++ frac_part with
  | _ :: _, _ => None
  | [], [] => None
  | [], ds =>
      match digits_val 0 ds with
      | None => None
      | Some n =>
          match of_decimal n (len frac_part) with
          | S754_infinity _ | S754_nan => None
          | f => Some f
          end
      end
  end.

End Strconv.

(** ** ProgressLineParser: [parseProgressSegment] *)

Module Parser.
Import Regexp Float64 Strconv.

Definition number : re :=
  Cat (Plus is_digit) (Opt (Cat (Class (byte_eqb "."%char)) (Plus is_digit))).

(** The pattern "(?i)\bOK\s*size:\s*([0-9][0-9,]*" ")(?:\b|$)" (one
    pattern, written here in two pieces). *)
Definition reOKSize : re :=
  Seq [ WordBoundary; fold_str "OK"; Star is_space; fold_str "size:"; Star is_space;
        Capture 1 (Cat (Class is_digit)
                       (Star (fun c => is_digit c || byte_eqb c ","%char)));
        Alt WordBoundary EndText ].

(** The pattern "(?i)\bProgress:\s*([0-9]+(?:\.[0-9]+)?)\s*%". *)
Definition reProgress : re :=
  Seq [ WordBoundary; fold_str "Progress:"; Star is_space;
        Capture 1 number; Star is_space; Class (byte_eqb "%"%char) ].

(** The pattern "(?i)\bSpeed:\s*([0-9]+(?:\.[0-9]+)?)\s*([kmgtp]?)(?:i)?b/s". *)
Definition reSpeedUnit : re :=
  Seq [ WordBoundary; fold_str "Speed:"; Star is_space;
        Capture 1 number; Star is_space;
        Capture 2 (Opt (fold_set "kmgtp"));
        Opt (fold_lit "i"%char); fold_str "b/s" ].

(** The pattern "\x1b\[[0-?]*[ -/]*[@-~]". *)
Definition reANSIEsc : re :=
  Seq [ Class (byte_eqb ESC); Class (byte_eqb "["%char);
        Star (in_range 48 63); Star (in_range 32 47); Class (in_range 64 126) ].

Definition stripANSI (s : string) : string := RemoveAllString reANSIEsc s.

(** [strings.ReplaceAll(s, ",", "")] *)
Definition remove_commas (s : string) : string :=
  string_of (filter (fun c => negb (byte_eqb c ","%char)) (bytes_of s)).

Definition parseCommaInt64 (s : string) : option Z :=
  ParseInt (remove_commas s).

(** [strings.ToUpper] on ASCII letters; other bytes stay. The one
    non-ASCII prefix [reSpeedUnit] can capture is the Kelvin sign, which
    [ToUpper] leaves as it is. *)
Definition ToUpper (s : string) : string :=
  string_of (map to_upper (bytes_of s)).

Definition speedToBps (value : float64) (unitPrefix : string) : float64 :=
  let u := ToUpper unitPrefix in
  if String.eqb u "K" then mul value (of_Z 1024)
  else if String.eqb u "M" then mul (mul value (of_Z 1024)) (of_Z 1024)
  else if String.eqb u "G" then mul (mul (mul value (of_Z 1024)) (of_Z 1024)) (of_Z 1024)
  else if String.eqb u "T"
  then mul (mul (mul (mul value (of_Z 1024)) (of_Z 1024)) (of_Z 1024)) (of_Z 1024)
  else if String.eqb u "P"
  then mul (mul (mul (mul (mul value (of_Z 1024)) (of_Z 1024)) (of_Z 1024)) (of_Z 1024))
           (of_Z 1024)
  else value.

Record parsedProgress := mkParsed {
  doneBytes : Z;
  speedBps : float64;
  percent : float64;
  hasDone : bool;
  hasSpeed : bool;
  hasPercent : bool
}.

Definition parseProgressSegment (seg : string) : parsedProgress :=
  let clean := TrimSpace (stripANSI seg) in
  let clean := TrimPrefix clean (String CR "") in
  let out := {| doneBytes := 0; speedBps := zero; percent := zero;
                hasDone := false; hasSpeed := false; hasPercent := false |} in
  let out :=
    match FindStringSubmatch reOKSize 1 clean with
    | Some [_; m1] =>
        match parseCommaInt64 m1 with
        | Some v => {| doneBytes := v; speedBps := speedBps out; percent := percent out;
                       hasDone := true; hasSpeed := hasSpeed out;
                       hasPercent := hasPercent out |}
        | None => out
        end
    | _ => out
    end in
  let out :=
    match FindStringSubmatch reProgress 1 clean with
    | Some [_; m1] =>
        match ParseFloat m1 with
        | Some v => {| doneBytes := doneBytes out; speedBps := speedBps out; percent := v;
                       hasDone := hasDone out; hasSpeed := hasSpeed out;
                       hasPercent := true |}
        | None => out
        end
    | _ => out
    end in
  let out :=
    match FindStringSubmatch reSpeedUnit 2 clean with
    | Some [_; m1; m2] =>
        match ParseFloat m1 with
        | Some v => {| doneBytes := doneBytes out; speedBps := speedToBps v m2;
                       percent := percent out;
                       hasDone := hasDone out; hasSpeed := true;
                       hasPercent := hasPercent out |}
        | None => out
        end
    | _ => out
    end in
  out.

End Parser.

(** ** Transfer records, errors and the service *)

Module Engine.
Import Float64 Parser.

Definition TransferType := string.
Definition TransferTypeUpload : TransferType := "upload"%string.
Definition TransferTypeDownload : TransferType := "download"%string.

Definition TransferStatus := string.
Definition TransferStatusQueued : TransferStatus := "queued"%string.
Definition TransferStatusInProgress : TransferStatus := "in-progress"%string.
Definition TransferStatusSuccess : TransferStatus := "success"%string.
Definition TransferStatusError : TransferStatus := "error"%string.

Record TransferUpdate := mkUpdate {
  ID : string;
  Type_ : TransferType;
  Status : TransferStatus;
  Name : string;
  Bucket : string;
  Key : string;
  LocalPath : string;
  TotalBytes : Z;
  DoneBytes : Z;
  SpeedBytesPerSec : float64;
  EtaSeconds : Z;
  Message : string;
  StartedAtMs : Z;
  UpdatedAtMs : Z;
  FinishedAtMs : Z
}.

(** A Go [error]: its text, and what [errors.As] and [errors.Is] answer
    for the targets [ossutilStartFailed] asks about. *)
Record error := mkError {
  text : string;
  as_ExitError : bool;
  is_ErrNotFound : bool;
  is_ErrNotExist : bool;
  is_ErrPermission : bool
}.

Definition errors_New (msg : string) : error :=
  {| text := msg; as_ExitError := false; is_ErrNotFound := false;
     is_ErrNotExist := false; is_ErrPermission := false |}.

(** [fmt.Errorf] with one [%w]: a new text around an error that stays in
    the chain. *)
Definition wrap_error (new_text : string) (e : error) : error :=
  {| text := new_text; as_ExitError := as_ExitError e;
     is_ErrNotFound := is_ErrNotFound e; is_ErrNotExist := is_ErrNotExist e;
     is_ErrPermission := is_ErrPermission e |}.

Definition ossutilStartFailed (err : option error) : bool :=
  match err with
  | None => false
  | Some e =>
      if as_ExitError e then false
      else is_ErrNotFound e || is_ErrNotExist e || is_ErrPermission e
  end.

(** The fields of [OSSService] the engine reads and writes. *)
Record OSSService := mkService {
  ossutilPath : string;
  defaultOssutilPath : string;
  transferSeq : Z
}.

(** ** ProcessSupervisor and ProgressAggregator: [runOssutilWithProgress] *)

(** A reading of [time.Now()]: a [time.Time] carries the reading of the
    wall clock, which [UnixMilli] reports, and the reading of the
    monotonic clock, which [Sub] compares when both times have one; both
    in nanoseconds. *)
Record Time := mkTime {
  wall : Z;
  mono : Z
}.

(** What a started process does, as the function sees it: the segments
    received from the channel that the two [splitOnCRLF] readers feed, in
    the order received, each with the reading of [time.Now()] that [emit]
    makes if it is called for the segment; what [cmd.Wait()] returns; the
    reading of the clock in the last [emit]. *)
Record process := mkProcess {
  segments : list (string * Time);
  wait_result : option error;
  exit_now : Time
}.

(** What the function leaves behind. *)
Record outcome := mkOutcome {
  returned : option error;
  update_after : option TransferUpdate;
  service_after : OSSService;
  started : list string;
  snapshots : list TransferUpdate
}.

(** The variables the [emit] closure and the segment loop share. *)
Record job := mkJob {
  lastEmit : option Time;
  doneBytes : Z;
  speedBps : float64;
  update : TransferUpdate;
  outputTail : Ring.ringBuffer;
  emitted : list TransferUpdate
}.

(** [250 * time.Millisecond], in nanoseconds. *)
Definition emitInterval : Z := 250 * 1000000.

(** [t.UnixMilli()], from the reading of the wall clock. *)
Definition UnixMilli (now : Z) : Z := now / 1000000.

Section Platform.

(** What [int64(f)] gives on this platform when the integer part of [f] is
    no [int64]. *)
Variable int64_overflow : float64 -> Z.

Definition eta (total done : Z) (speed : float64) : Z :=
  if (0 <? total) && ltb zero speed && (0 <=? done) && (done <=? total)
  then to_int64 int64_overflow (div (of_Z (wrap64 (total - done))) speed)
  else 0.

(** The [emit] closure, with [now] the reading of [time.Now()] it makes.
    [now.Sub(lastEmit)] is the difference of the monotonic readings, which
    both times carry; [now.UnixMilli()] is read off the wall clock. *)
Definition emit (force : bool) (now : Time) (j : job) : job :=
  let throttled :=
    match lastEmit j with
    | Some last => negb force && (mono now - mono last <? emitInterval)
    | None => false
    end in
  if throttled then j
  else
    let u := update j in
    let u' :=
      {| ID := ID u; Type_ := Type_ u; Status := Status u; Name := Name u;
         Bucket := Bucket u; Key := Key u; LocalPath := LocalPath u;
         TotalBytes := TotalBytes u;
         DoneBytes := doneBytes j;
         SpeedBytesPerSec := speedBps j;
         EtaSeconds := eta (TotalBytes u) (doneBytes j) (speedBps j);
         Message := Message u; StartedAtMs := StartedAtMs u;
         UpdatedAtMs := UnixMilli (wall now);
         FinishedAtMs := FinishedAtMs u |} in
    {| lastEmit := Some now; doneBytes := doneBytes j; speedBps := speedBps j;
       update := u'; outputTail := outputTail j;
       emitted := emitted j ++ [u'] |}.

(** One turn of [for seg := range segments]; [None] is a panic. *)
Definition handle_segment (seg : string) (now : Time) (j : job) : option job :=
  let seg := stripANSI seg in
  let p := parseProgressSegment seg in
  let done :=
    if hasDone p then Parser.doneBytes p
    else if hasPercent p && (0 <? TotalBytes (update j))
    then to_int64 int64_overflow
           (mul (of_Z (TotalBytes (update j))) (div (percent p) (of_Z 100)))
    else doneBytes j in
  let speed := if hasSpeed p then Parser.speedBps p else speedBps j in
  let j := {| lastEmit := lastEmit j; doneBytes := done; speedBps := speed;
              update := update j; outputTail := outputTail j;
              emitted := emitted j |} in
  if hasDone p || hasSpeed p || hasPercent p then Some (emit false now j)
  else
    match Ring.AppendLine (TrimSpace seg) (outputTail j) with
    | Some tail =>
        Some {| lastEmit := lastEmit j; doneBytes := doneBytes j;
                speedBps := speedBps j; update := update j;
                outputTail := tail; emitted := emitted j |}
    | None => None
    end.

Fixpoint handle_segments (segs : list (string * Time)) (j : job) : option job :=
  match segs with
  | [] => Some j
  | (seg, now) :: rest =>
      match handle_segment seg now j with
      | Some j' => handle_segments rest j'
      | None => None
      end
  end.

(** [startCmd] is given by what starting a binary with the arguments
    leads to: an error, or a process. *)
Definition runOssutilWithProgress
    (startCmd : string -> list string -> error + process)
    (s : OSSService) (args : list string) (update : option TransferUpdate)
  : option outcome :=
  match update with
  | None =>
      Some {| returned := Some (errors_New "internal error: missing transfer update"%string);
              update_after := None; service_after := s; started := [];
              snapshots := [] |}
  | Some update =>
      let primary := TrimSpace (ossutilPath s) in
      let fallback := TrimSpace (defaultOssutilPath s) in
      let primary := if String.eqb primary ""%string then fallback else primary in
      let primary := if String.eqb primary ""%string then "ossutil"%string else primary in
      let first := startCmd primary args in
      let err := match first with inl e => Some e | inr _ => None end in
      let '(result, s, started) :=
        if match err with Some _ => true | None => false end
           && ossutilStartFailed err
           && negb (String.eqb fallback ""%string) && negb (String.eqb fallback primary)
        then
          let second := startCmd fallback args in
          (second,
           match second with
           | inr _ => {| ossutilPath := fallback;
                         defaultOssutilPath := defaultOssutilPath s;
                         transferSeq := transferSeq s |}
           | inl _ => s
           end,
           [primary; fallback])
        else (first, s, [primary]) in
      match result with
      | inl e =>
          Some {| returned := Some (wrap_error ("failed to start ossutil: " ++ text e)%string e);
                  update_after := Some update; service_after := s;
                  started := started; snapshots := [] |}
      | inr proc =>
          let j := {| lastEmit := None; doneBytes := DoneBytes update;
                      speedBps := SpeedBytesPerSec update; update := update;
                      outputTail := Ring.newRingBuffer (16 * 1024);
                      emitted := [] |} in
          match handle_segments (segments proc) j with
          | None => None
          | Some j =>
              match wait_result proc with
              | Some e =>
                  let tail := Ring.String_ (outputTail j) in
                  Some {| returned :=
                            Some (if String.eqb tail ""%string then e
                                  else wrap_error (text e ++ ": " ++ tail)%string e);
                          update_after := Some (Engine.update j);
                          service_after := s; started := started;
                          snapshots := emitted j |}
              | None =>
                  let j := emit true (exit_now proc) j in
                  Some {| returned := None; update_after := Some (Engine.update j);
                          service_after := s; started := started;
                          snapshots := emitted j |}
              end
          end
      end
  end.

End Platform.

End Engine.

(** ** TransferDispatcher: [EnqueueUpload], [EnqueueDownload] *)

Module Dispatcher.
Import Engine Float64.

(** What [os.Stat] tells of a file. *)
Record FileInfo := mkFileInfo {
  IsDir : bool;
  Size : Z
}.

(** [%d] of [fmt.Sprintf]. *)
Definition decimal (z : Z) : string := NilEmpty.string_of_int (Z.to_int z).

(** [path.Base], and [filepath.Base] where the separator is [/]: the last
    element of the path, trailing slashes removed. *)
Fixpoint drop_slashes (l : list byte) : list byte :=
  match l with
  | c :: t => if byte_eqb c "/"%char then drop_slashes t else l
  | [] => []
  end.

Fixpoint until_slash (l : list byte) : list byte :=
  match l with
  | c :: t => if byte_eqb c "/"%char then [] else c :: until_slash t
  | [] => []
  end.

Definition Base (path : string) : string :=
  if String.eqb path "" then "."%string
  else
    let element := rev (until_slash (drop_slashes (rev (bytes_of path)))) in
    match element with
    | [] => "/"%string
    | _ :: _ => string_of element
    end.

Section WithConfig.

(** [OSSConfig] is passed on to [runTransfer] and not looked at here. *)
Variable OSSConfig : Type.

(** What the two functions read and write: the file system as [os.Stat]
    shows it, the clock ([clock n] is the n-th reading of
    [time.Now().UnixMilli()]), the service, whether a context is set, the
    records handed to [runtime.EventsEmit], and the goroutines started
    with [go s.runTransfer(config, update)]. *)
Record world := mkWorld {
  stat : string -> error + FileInfo;
  clock : nat -> Z;
  ticks : nat;
  service : OSSService;
  has_context : bool;
  events : list TransferUpdate;
  goroutines : list (OSSConfig * TransferUpdate)
}.

Definition now_ms (w : world) : Z * world :=
  (clock w (ticks w),
   {| stat := stat w; clock := clock w; ticks := S (ticks w); service := service w;
      has_context := has_context w; events := events w; goroutines := goroutines w |}).

(** [atomic.AddUint64(&s.transferSeq, 1)] *)
Definition next_seq (w : world) : Z * world :=
  let n := (transferSeq (service w) + 1) mod 2 ^ 64 in
  (n,
   {| stat := stat w; clock := clock w; ticks := ticks w;
      service := {| ossutilPath := ossutilPath (service w);
                    defaultOssutilPath := defaultOssutilPath (service w);
                    transferSeq := n |};
      has_context := has_context w; events := events w; goroutines := goroutines w |}).

Definition emitTransferUpdate (update : TransferUpdate) (w : world) : world :=
  if has_context w
  then {| stat := stat w; clock := clock w; ticks := ticks w; service := service w;
          has_context := has_context w; events := events w ++ [update];
          goroutines := goroutines w |}
  else w.

Definition go_runTransfer (config : OSSConfig) (update : TransferUpdate) (w : world)
  : world :=
  {| stat := stat w; clock := clock w; ticks := ticks w; service := service w;
     has_context := has_context w; events := events w;
     goroutines := goroutines w ++ [(config, update)] |}.

(** [fmt.Sprintf("tr-%d-%d", time.Now().UnixMilli(), atomic.AddUint64(...))] *)
Definition new_id (w : world) : string * world :=
  let '(ms, w) := now_ms w in
  let '(n, w) := next_seq w in
  (("tr-" ++ decimal ms ++ "-" ++ decimal n)%string, w).

Definition EnqueueUpload (config : OSSConfig) (bucket prefix localPath : string)
    (w : world) : (string * option error) * world :=
  let localPath := TrimSpace localPath in
  if String.eqb localPath "" then ((""%string, Some (errors_New "local path is empty")), w)
  else if String.eqb (TrimSpace bucket) ""
  then ((""%string, Some (errors_New "bucket is empty")), w)
  else
    match stat w localPath with
    | inl err =>
        ((""%string, Some (wrap_error ("stat local file failed: " ++ text err) err)), w)
    | inr info =>
        if IsDir info
        then ((""%string, Some (errors_New "upload currently supports files only")), w)
        else
          let fileName := Base localPath in
          let key := TrimPrefix prefix "/" in
          let key := if negb (String.eqb key "") && negb (HasSuffix key "/")
                     then (key ++ "/")%string else key in
          let key := (key ++ fileName)%string in
          let '(id, w) := new_id w in
          let '(updated, w) := now_ms w in
          let update :=
            {| ID := id; Type_ := TransferTypeUpload; Status := TransferStatusQueued;
               Name := fileName; Bucket := bucket; Key := key; LocalPath := localPath;
               TotalBytes := Size info; DoneBytes := 0; SpeedBytesPerSec := zero;
               EtaSeconds := 0; Message := ""; StartedAtMs := 0;
               UpdatedAtMs := updated; FinishedAtMs := 0 |} in
          let w := emitTransferUpdate update w in
          let w := go_runTransfer config update w in
          ((id, None), w)
    end.

Definition EnqueueDownload (config : OSSConfig) (bucket object localPath : string)
    (totalBytes : Z) (w : world) : (string * option error) * world :=
  let localPath := TrimSpace localPath in
  let object := TrimPrefix (TrimSpace object) "/" in
  if String.eqb localPath "" then ((""%string, Some (errors_New "local path is empty")), w)
  else if String.eqb (TrimSpace bucket) ""
  then ((""%string, Some (errors_New "bucket is empty")), w)
  else if String.eqb object ""
  then ((""%string, Some (errors_New "object key is empty")), w)
  else
    let name := Base object in
    let name := if String.eqb name "." || String.eqb name "/" || String.eqb name ""
                then object else name in
    let '(id, w) := new_id w in
    let '(updated, w) := now_ms w in
    let update :=
      {| ID := id; Type_ := TransferTypeDownload; Status := TransferStatusQueued;
         Name := name; Bucket := bucket; Key := object; LocalPath := localPath;
         TotalBytes := totalBytes; DoneBytes := 0; SpeedBytesPerSec := zero;
         EtaSeconds := 0; Message := ""; StartedAtMs := 0;
         UpdatedAtMs := updated; FinishedAtMs := 0 |} in
    let w := emitTransferUpdate update w in
    let w := go_runTransfer config update w in
    ((id, None), w).

End WithConfig.

End Dispatcher.

(** ** More of Go's [strings], as the rest of the service uses it *)

Module Strings.

(** [strings.TrimLeft(s, cutset)], [strings.TrimRight] and [strings.Trim]
    for a cutset of one ASCII byte, which is how the source calls them. *)
Fixpoint trim_left_byte (c : byte) (l : list byte) : list byte :=
  match l with
  | x :: t => if byte_eqb x c then trim_left_byte c t else l
  | [] => []
  end.

Definition TrimLeft (s : string) (c : byte) : string :=
  string_of (trim_left_byte c (bytes_of s)).

Definition TrimRight (s : string) (c : byte) : string :=
  string_of (rev (trim_left_byte c (rev (bytes_of s)))).

Definition Trim (s : string) (c : byte) : string :=
  TrimLeft (TrimRight s c) c.

Definition TrimSuffix (s suffix : string) : string :=
  if HasSuffix s suffix
  then string_of (firstn (String.length s - String.length suffix) (bytes_of s))
  else s.

Fixpoint contains (l p : list byte) : bool :=
  has_prefix l p ||
  match l with
  | [] => false
  | _ :: t => contains t p
  end.

(** [strings.Contains] *)
Definition Contains (s substr : string) : bool :=
  contains (bytes_of s) (bytes_of substr).

Fixpoint before_byte (c : byte) (l : list byte) : list byte :=
  match l with
  | x :: t => if byte_eqb x c then [] else x :: before_byte c t
  | [] => []
  end.

(** [strings.SplitN(s, sep, 2)[0]] for a separator of one byte: what
    stands before the first separator, all of [s] when there is none. *)
Definition SplitN2_first (s : string) (sep : byte) : string :=
  string_of (before_byte sep (bytes_of s)).

Fixpoint split_byte (c : byte) (l : list byte) : list (list byte) :=
  match l with
  | [] => [[]]
  | x :: t =>
      if byte_eqb x c then [] :: split_byte c t
      else match split_byte c t with
           | [] => [[x]]
           | piece :: pieces => (x :: piece) :: pieces
           end
  end.

(** [strings.Split(s, sep)] for a separator of one byte. *)
Definition Split (s : string) (sep : byte) : list string :=
  map string_of (split_byte sep (bytes_of s)).

Definition flush (cur : list byte) : list (list byte) :=
  match cur with
  | [] => []
  | _ :: _ => [rev cur]
  end.

(** [cur] holds the bytes of the field being read, last byte first;
    [skip] counts the bytes still to pass of the white-space rune met. *)
Fixpoint fields (skip : nat) (cur : list byte) (l : list byte) : list (list byte) :=
  match l with
  | [] => flush cur
  | c :: t =>
      match skip with
      | S k => fields k cur t
      | O =>
          match space_width space_encodings l with
          | O => fields O (c :: cur) t
          | S w => flush cur ++ fields w [] t
          end
      end
  end.

(** [strings.Fields]: the maximal pieces without white space, white space
    being what [unicode.IsSpace] accepts. A rune of white space is decoded
    exactly where one of [space_encodings] stands; any other byte belongs
    to a field. *)
Definition Fields (s : string) : list string :=
  map string_of (fields O [] (bytes_of s)).

End Strings.

(** ** [oss_service.go]: normalisation, [runOssutil], bucket lists and profiles *)

Module Service.
Import Strings Engine.

Definition normalizeRegion (region : string) : string :=
  let region := TrimSpace region in
  TrimPrefix region "oss-".

Section Url.

(** [url.Parse(endpoint)], as far as [normalizeEndpoint] looks at it:
    [None] when it returns an error, otherwise the [Host] of the URL. *)
Variable url_Parse_Host : string -> option string.

Definition normalizeEndpoint (endpoint : string) : string :=
  let endpoint := TrimSpace endpoint in
  if String.eqb endpoint "" then ""%string
  else
    let endpoint :=
      if Contains endpoint "://" then
        match url_Parse_Host endpoint with
        | Some host => if negb (String.eqb host "") then host else endpoint
        | None => endpoint
        end
      else endpoint in
    let endpoint := SplitN2_first endpoint "?"%char in
    let endpoint := SplitN2_first endpoint "#"%char in
    let endpoint := SplitN2_first endpoint "/"%char in
    TrimSuffix endpoint ".".

End Url.

Definition suggestServiceEndpoint (region : string) : string :=
  let region := normalizeRegion region in
  if String.eqb region "" then ""%string
  else ("oss-" ++ region ++ ".aliyuncs.com")%string.

Definition ossutilOutputOrError (err : option error) (output : list byte) : string :=
  let msg := TrimSpace (string_of output) in
  if negb (String.eqb msg "") then msg
  else match err with
       | Some e => text e
       | None => ""%string
       end.

(** What [runOssutil] leaves behind: the output and the error returned,
    the service, and the binaries run, in order. *)
Record ran := mkRan {
  output : list byte;
  err : option error;
  service_then : OSSService;
  binaries : list string
}.

(** [CombinedOutput] is given by what running a binary with the arguments
    gives: the output, and an error or [nil]. *)
Definition runOssutil (CombinedOutput : string -> list string -> list byte * option error)
    (s : OSSService) (args : list string) : ran :=
  let primary := TrimSpace (ossutilPath s) in
  let fallback := TrimSpace (defaultOssutilPath s) in
  let primary := if String.eqb primary "" then fallback else primary in
  let primary := if String.eqb primary "" then "ossutil"%string else primary in
  let '(output, err) := CombinedOutput primary args in
  if match err with None => true | Some _ => false end
     || negb (ossutilStartFailed err)
     || String.eqb fallback "" || String.eqb fallback primary
  then {| output := output; err := err; service_then := s; binaries := [primary] |}
  else
    let '(fallbackOutput, fallbackErr) := CombinedOutput fallback args in
    if match fallbackErr with None => true | Some _ => false end
       || negb (ossutilStartFailed fallbackErr)
    then {| output := fallbackOutput; err := fallbackErr;
            service_then := {| ossutilPath := fallback;
                               defaultOssutilPath := defaultOssutilPath s;
                               transferSeq := transferSeq s |};
            binaries := [primary; fallback] |}
    else {| output := output; err := err; service_then := s;
            binaries := [primary; fallback] |}.

Definition SetOssutilPath (path : string) (s : OSSService) : OSSService :=
  if String.eqb (TrimSpace path) ""
  then {| ossutilPath := defaultOssutilPath s;
          defaultOssutilPath := defaultOssutilPath s;
          transferSeq := transferSeq s |}
  else {| ossutilPath := path;
          defaultOssutilPath := defaultOssutilPath s;
          transferSeq := transferSeq s |}.

Definition GetOssutilPath (s : OSSService) : string := ossutilPath s.

(** [for _, f := range fields { if strings.HasPrefix(f, "oss://") { ... break } }] *)
Definition first_url (fields : list string) : string :=
  match find (fun f => HasPrefix f "oss://") fields with
  | Some f => f
  | None => ""%string
  end.

(** One turn of the loop of [parseBucketList]: the name the line adds,
    if it adds one. *)
Definition bucket_of_line (line : string) : option string :=
  let line := TrimSpace line in
  if String.eqb line "" then None
  else if HasPrefix line "CreationTime" || HasPrefix line "Bucket Number" then None
  else
    let bucketURL := first_url (Fields line) in
    if String.eqb bucketURL "" then None
    else
      let name := TrimPrefix bucketURL "oss://" in
      if String.eqb name "" then None else Some name.

Fixpoint keep_some {A : Type} (l : list (option A)) : list A :=
  match l with
  | [] => []
  | Some a :: t => a :: keep_some t
  | None :: t => keep_some t
  end.

(** [parseBucketList]: the [Name] of each [BucketInfo] returned, in order
    ([BucketInfo] is declared outside the files at hand; [Name] is the
    one field the function sets). *)
Definition parseBucketList (output : string) : list string :=
  keep_some (map bucket_of_line (Split output LF)).

(** *** Profiles

    [OSSProfile] is declared outside the files at hand: the functions
    read its [Name] and [IsDefault] and assign [IsDefault = false].
    What [os.MkdirAll] and [LoadProfiles] return is an input; a function
    that ends in [return s.saveProfiles(profiles)] is given by the
    profiles it hands over. *)
Section Profiles.

Variable OSSProfile : Type.
Variable Name : OSSProfile -> string.
Variable IsDefault : OSSProfile -> bool.
Variable unset_IsDefault : OSSProfile -> OSSProfile.

(** The first loop of [SaveProfile]: the profile of that name replaced,
    and whether there was one. *)
Fixpoint replace_first (profile : OSSProfile) (profiles : list OSSProfile)
  : list OSSProfile * bool :=
  match profiles with
  | [] => ([], false)
  | p :: rest =>
      if String.eqb (Name p) (Name profile) then (profile :: rest, true)
      else let '(rest', found) := replace_first profile rest in (p :: rest', found)
  end.

Definition SaveProfile (mkdirAll : option error) (loaded : list OSSProfile + error)
    (profile : OSSProfile) : error + list OSSProfile :=
  match mkdirAll with
  | Some e => inl e
  | None =>
      let profiles := match loaded with inl l => l | inr _ => [] end in
      let '(profiles, found) := replace_first profile profiles in
      let profiles := if negb found then profiles ++ [profile] else profiles in
      let profiles :=
        if IsDefault profile
        then map (fun p => if negb (String.eqb (Name p) (Name profile))
                           then unset_IsDefault p else p) profiles
        else profiles in
      inr profiles
  end.

Definition GetProfile (loaded : list OSSProfile + error) (name : string)
  : OSSProfile + error :=
  match loaded with
  | inr e => inr e
  | inl profiles =>
      match find (fun p => String.eqb (Name p) name) profiles with
      | Some p => inl p
      | None => inr (errors_New ("profile not found: " ++ name))
      end
  end.

Definition DeleteProfile (loaded : list OSSProfile + error) (name : string)
  : error + list OSSProfile :=
  match loaded with
  | inr e => inl e
  | inl profiles => inr (filter (fun p => negb (String.eqb (Name p) name)) profiles)
  end.

(** [(nil, nil)] is [inl None]. *)
Definition GetDefaultProfile (loaded : list OSSProfile + error)
  : option OSSProfile + error :=
  match loaded with
  | inr e => inr e
  | inl profiles => inl (find IsDefault profiles)
  end.

End Profiles.

End Service.

(** ** The SDK helpers: endpoints, prefixes and paths *)

Module Sdk.
Import Strings Engine Service.

Section WithConfig.

(** [OSSConfig] is declared outside the files at hand; these are the
    fields the code reads. *)
Variable OSSConfig : Type.
Variable Region Endpoint : OSSConfig -> string.
Variable url_Parse_Host : string -> option string.

Definition sdkEndpointForConfig (config : OSSConfig) : string * option error :=
  let endpointHost := normalizeEndpoint url_Parse_Host (Endpoint config) in
  let endpointHost :=
    if String.eqb endpointHost ""
    then suggestServiceEndpoint (normalizeRegion (Region config))
    else endpointHost in
  if String.eqb endpointHost ""
  then (""%string, Some (errors_New "missing endpoint: please set Endpoint or Region"))
  else
    let endpoint := endpointHost in
    let endpoint :=
      if negb (HasPrefix endpoint "http://") && negb (HasPrefix endpoint "https://")
      then ("https://" ++ endpoint)%string else endpoint in
    (endpoint, None).

End WithConfig.

Definition normalizeObjectPrefix (prefix : string) : string :=
  let prefix := TrimSpace prefix in
  let prefix := TrimLeft prefix "/"%char in
  if String.eqb prefix "" then ""%string
  else if negb (HasSuffix prefix "/") then (prefix ++ "/")%string
  else prefix.

Definition buildOssPath (bucketName key : string) : string :=
  let bucketName := Trim bucketName "/"%char in
  let key := TrimLeft key "/"%char in
  if String.eqb bucketName "" then "oss://"%string
  else if String.eqb key "" then ("oss://" ++ bucketName ++ "/")%string
  else ("oss://" ++ bucketName ++ "/" ++ key)%string.

(** [normalizeObjectKey] of [oss_mutations.go]. *)
Definition normalizeObjectKey (key : string) : string :=
  let key := TrimSpace key in
  TrimLeft key "/"%char.

End Sdk.

(** ** TransferRunner: the limiter of the service and [runTransfer] *)

Module Runner.
Import Limiter Float64 Engine Service.

(** What [runTransfer] and the two accessors of the limiter read and
    write: the service, its limiter ([None] is [nil]), whether a context
    is set, the records handed to [runtime.EventsEmit], and the binaries
    started, in order. *)
Record state := mkState {
  service : OSSService;
  transferLimiter : option Limiter.transferLimiter;
  has_context : bool;
  events : list TransferUpdate;
  binaries : list string
}.

Definition with_limiter (l : Limiter.transferLimiter) (st : state) : state :=
  {| service := service st; transferLimiter := Some l; has_context := has_context st;
     events := events st; binaries := binaries st |}.

Definition getMaxTransferThreads (st : state) : Z :=
  match transferLimiter st with
  | None => 1
  | Some l => Limiter.max l
  end.

Definition setMaxTransferThreads (max : Z) (st : state) : state :=
  match transferLimiter st with
  | None => with_limiter (newTransferLimiter max) st
  | Some l => with_limiter (SetMax max l) st
  end.

Definition emitTransferUpdate (update : TransferUpdate) (st : state) : state :=
  if has_context st
  then {| service := service st; transferLimiter := transferLimiter st;
          has_context := has_context st; events := events st ++ [update];
          binaries := binaries st |}
  else st.

Definition emitTransferUpdates (updates : list TransferUpdate) (st : state) : state :=
  fold_left (fun st u => emitTransferUpdate u st) updates st.

Section WithConfig.

(** [OSSConfig] is declared outside the files at hand; these are the
    fields [runTransfer] reads. *)
Variable OSSConfig : Type.
Variable Region Endpoint AccessKeyID AccessKeySecret : OSSConfig -> string.
Variable url_Parse_Host : string -> option string.
Variable int64_overflow : float64 -> Z.

(** What the world answers during one run: the reading of the wall clock
    in [time.Now()] (in nanoseconds) after the slot is taken, of which
    only [UnixMilli()] is used, what starting a binary leads to, and the
    reading of the wall clock at the end. *)
Record answers := mkAnswers {
  start_now : Z;
  startCmd : string -> list string -> error + process;
  finish_now : Z
}.

Definition set_started (ms : Z) (u : TransferUpdate) : TransferUpdate :=
  {| ID := ID u; Type_ := Type_ u; Status := TransferStatusInProgress; Name := Name u;
     Bucket := Bucket u; Key := Key u; LocalPath := LocalPath u;
     TotalBytes := TotalBytes u; DoneBytes := DoneBytes u;
     SpeedBytesPerSec := SpeedBytesPerSec u; EtaSeconds := EtaSeconds u;
     Message := Message u; StartedAtMs := ms; UpdatedAtMs := ms;
     FinishedAtMs := FinishedAtMs u |}.

Definition set_finished (status : TransferStatus) (message : string) (done ms : Z)
    (u : TransferUpdate) : TransferUpdate :=
  {| ID := ID u; Type_ := Type_ u; Status := status; Name := Name u;
     Bucket := Bucket u; Key := Key u; LocalPath := LocalPath u;
     TotalBytes := TotalBytes u; DoneBytes := done;
     SpeedBytesPerSec := SpeedBytesPerSec u; EtaSeconds := EtaSeconds u;
     Message := message; StartedAtMs := StartedAtMs u; UpdatedAtMs := ms;
     FinishedAtMs := ms |}.

(** The arguments of the [switch update.Type]; [None] is the default
    case. *)
Definition transfer_args (config : OSSConfig) (update : TransferUpdate)
  : option (list string) :=
  let region := normalizeRegion (Region config) in
  let cloudURL := ("oss://" ++ Bucket update ++ "/" ++ Key update)%string in
  if String.eqb (Type_ update) TransferTypeDownload
  then Some [ "cp"; cloudURL; LocalPath update;
              "--access-key-id"; AccessKeyID config;
              "--access-key-secret"; AccessKeySecret config;
              "--region"; region; "-f" ]%string
  else if String.eqb (Type_ update) TransferTypeUpload
  then Some [ "cp"; LocalPath update; cloudURL;
              "--access-key-id"; AccessKeyID config;
              "--access-key-secret"; AccessKeySecret config;
              "--region"; region; "-f" ]%string
  else None.

(** [runTransfer] from the return of [limiter.Acquire()] to the last
    statement, the deferred [Release] apart; [None] is a panic. *)
Definition transfer (config : OSSConfig) (update : TransferUpdate) (a : answers)
    (st : state) : option state :=
  let update := set_started (UnixMilli (start_now a)) update in
  let st := emitTransferUpdate update st in
  let endpoint := normalizeEndpoint url_Parse_Host (Endpoint config) in
  match transfer_args config update with
  | None =>
      let update := set_finished TransferStatusError "unknown transfer type"
                      (DoneBytes update) (UnixMilli (finish_now a)) update in
      Some (emitTransferUpdate update st)
  | Some args =>
      let args := if negb (String.eqb endpoint "")
                  then args ++ ["--endpoint"%string; endpoint] else args in
      match runOssutilWithProgress int64_overflow (startCmd a) (service st) args
              (Some update) with
      | None => None
      | Some r =>
          let st := emitTransferUpdates (snapshots r)
                      {| service := service_after r;
                         transferLimiter := transferLimiter st;
                         has_context := has_context st; events := events st;
                         binaries := binaries st ++ started r |} in
          let update := match update_after r with Some u => u | None => update end in
          match returned r with
          | Some err =>
              Some (emitTransferUpdate
                      (set_finished TransferStatusError (text err) (DoneBytes update)
                         (UnixMilli (finish_now a)) update) st)
          | None =>
              Some (emitTransferUpdate
                      (set_finished TransferStatusSuccess (Message update)
                         (if 0 <? TotalBytes update then TotalBytes update
                          else DoneBytes update)
                         (UnixMilli (finish_now a)) update) st)
          end
      end
  end.

(** The limiter the job uses: the one of the service, which is created
    with capacity 1 when there is none. *)
Definition job_limiter (st : state) : Limiter.transferLimiter :=
  match transferLimiter st with
  | Some l => l
  | None => newTransferLimiter 1
  end.

(** How far a call of [runTransfer] gets: it parks in [Acquire], or it
    runs to its end. *)
Inductive run :=
| Parked (st : state)
| Returned (st : state).

(** [runTransfer] up to the first pass through the loop of [Acquire]
    and, when that takes a slot, to its end. The steps of other
    goroutines in between are not part of it. *)
Definition runTransfer (config : OSSConfig) (update : TransferUpdate) (a : answers)
    (st : state) : option run :=
  let l := job_limiter st in
  let st := with_limiter (Acquire l) st in
  if Limiter.max l <=? active l then Some (Parked st)
  else
    match transfer config update a st with
    | None => None
    | Some st => Some (Returned (with_limiter (Release (job_limiter st)) st))
    end.

End WithConfig.

End Runner.

(** ** [oss_mutations.go]: [CreateFolder], [CreateFile] and [MoveObject] *)

Module Mutations.
Import Strings Engine Service Sdk.

(** The calls the three functions make to the SDK, each with the bucket
    it is made on. *)
Inductive call :=
| New (endpoint : string)
| Bucket (name : string)
| CopyObject (bucket srcKey destKey : string)
| CopyObjectFrom (bucket srcBucket srcKey destKey : string)
| DeleteObject (bucket key : string)
| ListObjects (bucket prefix marker : string) (maxKeys : Z)
| IsObjectExist (bucket key : string)
| PutObject (bucket key : string).

(** What [ListObjects] returns, as far as [MoveObject] reads it: the
    keys of the objects, [IsTruncated] and [NextMarker]. *)
Record listing := mkListing {
  Objects : list string;
  IsTruncated : bool;
  NextMarker : string
}.

(** The SDK and the service behind it are given by what each call
    answers after the calls made before it: an error or [nil], and for
    the two calls that return a value, that value. *)
Record answers := mkAnswers {
  failure : list call -> call -> option error;
  listed : list call -> call -> listing;
  found : list call -> call -> bool
}.

Section WithConfig.

Variable OSSConfig : Type.
Variable Region Endpoint : OSSConfig -> string.
Variable url_Parse_Host : string -> option string.
Variable sdk : answers.

(** The calls made so far. *)
Definition trace := list call.

(** One call that returns an error or [nil]. *)
Definition ask (c : call) (tr : trace) : option error * trace :=
  (failure sdk tr c, tr ++ [c]).

(** [sdkClientFromConfig], up to the options of [oss.New]. *)
Definition sdkClientFromConfig (config : OSSConfig) (tr : trace) : option error * trace :=
  match sdkEndpointForConfig OSSConfig Region Endpoint url_Parse_Host config with
  | (_, Some err) => (Some err, tr)
  | (endpoint, None) => ask (New endpoint) tr
  end.

(** [fmt.Errorf("...: %w", err)] *)
Definition wrapped (prefix : string) (e : error) : error :=
  wrap_error (prefix ++ ": " ++ text e) e.

Definition CreateFolder (config : OSSConfig) (bucketName prefix folderName : string)
    (tr : trace) : option error * trace :=
  let bucketName := TrimSpace bucketName in
  if String.eqb bucketName "" then (Some (errors_New "bucket name is required"), tr)
  else
    let folderName := TrimSpace folderName in
    let folderName := Trim folderName "/"%char in
    if String.eqb folderName "" then (Some (errors_New "folder name is required"), tr)
    else
      let prefix := normalizeObjectPrefix prefix in
      let key := normalizeObjectKey (prefix ++ folderName ++ "/") in
      match sdkClientFromConfig config tr with
      | (Some err, tr) => (Some err, tr)
      | (None, tr) =>
          match ask (Bucket bucketName) tr with
          | (Some err, tr) => (Some (wrapped "failed to open bucket" err), tr)
          | (None, tr) =>
              match ask (PutObject bucketName key) tr with
              | (Some err, tr) => (Some (wrapped "failed to create folder" err), tr)
              | (None, tr) => (None, tr)
              end
          end
      end.

Definition CreateFile (config : OSSConfig) (bucketName prefix fileName : string)
    (tr : trace) : option error * trace :=
  let bucketName := TrimSpace bucketName in
  if String.eqb bucketName "" then (Some (errors_New "bucket name is required"), tr)
  else
    let fileName := TrimSpace fileName in
    let fileName := Trim fileName "/"%char in
    if String.eqb fileName "" then (Some (errors_New "file name is required"), tr)
    else
      let prefix := normalizeObjectPrefix prefix in
      let key := normalizeObjectKey (prefix ++ fileName) in
      if String.eqb key "" then (Some (errors_New "file key is empty"), tr)
      else if HasSuffix key "/"
      then (Some (errors_New "file name cannot end with '/'"), tr)
      else
        match sdkClientFromConfig config tr with
        | (Some err, tr) => (Some err, tr)
        | (None, tr) =>
            match ask (Bucket bucketName) tr with
            | (Some err, tr) => (Some (wrapped "failed to open bucket" err), tr)
            | (None, tr) =>
                let exists_ := found sdk tr (IsObjectExist bucketName key) in
                match ask (IsObjectExist bucketName key) tr with
                | (Some err, tr) => (Some (wrapped "failed to check file exists" err), tr)
                | (None, tr) =>
                    if exists_ then (Some (errors_New "file already exists"), tr)
                    else
                      match ask (PutObject bucketName key) tr with
                      | (Some err, tr) => (Some (wrapped "failed to create file" err), tr)
                      | (None, tr) => (None, tr)
                      end
                end
            end
        end.

(** The copy of one object, within a bucket or from another one. *)
Definition copy (srcBucketName key destBucketName targetKey : string) : call :=
  if String.eqb srcBucketName destBucketName
  then CopyObject destBucketName key targetKey
  else CopyObjectFrom destBucketName srcBucketName key targetKey.

(** [for _, object := range lor.Objects { ... }] *)
Fixpoint move_objects (srcBucketName srcKey destBucketName destKey : string)
    (objects : list string) (tr : trace) : option error * trace :=
  match objects with
  | [] => (None, tr)
  | object_Key :: rest =>
      let key := normalizeObjectKey object_Key in
      if negb (HasPrefix key srcKey)
      then move_objects srcBucketName srcKey destBucketName destKey rest tr
      else
        let rel := TrimPrefix key srcKey in
        let targetKey := (destKey ++ rel)%string in
        if String.eqb srcBucketName destBucketName && String.eqb key targetKey
        then move_objects srcBucketName srcKey destBucketName destKey rest tr
        else
          match ask (copy srcBucketName key destBucketName targetKey) tr with
          | (Some err, tr) => (Some (wrapped "copy failed" err), tr)
          | (None, tr) =>
              match ask (DeleteObject srcBucketName key) tr with
              | (Some err, tr) => (Some (wrapped "delete source failed" err), tr)
              | (None, tr) =>
                  move_objects srcBucketName srcKey destBucketName destKey rest tr
              end
          end
  end.

(** How a call of [MoveObject] stands: it has returned an error or
    [nil], or it is still in the loop over the pages. *)
Inductive status :=
| Returned (err : option error)
| Listing.

(** The loop over the pages of the listing. It ends when a page is not
    truncated; [fuel] bounds the pages read. *)
Fixpoint move_pages (fuel : nat) (srcBucketName srcKey destBucketName destKey : string)
    (marker : string) (tr : trace) : status * trace :=
  match fuel with
  | O => (Listing, tr)
  | S fuel' =>
      let c := ListObjects srcBucketName srcKey marker 1000 in
      let lor := listed sdk tr c in
      match ask c tr with
      | (Some err, tr) => (Returned (Some (wrapped "failed to list folder objects" err)), tr)
      | (None, tr) =>
          match move_objects srcBucketName srcKey destBucketName destKey (Objects lor) tr with
          | (Some err, tr) => (Returned (Some err), tr)
          | (None, tr) =>
              if negb (IsTruncated lor) then (Returned None, tr)
              else move_pages fuel' srcBucketName srcKey destBucketName destKey
                     (NextMarker lor) tr
          end
      end
  end.

Definition MoveObject (fuel : nat) (config : OSSConfig)
    (srcBucketName srcKey destBucketName destKey : string) (tr : trace)
  : status * trace :=
  let srcBucketName := TrimSpace srcBucketName in
  let destBucketName := TrimSpace destBucketName in
  if String.eqb srcBucketName "" || String.eqb destBucketName ""
  then (Returned (Some (errors_New "source and destination bucket are required")), tr)
  else
    let srcKey := normalizeObjectKey srcKey in
    let destKey := normalizeObjectKey destKey in
    if String.eqb srcKey "" || String.eqb destKey ""
    then (Returned (Some (errors_New "source and destination key are required")), tr)
    else if String.eqb srcBucketName destBucketName && String.eqb srcKey destKey
    then (Returned None, tr)
    else
      let isFolder := HasSuffix srcKey "/" in
      let destKey := if isFolder && negb (HasSuffix destKey "/")
                     then (destKey ++ "/")%string else destKey in
      if isFolder && String.eqb srcBucketName destBucketName && HasPrefix destKey srcKey
      then (Returned (Some (errors_New "destination is inside the source folder")), tr)
      else
        match sdkClientFromConfig config tr with
        | (Some err, tr) => (Returned (Some err), tr)
        | (None, tr) =>
            match ask (Bucket srcBucketName) tr with
            | (Some err, tr) =>
                (Returned (Some (wrapped "failed to open source bucket" err)), tr)
            | (None, tr) =>
                match ask (Bucket destBucketName) tr with
                | (Some err, tr) =>
                    (Returned (Some (wrapped "failed to open destination bucket" err)), tr)
                | (None, tr) =>
                    if negb isFolder then
                      match ask (copy srcBucketName srcKey destBucketName destKey) tr with
                      | (Some err, tr) => (Returned (Some (wrapped "copy failed" err)), tr)
                      | (None, tr) =>
                          match ask (DeleteObject srcBucketName srcKey) tr with
                          | (Some err, tr) =>
                              (Returned (Some (wrapped "delete source failed" err)), tr)
                          | (None, tr) => (Returned None, tr)
                          end
                      end
                    else
                      move_pages fuel srcBucketName srcKey destBucketName destKey "" tr
                end
            end
        end.

End WithConfig.

End Mutations.

(** * Properties *)

(** ** ConcurrencyLimiter *)

Section LimiterFacts.
Import Limiter.

Lemma wrap64_id z : in_int64 z -> wrap64 z = z.
Proof.
  unfold in_int64, min_int64, max_int64, wrap64. intros H.
  rewrite Z.mod_small; lia.
Qed.

(** What every reachable state satisfies, whatever [SetMax] does. *)
Definition limiter_inv (l : transferLimiter) : Prop :=
  0 <= active l /\ 1 <= max l /\ in_int64 (max l) /\ in_int64 (active l).

Lemma limiter_inv_new m : in_int64 m -> limiter_inv (newTransferLimiter m).
Proof.
  unfold limiter_inv, newTransferLimiter, in_int64, min_int64, max_int64.
  simpl. destruct (Z.ltb_spec m 1); lia.
Qed.

Lemma limiter_inv_step l c :
  call_ok c -> limiter_inv l -> limiter_inv (step l c).
Proof.
  unfold limiter_inv, in_int64, min_int64, max_int64.
  intros Hc (Ha & Hm & Hmr & Har).
  destruct c as [ | | | n]; simpl.
  - unfold Acquire. destruct (Z.leb_spec (max l) (active l)); simpl.
    + lia.
    + rewrite wrap64_id by (unfold in_int64, min_int64, max_int64; lia). lia.
  - unfold Wake. destruct (waiting l); [lia|].
    destruct (Z.leb_spec (max l) (active l)); simpl.
    + lia.
    + rewrite wrap64_id by (unfold in_int64, min_int64, max_int64; lia). lia.
  - unfold Release. destruct (Z.ltb_spec 0 (active l)); simpl.
    + rewrite wrap64_id by (unfold in_int64, min_int64, max_int64; lia). lia.
    + lia.
  - unfold SetMax; simpl. simpl in Hc.
    unfold in_int64, min_int64, max_int64 in Hc.
    destruct (Z.ltb_spec n 1); lia.
Qed.

Lemma limiter_inv_run cs : forall l,
  Forall call_ok cs -> limiter_inv l -> limiter_inv (run cs l).
Proof.
  unfold run. induction cs as [|c cs IH]; intros l Hcs Hl; simpl.
  - exact Hl.
  - inversion Hcs; subst. apply IH; [assumption|].
    apply limiter_inv_step; assumption.
Qed.

(** [active <= max] survives every step that is not a [SetMax] below the
    slots held. *)
Lemma bounded_step l c :
  call_ok c -> limiter_inv l ->
  match c with CSetMax n => active l <= max (SetMax n l) | _ => True end ->
  active l <= max l -> active (step l c) <= max (step l c).
Proof.
  unfold limiter_inv, in_int64, min_int64, max_int64.
  intros Hc (Ha & Hm & Hmr & Har) Hk Hb.
  destruct c as [ | | | n]; simpl.
  - unfold Acquire. destruct (Z.leb_spec (max l) (active l)); simpl.
    + lia.
    + rewrite wrap64_id by (unfold in_int64, min_int64, max_int64; lia). lia.
  - unfold Wake. destruct (waiting l); [lia|].
    destruct (Z.leb_spec (max l) (active l)); simpl.
    + lia.
    + rewrite wrap64_id by (unfold in_int64, min_int64, max_int64; lia). lia.
  - unfold Release. destruct (Z.ltb_spec 0 (active l)); simpl.
    + rewrite wrap64_id by (unfold in_int64, min_int64, max_int64; lia). lia.
    + lia.
  - exact Hk.
Qed.

Lemma bounded_run cs : forall l,
  Forall call_ok cs -> limiter_inv l -> keeps_holders cs l = true ->
  active l <= max l -> active (run cs l) <= max (run cs l).
Proof.
  unfold run. induction cs as [|c cs IH]; intros l Hcs Hl Hk Hb; simpl.
  - exact Hb.
  - inversion Hcs; subst. simpl in Hk.
    apply andb_prop in Hk. destruct Hk as [Hk1 Hk2].
    apply IH; try assumption.
    + apply limiter_inv_step; assumption.
    + apply bounded_step; try assumption.
      destruct c; try exact I. apply Z.leb_le. exact Hk1.
Qed.

(** C1, as stated, fails: three jobs hold the three slots of a limiter
    when [SetMax 1] lowers the capacity; [active] stays 3 and exceeds the
    new [max] of 1. *)
Lemma limiter_setmax_exceeds :
  let l := run [CAcquire; CAcquire; CAcquire; CSetMax 1] (newTransferLimiter 3) in
  active l = 3 /\ max l = 1 /\ ~ (0 <= active l <= max l).
Proof. vm_compute. repeat split; try reflexivity. intros [_ H]. apply H. reflexivity. Qed.

(** C1 (amended): from a fresh limiter, over every sequence of [Acquire],
    parked-[Acquire] wake-up, [Release] and [SetMax] calls in which no
    [SetMax] lowers the capacity below the number of slots then held,
    [0 <= active <= max] and [max >= 1] hold after every call; [max] is the
    clamped capacity of the last [SetMax]. *)
Theorem limiter_active_bounded (m : Z) (cs : list call) :
  in_int64 m -> Forall call_ok cs ->
  keeps_holders cs (newTransferLimiter m) = true ->
  let l := run cs (newTransferLimiter m) in
  0 <= active l <= max l /\ 1 <= max l.
Proof.
  intros Hm Hcs Hk l.
  assert (Hinv : limiter_inv l)
    by (apply limiter_inv_run; [assumption | apply limiter_inv_new; assumption]).
  assert (Hb : active l <= max l).
  { apply bounded_run; try assumption.
    - apply limiter_inv_new; assumption.
    - unfold newTransferLimiter; simpl. destruct (Z.ltb_spec m 1); lia. }
  destruct Hinv as (Ha & Hmx & _). lia.
Qed.

Lemma limiter_active_bounded_witness :
  let l := run [CAcquire; CAcquire; CSetMax 2; CAcquire; CWake; CRelease; CSetMax 5]
               (newTransferLimiter 3) in
  0 <= active l <= max l /\ 1 <= max l.
Proof.
  apply (limiter_active_bounded 3
           [CAcquire; CAcquire; CSetMax 2; CAcquire; CWake; CRelease; CSetMax 5]).
  - unfold in_int64, min_int64, max_int64; lia.
  - repeat constructor; unfold in_int64, min_int64, max_int64; lia.
  - reflexivity.
Defined.

(** C9: [Release] never makes [active] negative. From a fresh limiter,
    after every sequence of calls, also with [Release] calls that no
    [Acquire] precedes, [active >= 0]; a [Release] at [active = 0] leaves
    the limiter as it is. *)
Theorem limiter_release_nonneg (m : Z) (cs : list call) :
  in_int64 m -> Forall call_ok cs ->
  0 <= active (run cs (newTransferLimiter m)) /\
  (forall l, active l = 0 -> Release l = l).
Proof.
  intros Hm Hcs. split.
  - apply (limiter_inv_run cs (newTransferLimiter m) Hcs (limiter_inv_new m Hm)).
  - intros l Hl. unfold Release. rewrite Hl. reflexivity.
Qed.

Lemma limiter_release_nonneg_witness :
  0 <= active (run [CRelease; CRelease; CAcquire; CSetMax 0; CRelease; CRelease]
                   (newTransferLimiter 2)) /\
  (forall l, active l = 0 -> Release l = l).
Proof.
  apply (limiter_release_nonneg 2
           [CRelease; CRelease; CAcquire; CSetMax 0; CRelease; CRelease]).
  - unfold in_int64, min_int64, max_int64; lia.
  - repeat constructor; unfold in_int64, min_int64, max_int64; lia.
Defined.

End LimiterFacts.

(** ** DiagnosticRingBuffer *)

Section RingFacts.
Import Ring.

Lemma len_app {A} (l1 l2 : list A) : len (l1 ++ l2) = len l1 + len l2.
Proof. unfold len. rewrite length_app. lia. Qed.

Lemma len_nonneg {A} (l : list A) : 0 <= len l.
Proof. unfold len. lia. Qed.

Lemma len_skipn {A} (l : list A) (i : Z) :
  0 <= i <= len l -> len (skipn (Z.to_nat i) l) = len l - i.
Proof. unfold len. intros H. rewrite length_skipn. lia. Qed.

Lemma slice_from_in_range {A} (l : list A) (i : Z) :
  0 <= i <= len l -> slice_from l i = Some (skipn (Z.to_nat i) l).
Proof.
  intros [H0 H1]. unfold slice_from.
  apply Z.leb_le in H0. apply Z.leb_le in H1. rewrite H0, H1. reflexivity.
Qed.

(** One call: it never panics on a buffer within its capacity, keeps the
    capacity, and retains what the claim describes. *)
Lemma AppendLine_retains (line : string) (b : ringBuffer) :
  1 <= cap b -> len (data b) <= cap b ->
  exists b', AppendLine line b = Some b' /\ cap b' = cap b /\
    data b' =
      (let raw := appended line in
       if cap b <=? len raw
       then skipn (Z.to_nat (len raw - cap b)) raw
       else skipn (Z.to_nat (len (data b) + len raw - cap b)) (data b) ++ raw).
Proof.
  intros Hcap Hlen. unfold AppendLine, appended.
  destruct (String.eqb line "") eqn:Hempty.
  - exists b. repeat split. cbv zeta.
    change (len (@nil byte)) with 0.
    destruct (Z.leb_spec (cap b) 0); [lia|].
    replace (Z.to_nat (len (data b) + 0 - cap b)) with O by lia.
    simpl. rewrite app_nil_r. reflexivity.
  - set (raw := if HasSuffix line (String LF "") then bytes_of line
                else bytes_of (line ++ String LF "")).
    assert (Hraw : bytes_of (if HasSuffix line (String LF "") then line
                             else (line ++ String LF "")%string) = raw)
      by (unfold raw; destruct (HasSuffix line (String LF "")); reflexivity).
    rewrite Hraw. cbv zeta.
    pose proof (len_nonneg raw) as Hr. pose proof (len_nonneg (data b)) as Hd.
    destruct (Z.leb_spec (cap b) (len raw)) as [Hge|Hlt].
    + rewrite slice_from_in_range by lia.
      eexists; repeat split.
    + destruct (Z.ltb_spec (cap b) (len (data b) + len raw)) as [Hover|Hfit].
      * rewrite slice_from_in_range by lia. eexists; repeat split.
      * eexists; repeat split. simpl.
        replace (Z.to_nat (len (data b) + len raw - cap b)) with O by lia.
        reflexivity.
Qed.

Lemma AppendLine_within (line : string) (b b' : ringBuffer) :
  1 <= cap b -> len (data b) <= cap b -> AppendLine line b = Some b' ->
  len (data b') <= cap b'.
Proof.
  intros Hcap Hlen Hb.
  destruct (AppendLine_retains line b Hcap Hlen) as (b2 & Heq & Hc & Hd).
  rewrite Hb in Heq. injection Heq as <-. rewrite Hc, Hd. cbv zeta.
  pose proof (len_nonneg (appended line)) as Hr.
  pose proof (len_nonneg (data b)) as Hdb.
  destruct (Z.leb_spec (cap b) (len (appended line))).
  - rewrite len_skipn by lia. lia.
  - rewrite len_app.
    destruct (Z.le_gt_cases (len (data b) + len (appended line) - cap b) 0).
    + replace (Z.to_nat (len (data b) + len (appended line) - cap b)) with O by lia.
      simpl. lia.
    + rewrite len_skipn by lia. lia.
Qed.

Lemma AppendLine_suffix (line : string) (b b' : ringBuffer) (sofar : list byte) :
  1 <= cap b -> len (data b) <= cap b -> AppendLine line b = Some b' ->
  (exists evicted, sofar = evicted ++ data b) ->
  exists evicted, sofar ++ appended line = evicted ++ data b'.
Proof.
  intros Hcap Hlen Hb [ev Hev].
  destruct (AppendLine_retains line b Hcap Hlen) as (b2 & Heq & Hc & Hd).
  rewrite Hb in Heq. injection Heq as <-. rewrite Hd. cbv zeta.
  destruct (cap b <=? len (appended line)).
  - exists (sofar ++ firstn (Z.to_nat (len (appended line) - cap b)) (appended line)).
    rewrite <- app_assoc, firstn_skipn. reflexivity.
  - exists (ev ++ firstn (Z.to_nat (len (data b) + len (appended line) - cap b)) (data b)).
    rewrite Hev, <- !app_assoc. f_equal.
    rewrite app_assoc, firstn_skipn. reflexivity.
Qed.

Lemma AppendLines_inv (lines : list string) : forall (b : ringBuffer) (sofar : list byte),
  1 <= cap b -> len (data b) <= cap b ->
  (exists evicted, sofar = evicted ++ data b) ->
  exists b', AppendLines lines b = Some b' /\ cap b' = cap b /\
    len (data b') <= cap b' /\
    exists evicted, sofar ++ stream lines = evicted ++ data b'.
Proof.
  induction lines as [|line rest IH]; intros b sofar Hcap Hlen Hsuf; simpl.
  - exists b. unfold stream; simpl. rewrite app_nil_r. auto.
  - destruct (AppendLine_retains line b Hcap Hlen) as (b1 & Hb1 & Hc1 & _).
    rewrite Hb1.
    destruct (IH b1 (sofar ++ appended line)) as (b' & Hb' & Hc' & Hl' & Hs').
    + lia.
    + eapply AppendLine_within; eassumption.
    + eapply AppendLine_suffix; eassumption.
    + exists b'. repeat split; try assumption; try lia.
      unfold stream in *. simpl. rewrite app_assoc. exact Hs'.
Qed.

(** C6: for every capacity and every sequence of [AppendLine] calls on a
    fresh buffer, no call panics, the capacity of the buffer is the one
    asked for (raised to 1 when it is lower), the retained bytes never
    exceed it and are a suffix of everything appended so far (each
    non-empty line with its newline; the empty line appends nothing).
    One more call on the buffer reached keeps the capacity and retains,
    when the terminated line alone meets or exceeds the capacity, the
    last [cap] bytes of that line, and otherwise the old content less the
    fewest front bytes that make the line fit, followed by the line. *)
Theorem ring_buffer_retains_suffix (capacity : Z) (lines : list string) :
  exists b, AppendLines lines (newRingBuffer capacity) = Some b /\
    cap b = Z.max 1 capacity /\
    1 <= cap b /\
    len (data b) <= cap b /\
    len (data b) <= Z.max 1 capacity /\
    (exists evicted, stream lines = evicted ++ data b) /\
    forall line, exists b', AppendLine line b = Some b' /\
      cap b' = Z.max 1 capacity /\
      data b' =
        (let raw := appended line in
         if Z.max 1 capacity <=? len raw
         then skipn (Z.to_nat (len raw - Z.max 1 capacity)) raw
         else skipn (Z.to_nat (len (data b) + len raw - Z.max 1 capacity)) (data b) ++ raw).
Proof.
  assert (Hnew : cap (newRingBuffer capacity) = Z.max 1 capacity)
    by (unfold newRingBuffer; simpl; destruct (Z.ltb_spec capacity 1); lia).
  assert (Hc : 1 <= cap (newRingBuffer capacity)) by lia.
  destruct (AppendLines_inv lines (newRingBuffer capacity) [])
    as (b & Hb & Hcb & Hlb & Hsb).
  - exact Hc.
  - unfold newRingBuffer, len; simpl. destruct (Z.ltb_spec capacity 1); lia.
  - exists []. reflexivity.
  - assert (Hcap : cap b = Z.max 1 capacity) by lia.
    exists b. repeat split; try assumption; try lia.
    intros line.
    destruct (AppendLine_retains line b) as (b' & Hb' & Hc' & Hd'); try lia.
    exists b'. split; [exact Hb'|]. split; [lia|].
    rewrite <- Hcap. exact Hd'.
Qed.

End RingFacts.

(** ** More on the DiagnosticRingBuffer *)

Section RingLastBytes.
Import Ring.

(** The last [n] bytes of [l], all of [l] when it has no more. *)
Definition last_bytes (n : Z) (l : list byte) : list byte :=
  skipn (Z.to_nat (len l - n)) l.

Lemma last_bytes_step (line : string) (b b' : ringBuffer) (sofar : list byte) :
  1 <= cap b -> data b = last_bytes (cap b) sofar ->
  AppendLine line b = Some b' ->
  cap b' = cap b /\ data b' = last_bytes (cap b) (sofar ++ appended line).
Proof.
  intros Hcap Hdata Hb.
  assert (Hlen : len (data b) <= cap b).
  { rewrite Hdata. unfold last_bytes, len. rewrite length_skipn. unfold len. lia. }
  destruct (AppendLine_retains line b Hcap Hlen) as (b2 & Heq & Hc & Hd).
  rewrite Hb in Heq. injection Heq as <-. split; [exact Hc|].
  rewrite Hd. cbv zeta. set (raw := appended line).
  unfold last_bytes. rewrite len_app. rewrite skipn_app.
  pose proof (len_nonneg raw) as Hr. pose proof (len_nonneg sofar) as Hs.
  destruct (Z.leb_spec (cap b) (len raw)) as [Hge|Hlt].
  - rewrite (@skipn_all2 _ _ sofar) by (unfold len in *; lia). simpl.
    f_equal. unfold len in *. lia.
  - replace (Z.to_nat (len sofar + len raw - cap b) - List.length sofar)%nat with O
      by (unfold len in *; lia).
    simpl. f_equal. rewrite Hdata. unfold last_bytes.
    rewrite skipn_skipn. f_equal.
    unfold len. rewrite length_skipn. unfold len in *. lia.
Qed.

Lemma last_bytes_lines (lines : list string) : forall (b : ringBuffer) (sofar : list byte),
  1 <= cap b -> data b = last_bytes (cap b) sofar ->
  exists b', AppendLines lines b = Some b' /\ cap b' = cap b /\
    data b' = last_bytes (cap b) (sofar ++ stream lines).
Proof.
  induction lines as [|line rest IH]; intros b sofar Hcap Hdata; simpl.
  - exists b. unfold stream. simpl. rewrite app_nil_r. auto.
  - assert (Hlen : len (data b) <= cap b).
    { rewrite Hdata. unfold last_bytes, len. rewrite length_skipn. unfold len. lia. }
    destruct (AppendLine_retains line b Hcap Hlen) as (b1 & Hb1 & _ & _).
    rewrite Hb1.
    destruct (last_bytes_step line b b1 sofar Hcap Hdata Hb1) as [Hc1 Hd1].
    destruct (IH b1 (sofar ++ appended line)) as (b' & Hb' & Hc' & Hd').
    + lia.
    + rewrite Hc1. exact Hd1.
    + exists b'. split; [exact Hb'|]. split; [lia|].
      rewrite Hd', Hc1. unfold stream. simpl. rewrite app_assoc. reflexivity.
Qed.

(** X10: after any sequence of [AppendLine] calls on a fresh buffer, the
    buffer holds exactly the last [cap] bytes of all that was appended
    (each non-empty line with its newline), where [cap] is the capacity
    asked for, raised to 1 when it is lower; all of it as long as it
    fits. [String()] is that text, trimmed. *)
Theorem ring_buffer_holds_last_bytes (capacity : Z) (lines : list string) :
  exists b, AppendLines lines (newRingBuffer capacity) = Some b /\
    cap b = Z.max 1 capacity /\
    data b = last_bytes (cap b) (stream lines) /\
    (len (stream lines) <= cap b -> data b = stream lines) /\
    String_ b = TrimSpace (string_of (last_bytes (cap b) (stream lines))).
Proof.
  assert (Hc : cap (newRingBuffer capacity) = Z.max 1 capacity)
    by (unfold newRingBuffer; simpl; destruct (Z.ltb_spec capacity 1); lia).
  destruct (last_bytes_lines lines (newRingBuffer capacity) [])
    as (b & Hb & Hcb & Hd).
  - lia.
  - unfold last_bytes. rewrite skipn_nil. reflexivity.
  - cbn [app] in Hd. rewrite <- Hcb in Hd.
    exists b. split; [exact Hb|]. split; [lia|]. split; [exact Hd|]. split.
    + intros Hfit. rewrite Hd. unfold last_bytes.
      replace (Z.to_nat (len (stream lines) - cap b)) with O by lia. reflexivity.
    + unfold String_. rewrite Hd. reflexivity.
Qed.

End RingLastBytes.

(** ** OutputLineSplitter *)

Section SplitterFacts.
Import Splitter.

Lemma drain_eq (pending : list byte) (emitted : list string) :
  drain pending emitted =
  if IndexAny pending crlf =? -1 then (pending, emitted)
  else drain (skipn (Z.to_nat (IndexAny pending crlf + 1)) pending)
         (emit_nonempty
            (TrimSpace (string_of (firstn (Z.to_nat (IndexAny pending crlf)) pending)))
            emitted).
Proof.
  rewrite drain_equation_1. unfold drain_unfold_clause_1.
  destruct (inspect (IndexAny pending crlf =? -1)) as [b Hb].
  destruct b; rewrite Hb; reflexivity.
Qed.

Definition terminator_free (l : list byte) : Prop :=
  forallb (fun c => negb (is_terminator c)) l = true.

Lemma is_any_crlf (c : byte) : is_any crlf c = is_terminator c.
Proof. unfold is_any, crlf, is_terminator. simpl. rewrite orb_false_r. reflexivity. Qed.

(** A byte sequence has no terminator, or a first one. *)
Lemma first_terminator (l : list byte) :
  terminator_free l \/
  exists p c t, l = p ++ c :: t /\ terminator_free p /\ is_terminator c = true.
Proof.
  induction l as [|x l IH].
  - left. reflexivity.
  - destruct (is_terminator x) eqn:Hx.
    + right. exists [], x, l. repeat split. exact Hx.
    + destruct IH as [Hfree | (p & c & t & -> & Hp & Hc)].
      * left. unfold terminator_free. simpl. rewrite Hx. exact Hfree.
      * right. exists (x :: p), c, t. repeat split; [|exact Hc].
        unfold terminator_free. simpl. rewrite Hx. exact Hp.
Qed.

Lemma index_any_free (p : list byte) : forall i,
  terminator_free p -> index_any p crlf i = -1.
Proof.
  induction p as [|x p IH]; intros i Hp; cbn [index_any]; [reflexivity|].
  unfold terminator_free in Hp. simpl in Hp. apply andb_prop in Hp.
  destruct Hp as [Hx Hp]. rewrite is_any_crlf.
  apply negb_true_iff in Hx. rewrite Hx. apply IH. exact Hp.
Qed.

Lemma index_any_first (p : list byte) (c : byte) (t : list byte) : forall i,
  terminator_free p -> is_terminator c = true ->
  index_any (p ++ c :: t) crlf i = i + len p.
Proof.
  induction p as [|x p IH]; intros i Hp Hc; cbn [index_any app].
  - rewrite is_any_crlf, Hc. unfold len; simpl. lia.
  - unfold terminator_free in Hp. simpl in Hp. apply andb_prop in Hp.
    destruct Hp as [Hx Hp]. rewrite is_any_crlf.
    apply negb_true_iff in Hx. rewrite Hx.
    rewrite IH by assumption. rewrite len_cons. lia.
Qed.

Lemma split_free (p : list byte) :
  terminator_free p -> split_at_terminators p = [p].
Proof.
  induction p as [|x p IH]; intros Hp; simpl; [reflexivity|].
  unfold terminator_free in Hp. simpl in Hp. apply andb_prop in Hp.
  destruct Hp as [Hx Hp]. apply negb_true_iff in Hx. rewrite Hx.
  rewrite IH by exact Hp. reflexivity.
Qed.

Lemma split_first (p : list byte) (c : byte) (t : list byte) :
  terminator_free p -> is_terminator c = true ->
  split_at_terminators (p ++ c :: t) = p :: split_at_terminators t.
Proof.
  induction p as [|x p IH]; intros Hp Hc; simpl.
  - rewrite Hc. reflexivity.
  - unfold terminator_free in Hp. simpl in Hp. apply andb_prop in Hp.
    destruct Hp as [Hx Hp]. apply negb_true_iff in Hx. rewrite Hx.
    rewrite IH by assumption. reflexivity.
Qed.

Lemma trimmed_lines_cons (p : list byte) (pieces : list (list byte)) (emitted : list string) :
  emitted ++ trimmed_lines (p :: pieces) =
  emit_nonempty (TrimSpace (string_of p)) emitted ++ trimmed_lines pieces.
Proof.
  unfold trimmed_lines, emit_nonempty, nonempty. simpl.
  destruct (String.eqb (TrimSpace (string_of p)) ""); simpl.
  - reflexivity.
  - rewrite <- app_assoc. reflexivity.
Qed.

Lemma firstn_length_app {A} (p l : list A) : firstn (List.length p) (p ++ l) = p.
Proof. induction p as [|x p IH]; simpl; [destruct l; reflexivity | rewrite IH; reflexivity]. Qed.

Lemma skipn_past_first {A} (p : list A) (c : A) (t : list A) :
  skipn (S (List.length p)) (p ++ c :: t) = t.
Proof. induction p as [|x p IH]; simpl; [reflexivity | exact IH]. Qed.

(** The inner loop leaves a terminator-free remainder, and what it emits
    is what the pieces before that remainder give. *)
Lemma drain_spec (n : nat) : forall (l : list byte) (emitted : list string),
  (List.length l < n)%nat ->
  exists r emitted', drain l emitted = (r, emitted') /\ terminator_free r /\
    forall rest, emitted ++ trimmed_lines (split_at_terminators (l ++ rest)) =
                 emitted' ++ trimmed_lines (split_at_terminators (r ++ rest)).
Proof.
  induction n as [|n IH]; intros l emitted Hn; [lia|].
  rewrite drain_eq. unfold IndexAny.
  destruct (first_terminator l) as [Hfree | (p & c & t & -> & Hp & Hc)].
  - rewrite index_any_free by exact Hfree. simpl.
    exists l, emitted. auto.
  - rewrite index_any_first by assumption.
    pose proof (len_nonneg p) as Hlp.
    destruct (Z.eqb_spec (0 + len p) (-1)) as [Habs|_]; [lia|].
    replace (Z.to_nat (0 + len p + 1)) with (S (List.length p)) by (unfold len; lia).
    replace (Z.to_nat (0 + len p)) with (List.length p) by (unfold len; lia).
    rewrite firstn_length_app, skipn_past_first.
    destruct (IH t (emit_nonempty (TrimSpace (string_of p)) emitted))
      as (r & emitted' & Hd & Hr & Heq).
    { rewrite length_app in Hn. simpl in Hn. lia. }
    exists r, emitted'. repeat split; try assumption.
    intros rest. rewrite <- app_assoc. simpl.
    rewrite split_first by assumption.
    rewrite trimmed_lines_cons. apply Heq.
Qed.

Lemma consume_spec (chunk pending : list byte) (emitted : list string) :
  terminator_free pending ->
  exists r emitted', consume chunk pending emitted = (r, emitted') /\ terminator_free r /\
    forall rest,
      emitted ++ trimmed_lines (split_at_terminators (pending ++ chunk ++ rest)) =
      emitted' ++ trimmed_lines (split_at_terminators (r ++ rest)).
Proof.
  intros Hp. unfold consume.
  destruct (Z.ltb_spec 0 (len chunk)) as [Hpos|Hzero].
  - destruct (drain_spec (S (List.length (pending ++ chunk))) (pending ++ chunk) emitted)
      as (r & emitted' & Hd & Hr & Heq); [lia|].
    exists r, emitted'. repeat split; try assumption.
    intros rest. rewrite app_assoc. apply Heq.
  - assert (chunk = []) as ->.
    { destruct chunk; [reflexivity|].
      rewrite len_cons in Hzero. pose proof (len_nonneg chunk). lia. }
    exists pending, emitted. auto.
Qed.

Lemma splitOnCRLF_loop_spec (reads : list (list byte)) (last : list byte) :
  forall (pending : list byte) (emitted : list string),
  terminator_free pending ->
  splitOnCRLF_loop reads last EOF pending emitted =
  (emitted ++ trimmed_lines (split_at_terminators (pending ++ List.concat reads ++ last)),
   None).
Proof.
  induction reads as [|chunk reads IH]; intros pending emitted Hp; simpl.
  - destruct (consume_spec last pending emitted Hp) as (r & emitted' & Hc & Hr & Heq).
    rewrite Hc. specialize (Heq []). rewrite !app_nil_r in Heq. rewrite Heq.
    rewrite (split_free r Hr).
    destruct (Z.ltb_spec 0 (len r)) as [Hpos|Hzero].
    + rewrite trimmed_lines_cons. unfold trimmed_lines. simpl.
      rewrite app_nil_r. reflexivity.
    + assert (r = []) as ->.
      { destruct r; [reflexivity|].
        rewrite len_cons in Hzero. pose proof (len_nonneg r). lia. }
      unfold trimmed_lines. simpl. rewrite app_nil_r. reflexivity.
  - destruct (consume_spec chunk pending emitted Hp) as (r & emitted' & Hc & Hr & Heq).
    rewrite Hc. rewrite IH by exact Hr.
    rewrite <- app_assoc. rewrite Heq. reflexivity.
Qed.

(** Two ways of cutting one stream into reads emit the same lines. *)
Lemma splitOnCRLF_partitions (reads1 reads2 : list (list byte)) (last1 last2 : list byte) :
  List.concat reads1 ++ last1 = List.concat reads2 ++ last2 ->
  splitOnCRLF reads1 last1 EOF = splitOnCRLF reads2 last2 EOF.
Proof.
  intros Hsame. unfold splitOnCRLF.
  rewrite !splitOnCRLF_loop_spec by reflexivity. simpl. rewrite Hsame. reflexivity.
Qed.

(** A read error other than [io.EOF] is returned, and the pending partial
    line is not flushed. *)
Lemma splitOnCRLF_read_error (reads : list (list byte)) (last : list byte) (msg : string) :
  forall pending emitted,
  snd (splitOnCRLF_loop reads last (ErrOther msg) pending emitted) = Some (ErrOther msg).
Proof.
  induction reads as [|chunk reads IH]; intros pending emitted; simpl.
  - destruct (consume last pending emitted). reflexivity.
  - destruct (consume chunk pending emitted). apply IH.
Qed.

(** C5: for every byte stream and every way of cutting it into reads that
    end with [io.EOF], [splitOnCRLF] returns no error and emits, in order
    and each once, the non-empty trimmed pieces of the whole stream cut at
    every [\r] and [\n], the trailing partial line included: the result
    depends on the concatenation of the reads only. A line that arrives in
    three reads is emitted once. *)
Theorem splitOnCRLF_chunking (reads : list (list byte)) (last : list byte) :
  splitOnCRLF reads last EOF = (spec_lines (List.concat reads ++ last), None) /\
  splitOnCRLF [bytes_of "  hel"; bytes_of "lo wo"; bytes_of "rld " ++ [CR; LF] ++ bytes_of "tail"]
              [] EOF
  = (["hello world"; "tail"]%string, None).
Proof.
  split.
  - unfold splitOnCRLF, spec_lines.
    rewrite splitOnCRLF_loop_spec by reflexivity. reflexivity.
  - vm_compute. reflexivity.
Qed.

End SplitterFacts.

(** ** [strings.TrimSpace] *)

Section TrimFacts.

Definition nonempty_encodings (encs : list (list byte)) : Prop :=
  Forall (fun e => e <> []) encs.

Lemma has_prefix_app (l x e : list byte) :
  has_prefix l e = true -> has_prefix (l ++ x) e = true.
Proof.
  revert l. induction e as [|c e IH]; intros l H.
  - destruct (l ++ x); reflexivity.
  - destruct l as [|y l]; simpl in *; [discriminate|].
    apply andb_prop in H. destruct H as [Hc He]. rewrite Hc. simpl. apply IH. exact He.
Qed.

Lemma space_width_prefix (encs : list (list byte)) (l x : list byte) :
  nonempty_encodings encs ->
  space_width encs (l ++ x) = O -> space_width encs l = O.
Proof.
  intros Hne. induction Hne as [|e encs He Hne IH]; simpl; [reflexivity|].
  destruct (has_prefix (l ++ x) e) eqn:Hlx.
  - intros Habs. destruct e; [congruence | discriminate].
  - destruct (has_prefix l e) eqn:Hl.
    + rewrite (has_prefix_app l x e Hl) in Hlx. discriminate.
    + exact IH.
Qed.

Lemma space_width_nil (encs : list (list byte)) :
  nonempty_encodings encs -> space_width encs [] = O.
Proof.
  intros Hne. induction Hne as [|e encs He Hne IH]; simpl; [reflexivity|].
  destruct e; [congruence | exact IH].
Qed.

Lemma trim_left_fixed (encs : list (list byte)) (fuel : nat) (l : list byte) :
  space_width encs l = O -> trim_left encs fuel l = l.
Proof. intros H. destruct fuel; simpl; [reflexivity | rewrite H; reflexivity]. Qed.

Lemma trim_left_stops (encs : list (list byte)) (fuel : nat) : forall l,
  nonempty_encodings encs -> (List.length l <= fuel)%nat ->
  space_width encs (trim_left encs fuel l) = O.
Proof.
  induction fuel as [|fuel IH]; intros l Hne Hlen; cbn [trim_left].
  - destruct l; [apply space_width_nil; exact Hne | simpl in Hlen; lia].
  - destruct (space_width encs l) as [|w] eqn:Hw; [exact Hw|].
    apply IH; [exact Hne|].
    destruct l as [|c l].
    + rewrite (space_width_nil encs Hne) in Hw. discriminate.
    + cbn [skipn]. simpl in Hlen. pose proof (length_skipn w l). lia.
Qed.

Lemma trim_left_is_suffix (encs : list (list byte)) (fuel : nat) : forall l,
  exists p, l = p ++ trim_left encs fuel l.
Proof.
  induction fuel as [|fuel IH]; intros l; cbn [trim_left].
  - exists []. reflexivity.
  - destruct (space_width encs l) as [|w]; [exists []; reflexivity|].
    destruct (IH (skipn (S w) l)) as [p Hp].
    exists (firstn (S w) l ++ p). rewrite <- app_assoc, <- Hp.
    symmetry. apply firstn_skipn.
Qed.

Lemma space_encodings_nonempty : nonempty_encodings space_encodings.
Proof. unfold nonempty_encodings, space_encodings. repeat constructor; discriminate. Qed.

Lemma rev_space_encodings_nonempty :
  nonempty_encodings (map (@rev byte) space_encodings).
Proof. unfold nonempty_encodings, space_encodings. simpl. repeat constructor; discriminate. Qed.

(** Trimming a trimmed string changes nothing. *)
Lemma TrimSpace_idempotent (s : string) : TrimSpace (TrimSpace s) = TrimSpace s.
Proof.
  unfold TrimSpace, bytes_of, string_of.
  rewrite list_ascii_of_string_of_list_ascii.
  set (l := list_ascii_of_string s).
  set (r := TrimLeftSpace l).
  assert (Hr : space_width space_encodings r = O)
    by (apply trim_left_stops; [apply space_encodings_nonempty | lia]).
  set (t := TrimRightSpace r).
  assert (Ht : space_width (map (@rev byte) space_encodings) (rev t) = O).
  { unfold t, TrimRightSpace. rewrite rev_involutive.
    apply trim_left_stops; [apply rev_space_encodings_nonempty | rewrite length_rev; lia]. }
  assert (Hpre : exists x, r = t ++ x).
  { unfold t, TrimRightSpace.
    destruct (trim_left_is_suffix (map (@rev byte) space_encodings)
                (List.length r) (rev r)) as [p Hp].
    exists (rev p). rewrite <- rev_app_distr, <- Hp, rev_involutive. reflexivity. }
  destruct Hpre as [x Hx].
  assert (Hleft : TrimLeftSpace t = t).
  { unfold TrimLeftSpace. apply trim_left_fixed.
    apply (space_width_prefix space_encodings t x space_encodings_nonempty).
    rewrite <- Hx. exact Hr. }
  rewrite Hleft. f_equal. unfold TrimRightSpace at 1.
  rewrite trim_left_fixed by exact Ht. apply rev_involutive.
Qed.

End TrimFacts.

(** ** ProgressLineParser *)

Section ParserFacts.
Import Regexp Float64 Strconv Parser.

(** The line the three patterns are tried on. *)
Definition cleaned (seg : string) : string :=
  TrimPrefix (TrimSpace (stripANSI seg)) (String CR "").

Definition matches_none (seg : string) : Prop :=
  FindStringSubmatch reOKSize 1 (cleaned seg) = None /\
  FindStringSubmatch reProgress 1 (cleaned seg) = None /\
  FindStringSubmatch reSpeedUnit 2 (cleaned seg) = None.

Lemma parse_no_match (seg : string) :
  matches_none seg ->
  parseProgressSegment seg =
  {| doneBytes := 0; speedBps := zero; percent := zero;
     hasDone := false; hasSpeed := false; hasPercent := false |}.
Proof.
  intros (H1 & H2 & H3). unfold parseProgressSegment.
  fold (cleaned seg). rewrite H1, H2, H3. reflexivity.
Qed.

(** C4: [parseProgressSegment] reads 1048576 done bytes from
    ["OK size: 1,048,576"], 45.5 percent from ["Progress: 45.5%"] and
    2.5 * 1024 * 1024 = 2621440 bytes per second from ["Speed: 2.50MB/s"],
    each with its flag set and the other two flags clear; [speedToBps]
    multiplies the value by 1024 once for [K], twice for [M], three, four
    and five times for [G], [T] and [P], which on the value 1 gives 2^10,
    2^20, 2^30, 2^40 and 2^50, and leaves it as it is without a prefix; a
    line on which none of the three patterns matches sets no flag. *)
Theorem parse_progress_examples (seg : string) (v : float64) :
  parseProgressSegment "OK size: 1,048,576" =
    {| doneBytes := 1048576; speedBps := zero; percent := zero;
       hasDone := true; hasSpeed := false; hasPercent := false |} /\
  parseProgressSegment "Progress: 45.5%" =
    {| doneBytes := 0; speedBps := zero; percent := of_decimal 455 1;
       hasDone := false; hasSpeed := false; hasPercent := true |} /\
  parseProgressSegment "Speed: 2.50MB/s" =
    {| doneBytes := 0;
       speedBps := mul (mul (of_decimal 25 1) (of_Z 1024)) (of_Z 1024);
       percent := zero;
       hasDone := false; hasSpeed := true; hasPercent := false |} /\
  mul (mul (of_decimal 25 1) (of_Z 1024)) (of_Z 1024) = of_Z 2621440 /\
  ( speedToBps v "" = v /\
    speedToBps v "K" = mul v (of_Z 1024) /\
    speedToBps v "M" = mul (mul v (of_Z 1024)) (of_Z 1024) /\
    speedToBps v "G" = mul (mul (mul v (of_Z 1024)) (of_Z 1024)) (of_Z 1024) /\
    speedToBps v "T" =
      mul (mul (mul (mul v (of_Z 1024)) (of_Z 1024)) (of_Z 1024)) (of_Z 1024) /\
    speedToBps v "P" =
      mul (mul (mul (mul (mul v (of_Z 1024)) (of_Z 1024)) (of_Z 1024)) (of_Z 1024))
          (of_Z 1024) ) /\
  ( speedToBps (of_Z 1) "K" = of_Z (2 ^ 10) /\
    speedToBps (of_Z 1) "M" = of_Z (2 ^ 20) /\
    speedToBps (of_Z 1) "G" = of_Z (2 ^ 30) /\
    speedToBps (of_Z 1) "T" = of_Z (2 ^ 40) /\
    speedToBps (of_Z 1) "P" = of_Z (2 ^ 50) ) /\
  ( matches_none seg ->
    hasDone (parseProgressSegment seg) = false /\
    hasSpeed (parseProgressSegment seg) = false /\
    hasPercent (parseProgressSegment seg) = false ).
Proof.
  split; [vm_compute; reflexivity|].
  split; [vm_compute; reflexivity|].
  split; [vm_compute; reflexivity|].
  split; [vm_compute; reflexivity|].
  split; [repeat split|].
  split; [repeat split; vm_compute; reflexivity|].
  intros Hnone. rewrite (parse_no_match seg Hnone). repeat split.
Qed.

Lemma parse_progress_examples_witness :
  hasDone (parseProgressSegment "upload started") = false /\
  hasSpeed (parseProgressSegment "upload started") = false /\
  hasPercent (parseProgressSegment "upload started") = false.
Proof.
  apply (parse_progress_examples "upload started" zero).
  vm_compute. repeat split.
Defined.

End ParserFacts.

(** ** The matcher on its preferred path *)

Section MatcherFacts.
Import Regexp.

(** A position of the matcher. *)
Record position := at_ {
  before : option byte;
  ahead : list byte;
  offset : nat;
  groups : captures
}.

(** [r] takes the matcher from [a] to [b] on its preferred path: when the
    rest of the pattern succeeds from [b], that is the match found. *)
Definition steps (r : re) (a b : position) : Prop :=
  forall (k : cont) res,
    k (before b) (ahead b) (offset b) (groups b) = Some res ->
    exec r (before a) (ahead a) (offset a) (groups a) k = Some res.

Lemma preferred {A} (o : option A) (res : A) (other : option A) :
  o = Some res -> match o with Some r => Some r | None => other end = Some res.
Proof. intros ->. reflexivity. Qed.

Lemma steps_cat (r1 r2 : re) (a b c : position) :
  steps r1 a b -> steps r2 b c -> steps (Cat r1 r2) a c.
Proof. intros H1 H2 k res Hk. cbn [exec]. apply H1. apply H2. exact Hk. Qed.

Lemma steps_alt_left (r1 r2 : re) (a b : position) :
  steps r1 a b -> steps (Alt r1 r2) a b.
Proof. intros H k res Hk. cbn [exec]. rewrite (H k res Hk). reflexivity. Qed.

Lemma steps_opt_skip (r : re) (a : position) :
  (forall k, exec r (before a) (ahead a) (offset a) (groups a) k = None) ->
  steps (Opt r) a a.
Proof. intros Hnone k res Hk. unfold Opt. cbn [exec]. rewrite Hnone. exact Hk. Qed.

Lemma steps_capture (n : nat) (r : re) prev l off cs (b : position) :
  steps r (at_ prev l off cs) b ->
  steps (Capture n r) (at_ prev l off cs)
        (at_ (before b) (ahead b) (offset b) ((n, (off, offset b)) :: groups b)).
Proof.
  intros H k res Hk. cbn [exec before ahead offset groups].
  apply (H (fun prev' l' off' cs' => k prev' l' off' ((n, (off, off')) :: cs'))).
  exact Hk.
Qed.

Lemma steps_word_boundary (a : position) :
  xorb (word_before (before a)) (word_after (ahead a)) = true ->
  steps WordBoundary a a.
Proof. intros Hb k res Hk. cbn [exec]. rewrite Hb. exact Hk. Qed.

Lemma steps_class (p : byte -> bool) (c : byte) (t : list byte) prev off cs :
  p c = true -> steps (Class p) (at_ prev (c :: t) off cs) (at_ (Some c) t (S off) cs).
Proof. intros Hc k res Hk. cbn in *. rewrite Hc. exact Hk. Qed.

(** The bytes ahead do not start with a byte of the class. *)
Definition stops (p : byte -> bool) (rest : list byte) : Prop :=
  match rest with c :: _ => p c = false | [] => True end.

Definition last_of (ds : list byte) (prev : option byte) : option byte :=
  fold_left (fun _ d => Some d) ds prev.

(** A greedy repetition takes every byte of the class. *)
Lemma steps_star (p : byte -> bool) (ds rest : list byte) : forall prev off cs,
  forallb p ds = true -> stops p rest ->
  steps (Star p) (at_ prev (ds ++ rest) off cs)
        (at_ (last_of ds prev) rest (List.length ds + off) cs).
Proof.
  induction ds as [|d ds IH]; intros prev off cs Hds Hrest k res Hk; cbn in Hk |- *.
  - destruct rest as [|c t]; cbn; [exact Hk|]. cbn in Hrest. rewrite Hrest. exact Hk.
  - cbn in Hds. apply andb_prop in Hds. destruct Hds as [Hd Hds]. rewrite Hd.
    pose proof (IH (Some d) (S off) cs Hds Hrest k res) as Hstar.
    cbn in Hstar. rewrite Hstar; [reflexivity|].
    rewrite Nat.add_succ_r. exact Hk.
Qed.

Lemma steps_plus (p : byte -> bool) (d : byte) (ds rest : list byte) prev off cs :
  p d = true -> forallb p ds = true -> stops p rest ->
  steps (Plus p) (at_ prev (d :: ds ++ rest) off cs)
        (at_ (last_of (d :: ds) prev) rest (List.length (d :: ds) + off) cs).
Proof.
  intros Hd Hds Hrest. unfold Plus.
  eapply steps_cat; [apply steps_class; exact Hd|].
  replace (List.length (d :: ds) + off)%nat with (List.length ds + S off)%nat
    by (simpl; lia).
  exact (steps_star p ds rest (Some d) (S off) cs Hds Hrest).
Qed.

Lemma steps_match (r : re) prev l off (b : position) :
  steps r (at_ prev l off []) b ->
  match_here r prev l off = Some (offset b, groups b).
Proof. intros H. unfold match_here. apply H. reflexivity. Qed.

Lemma search_here (r : re) prev l off e cs :
  match_here r prev l off = Some (e, cs) -> search r prev l off = Some (off, e, cs).
Proof. intros H. destruct l; cbn [search]; rewrite H; reflexivity. Qed.

(** A pattern that cannot start at a byte, whatever is around it. *)
Definition dead (r : re) (c : byte) : Prop :=
  forall prev t off, match_here r prev (c :: t) off = None.

Lemma search_skip (r : re) (a : list byte) : forall prev b off,
  Forall (dead r) a ->
  search r prev (a ++ b) off = search r (last_of a prev) b (List.length a + off).
Proof.
  induction a as [|c a IH]; intros prev b off Ha; [reflexivity|].
  inversion Ha as [|c' a' Hc Ha']; subst.
  cbn [app search]. rewrite Hc. rewrite IH by assumption.
  cbn. rewrite Nat.add_succ_r. reflexivity.
Qed.

End MatcherFacts.

(** ** Speed lines *)

Section SpeedLineFacts.
Import Regexp Float64 Strconv Parser.

Lemma bytes_of_app (a b : string) : bytes_of (a ++ b) = bytes_of a ++ bytes_of b.
Proof.
  unfold bytes_of. induction a as [|c a IH]; simpl; [reflexivity | rewrite IH; reflexivity].
Qed.

Lemma string_of_bytes_of (s : string) : string_of (bytes_of s) = s.
Proof. apply string_of_list_ascii_of_string. Qed.

Lemma bytes_of_string_of (l : list byte) : bytes_of (string_of l) = l.
Proof. apply list_ascii_of_string_of_list_ascii. Qed.

Lemma firstn_exact {A} (n : nat) (l r : list A) :
  n = List.length l -> firstn n (l ++ r) = l.
Proof. intros ->. apply firstn_length_app. Qed.

Lemma skipn_exact {A} (n : nat) (l r : list A) :
  n = List.length l -> skipn n (l ++ r) = r.
Proof. intros ->. induction l as [|x l IH]; simpl; [reflexivity | exact IH]. Qed.

(** *** The number *)

(** Digits, or digits, a point and digits: what group 1 captures. *)
Inductive number_shape : list byte -> Prop :=
| shape_int d ds :
    is_digit d = true -> forallb is_digit ds = true -> number_shape (d :: ds)
| shape_frac d ds f fs :
    is_digit d = true -> forallb is_digit ds = true ->
    is_digit f = true -> forallb is_digit fs = true ->
    number_shape ((d :: ds) ++ "."%char :: f :: fs).

(** The same, as a test. *)
Definition number_syntax (s : string) : bool :=
  match span_digits (bytes_of s) with
  | (_ :: _, []) => true
  | (_ :: _, c :: f :: fs) => byte_eqb "."%char c && is_digit f && forallb is_digit fs
  | _ => false
  end.

Lemma span_digits_spec (l : list byte) :
  l = fst (span_digits l) ++ snd (span_digits l) /\
  forallb is_digit (fst (span_digits l)) = true.
Proof.
  induction l as [|c l [IH1 IH2]]; [split; reflexivity|].
  cbn [span_digits]. destruct (is_digit c) eqn:Hc.
  - destruct (span_digits l) as [ds rest]. cbn [fst snd] in *. split.
    + cbn [app]. rewrite <- IH1. reflexivity.
    + cbn [forallb]. rewrite Hc, IH2. reflexivity.
  - split; reflexivity.
Qed.

Lemma byte_eqb_eq (a b : byte) : byte_eqb a b = true -> a = b.
Proof. apply Ascii.eqb_eq. Qed.

Lemma number_syntax_shape (s : string) :
  number_syntax s = true -> number_shape (bytes_of s).
Proof.
  unfold number_syntax. intros H.
  destruct (span_digits_spec (bytes_of s)) as [Hsplit Hdigits].
  destruct (span_digits (bytes_of s)) as [ip rest]. cbn [fst snd] in *.
  destruct ip as [|d ds]; [discriminate|].
  cbn [forallb] in Hdigits. apply andb_prop in Hdigits. destruct Hdigits as [Hd Hds].
  destruct rest as [|c [|f fs]]; try discriminate.
  - rewrite Hsplit, app_nil_r. constructor; assumption.
  - apply andb_prop in H. destruct H as [H Hfs].
    apply andb_prop in H. destruct H as [Hc Hf].
    apply byte_eqb_eq in Hc. subst c. rewrite Hsplit. constructor; assumption.
Qed.

(** What follows the number: no digit, no point, no white space. *)
Definition letter_first (rest : list byte) : Prop :=
  match rest with
  | c :: _ => is_digit c = false /\ byte_eqb "."%char c = false /\ is_space c = false
  | [] => True
  end.

Lemma steps_number (num rest : list byte) prev off cs :
  number_shape num -> letter_first rest ->
  exists p', steps number (at_ prev (num ++ rest) off cs)
                          (at_ p' rest (List.length num + off) cs).
Proof.
  intros Hnum Hrest. unfold number.
  destruct Hnum as [d ds Hd Hds | d ds f fs Hd Hds Hf Hfs].
  - eexists. eapply steps_cat.
    + cbn [app]. apply steps_plus; try assumption.
      destruct rest; [exact I | apply Hrest].
    + apply steps_opt_skip. intros k. cbn [exec before ahead offset groups].
      destruct rest as [|c t]; [reflexivity|].
      destruct Hrest as (_ & Hdot & _). rewrite Hdot. reflexivity.
  - eexists. rewrite <- app_assoc. eapply steps_cat.
    + cbn [app]. apply steps_plus; try assumption. reflexivity.
    + apply steps_alt_left. eapply steps_cat.
      * apply steps_class. reflexivity.
      * cbn [app].
        replace (List.length (d :: ds ++ "."%char :: f :: fs) + off)%nat
          with (List.length (f :: fs) + S (List.length (d :: ds) + off))%nat
          by (simpl; rewrite length_app; simpl; lia).
        apply steps_plus; try assumption.
        destruct rest; [exact I | apply Hrest].
Qed.

Definition number_byte (c : byte) : bool := is_digit c || byte_eqb "."%char c.

Lemma number_bytes (num : list byte) : number_shape num -> forallb number_byte num = true.
Proof.
  assert (Hall : forall ds, forallb is_digit ds = true -> forallb number_byte ds = true).
  { induction ds as [|d ds IH]; simpl; [reflexivity|]. intros H.
    apply andb_prop in H. destruct H as [Hd Hds]. unfold number_byte at 1.
    rewrite Hd, IH by assumption. reflexivity. }
  assert (Hone : forall d, is_digit d = true -> number_byte d = true)
    by (intros d Hd; unfold number_byte; rewrite Hd; reflexivity).
  intros [d ds Hd Hds | d ds f fs Hd Hds Hf Hfs].
  - cbn [forallb]. rewrite (Hone d Hd), (Hall ds Hds). reflexivity.
  - rewrite forallb_app. cbn [forallb].
    rewrite (Hone d Hd), (Hall ds Hds), (Hone f Hf), (Hall fs Hfs). reflexivity.
Qed.

Ltac each_byte c := destruct c as [[] [] [] [] [] [] [] []].

Lemma digit_not_space (c : byte) : is_digit c = true -> is_space c = false.
Proof. each_byte c; vm_compute; congruence. Qed.

Lemma dead_OKSize (c : byte) : number_byte c = true -> dead reOKSize c.
Proof.
  intros Hc prev t off.
  each_byte c; try discriminate Hc;
    unfold match_here; cbn; destruct (word_before prev); reflexivity.
Qed.

Lemma dead_Progress (c : byte) : number_byte c = true -> dead reProgress c.
Proof.
  intros Hc prev t off.
  each_byte c; try discriminate Hc;
    unfold match_here; cbn; destruct (word_before prev); reflexivity.
Qed.

Lemma Forall_dead (r : re) (num : list byte) :
  (forall c, number_byte c = true -> dead r c) ->
  number_shape num -> Forall (dead r) num.
Proof.
  intros Hdead Hnum. apply Forall_forall. intros c Hc. apply Hdead.
  pose proof (number_bytes num Hnum) as Hall. rewrite forallb_forall in Hall.
  apply Hall. exact Hc.
Qed.

(** *** Bytes that [stripANSI] keeps *)

Definition plain (c : byte) : bool := negb (byte_eqb ESC c).

Lemma remove_all_plain (l : list byte) : forall prev,
  forallb plain l = true -> remove_all reANSIEsc prev 0 l = l.
Proof.
  induction l as [|c l IH]; intros prev Hl; [reflexivity|].
  cbn [forallb] in Hl. apply andb_prop in Hl. destruct Hl as [Hc Hl].
  cbn [remove_all].
  replace (match_here reANSIEsc prev (c :: l) 0) with (@None (nat * captures)).
  - rewrite IH by exact Hl. reflexivity.
  - unfold match_here, reANSIEsc. cbn [Seq exec].
    unfold plain in Hc. apply negb_true_iff in Hc. rewrite Hc. reflexivity.
Qed.

Lemma number_plain (num : list byte) : number_shape num -> forallb plain num = true.
Proof.
  intros Hnum. pose proof (number_bytes num Hnum) as Hall.
  rewrite forallb_forall in Hall. apply forallb_forall. intros c Hc.
  specialize (Hall c Hc).
  each_byte c; try discriminate Hall; reflexivity.
Qed.

(** *** The word, the unit and the tail *)

Fixpoint case_variants (l : list byte) : list (list byte) :=
  match l with
  | [] => [[]]
  | c :: t => flat_map (fun v => [to_upper c :: v; to_lower c :: v]) (case_variants t)
  end.

(** [Speed] in each mix of cases. *)
Definition speed_words : list string :=
  map string_of (case_variants (bytes_of "speed")).

Definition unit_prefixes : list string :=
  [""; "K"; "M"; "G"; "T"; "P"; "k"; "m"; "g"; "t"; "p"]%string.

Definition i_parts : list string := [""; "i"; "I"]%string.

Definition tails : list string := ["B/s"; "b/s"; "B/S"; "b/S"]%string.

Definition speed_line (word number unit_prefix i_part tail : string) : string :=
  (word ++ ": " ++ number ++ unit_prefix ++ i_part ++ tail)%string.

Definition unit_tail : re :=
  Cat (Star is_space)
    (Cat (Capture 2 (Opt (fold_set "kmgtp")))
       (Cat (Opt (fold_lit "i"%char)) (fold_str "b/s"))).

Lemma reSpeedUnit_shape :
  reSpeedUnit =
  Cat WordBoundary
    (Cat (fold_str "Speed:")
       (Cat (Star is_space) (Cat (Capture 1 number) unit_tail))).
Proof. reflexivity. Qed.

Ltac enumerate :=
  repeat match goal with
         | H : _ \/ _ |- _ => destruct H as [H|H]
         | H : False |- _ => destruct H
         end; subst.

Ltac list_cases :=
  unfold speed_words, unit_prefixes, i_parts, tails;
  cbn [case_variants bytes_of list_ascii_of_string flat_map app map string_of
       string_of_list_ascii];
  cbv [to_upper to_lower]; simpl In.

Lemma steps_speed_word (w : string) (l : list byte) prev off cs :
  In w speed_words ->
  steps (fold_str "Speed:") (at_ prev (bytes_of w ++ ":"%char :: l) off cs)
        (at_ (Some ":"%char) l (6 + off) cs).
Proof.
  list_cases. intros Hw k res Hk.
  enumerate; cbn in Hk |- *; repeat apply preferred; exact Hk.
Qed.

(** What the proofs below need of the word. *)
Lemma speed_word_facts (w : string) :
  In w speed_words ->
  List.length (bytes_of w) = 5%nat /\ forallb plain (bytes_of w) = true /\
  (forall l, space_width space_encodings (bytes_of w ++ l) = O) /\
  (forall l, has_prefix (bytes_of w ++ l) [CR] = false) /\
  (forall l, xorb (word_before None) (word_after (bytes_of w ++ l)) = true) /\
  (forall l, search reOKSize None (bytes_of w ++ ":"%char :: " "%char :: l) 0
             = search reOKSize (Some " "%char) l 7) /\
  (forall l, search reProgress None (bytes_of w ++ ":"%char :: " "%char :: l) 0
             = search reProgress (Some " "%char) l 7).
Proof.
  list_cases. intros Hw. enumerate; repeat split; reflexivity.
Qed.

Section Tail.

Variables u i tl : string.
Hypothesis Hu : In u unit_prefixes.
Hypothesis Hi : In i i_parts.
Hypothesis Ht : In tl tails.

Let tail : list byte := bytes_of u ++ bytes_of i ++ bytes_of tl.

Lemma tail_letter_first : letter_first tail.
Proof. revert Hu Hi Ht. subst tail. list_cases. intros. enumerate; vm_compute; auto. Qed.

Lemma steps_unit_tail prev off cs :
  steps unit_tail (at_ prev tail off cs)
    (at_ (last_of tail prev) [] (List.length tail + off)
         ((2%nat, (off, (List.length (bytes_of u) + off)%nat)) :: cs)).
Proof.
  revert Hu Hi Ht. subst tail. list_cases. intros Hu' Hi' Ht' k res Hk.
  enumerate; cbn in Hk |- *; repeat apply preferred; exact Hk.
Qed.

Lemma tail_no_OKSize prev off : search reOKSize prev tail off = None.
Proof.
  revert Hu Hi Ht. subst tail. list_cases. intros.
  enumerate; cbn; destruct (word_before prev); reflexivity.
Qed.

Lemma tail_no_Progress prev off : search reProgress prev tail off = None.
Proof.
  revert Hu Hi Ht. subst tail. list_cases. intros.
  enumerate; cbn; destruct (word_before prev); reflexivity.
Qed.

Lemma tail_plain : forallb plain tail = true.
Proof. revert Hu Hi Ht. subst tail. list_cases. intros. enumerate; reflexivity. Qed.

Lemma tail_end :
  exists c rest, rev tail = c :: rest /\
    forall more, space_width (map (@rev byte) space_encodings) (c :: more) = O.
Proof.
  revert Hu Hi Ht. subst tail. list_cases. intros.
  enumerate; eexists; eexists; (split; [reflexivity|]); reflexivity.
Qed.

(** *** The line *)

Variables w num : string.
Hypothesis Hw : In w speed_words.
Hypothesis Hnum : number_shape (bytes_of num).

Let line : list byte := bytes_of w ++ ":"%char :: " "%char :: bytes_of num ++ tail.

Lemma speed_line_bytes : speed_line w num u i tl = string_of line.
Proof.
  unfold speed_line. rewrite <- (string_of_bytes_of (w ++ _)).
  rewrite !bytes_of_app. reflexivity.
Qed.

(** The speed pattern matches from the start of the line to its end. *)
Lemma speed_match :
  match_here reSpeedUnit None line 0
  = Some ((List.length tail + (List.length (bytes_of num) + 7))%nat,
          [(2%nat, ((List.length (bytes_of num) + 7)%nat,
                    (List.length (bytes_of u) + (List.length (bytes_of num) + 7))%nat));
           (1%nat, (7%nat, (List.length (bytes_of num) + 7)%nat))]).
Proof.
  rewrite reSpeedUnit_shape.
  destruct (speed_word_facts w Hw) as (_ & _ & _ & _ & Hboundary & _).
  assert (Hdigit : stops is_space (bytes_of num ++ tail)).
  { destruct Hnum; cbn; apply digit_not_space; assumption. }
  destruct (steps_number (bytes_of num) tail (Some " "%char) 7 [] Hnum tail_letter_first)
    as [p' Hnumber].
  apply (steps_match _ None _ 0 (at_ (last_of tail p') [] _ _)).
  eapply steps_cat; [apply steps_word_boundary; apply Hboundary|].
  eapply steps_cat;
    [exact (steps_speed_word w (" "%char :: bytes_of num ++ tail) None 0 [] Hw)|].
  eapply steps_cat;
    [exact (steps_star is_space [" "%char] (bytes_of num ++ tail) (Some ":"%char) 6 []
              eq_refl Hdigit)|].
  eapply steps_cat; [apply steps_capture; exact Hnumber|].
  cbn [before ahead offset groups].
  apply steps_unit_tail.
Qed.

Lemma line_split :
  line = (bytes_of w ++ bytes_of ": ") ++ bytes_of num ++ tail.
Proof. subst line. rewrite <- app_assoc. reflexivity. Qed.

Lemma speed_submatch :
  FindStringSubmatch reSpeedUnit 2 (string_of line) = Some [string_of line; num; u].
Proof.
  destruct (speed_word_facts w Hw) as (Hlen & _).
  unfold FindStringSubmatch. rewrite bytes_of_string_of.
  rewrite (search_here _ _ _ _ _ _ speed_match).
  cbn [seq map group_span Nat.eqb]. unfold sub.
  f_equal. f_equal; [|f_equal; [|f_equal]].
  - f_equal. rewrite Nat.sub_0_r. cbn [skipn].
    rewrite <- (app_nil_r line) at 1.
    apply firstn_exact. rewrite line_split, !length_app, Hlen. simpl. lia.
  - rewrite <- (string_of_bytes_of num) at 2. f_equal.
    rewrite line_split.
    rewrite skipn_exact by (rewrite length_app, Hlen; reflexivity).
    apply firstn_exact. lia.
  - rewrite <- (string_of_bytes_of u) at 2. f_equal.
    rewrite line_split, app_assoc.
    rewrite skipn_exact by (rewrite !length_app, Hlen; simpl; lia).
    subst tail. apply firstn_exact. lia.
Qed.

Lemma line_no_OKSize : FindStringSubmatch reOKSize 1 (string_of line) = None.
Proof.
  destruct (speed_word_facts w Hw) as (_ & _ & _ & _ & _ & Hskip & _).
  unfold FindStringSubmatch. rewrite bytes_of_string_of.
  subst line. rewrite Hskip.
  rewrite search_skip by (apply Forall_dead; [apply dead_OKSize | exact Hnum]).
  rewrite tail_no_OKSize. reflexivity.
Qed.

Lemma line_no_Progress : FindStringSubmatch reProgress 1 (string_of line) = None.
Proof.
  destruct (speed_word_facts w Hw) as (_ & _ & _ & _ & _ & _ & Hskip).
  unfold FindStringSubmatch. rewrite bytes_of_string_of.
  subst line. rewrite Hskip.
  rewrite search_skip by (apply Forall_dead; [apply dead_Progress | exact Hnum]).
  rewrite tail_no_Progress. reflexivity.
Qed.

Lemma stripANSI_line : stripANSI (string_of line) = string_of line.
Proof.
  destruct (speed_word_facts w Hw) as (_ & Hplain & _).
  unfold stripANSI, RemoveAllString.
  rewrite bytes_of_string_of. rewrite remove_all_plain; [reflexivity|].
  rewrite line_split, !forallb_app.
  rewrite Hplain, (number_plain _ Hnum), tail_plain. reflexivity.
Qed.

Lemma TrimSpace_line : TrimSpace (string_of line) = string_of line.
Proof.
  destruct (speed_word_facts w Hw) as (_ & _ & Hleft & _).
  unfold TrimSpace. rewrite bytes_of_string_of. f_equal.
  assert (Hl : TrimLeftSpace line = line)
    by (unfold TrimLeftSpace; apply trim_left_fixed; subst line; apply Hleft).
  rewrite Hl. unfold TrimRightSpace.
  rewrite trim_left_fixed; [apply rev_involutive|].
  destruct tail_end as (c & rest & Hrev & Hwidth).
  rewrite line_split, app_assoc, rev_app_distr, Hrev. cbn [app]. apply Hwidth.
Qed.

Lemma TrimPrefix_line : TrimPrefix (string_of line) (String CR "") = string_of line.
Proof.
  destruct (speed_word_facts w Hw) as (_ & _ & _ & Hcr & _).
  unfold TrimPrefix, HasPrefix. rewrite bytes_of_string_of.
  subst line. change (bytes_of (String CR "")) with [CR]. rewrite Hcr. reflexivity.
Qed.

(** What [parseProgressSegment] makes of the line depends on the number
    and the unit prefix only. *)
Lemma speed_line_parse :
  parseProgressSegment (speed_line w num u i tl) =
  match ParseFloat num with
  | Some v => {| doneBytes := 0; speedBps := speedToBps v u; percent := zero;
                 hasDone := false; hasSpeed := true; hasPercent := false |}
  | None => {| doneBytes := 0; speedBps := zero; percent := zero;
               hasDone := false; hasSpeed := false; hasPercent := false |}
  end.
Proof.
  rewrite speed_line_bytes. unfold parseProgressSegment.
  rewrite stripANSI_line, TrimSpace_line, TrimPrefix_line. cbv zeta.
  rewrite line_no_OKSize, line_no_Progress, speed_submatch.
  destruct (ParseFloat num); reflexivity.
Qed.

End Tail.

End SpeedLineFacts.

Section SpeedLineClaims.
Import Regexp Float64 Strconv Parser.

Lemma Speed_is_a_speed_word : In "Speed"%string speed_words.
Proof.
  unfold speed_words.
  cbn [case_variants bytes_of list_ascii_of_string flat_map app map string_of
       string_of_list_ascii].
  cbv [to_upper to_lower]. simpl In.
  repeat (try (left; reflexivity); right).
Qed.

(** C10: the speed pattern accepts an [i] between the unit prefix and
    [B/s], whatever the case of the letters. For [Speed] in any mix of
    cases, a number made of digits with an optional fraction, any prefix
    of [K M G T P] in either case or none, [i] or [I], and [B/s] in any
    mix of cases, the line [<Speed>: <number><prefix>i<B/s>] parses as the
    line [Speed: <number><prefix>B/s] does: no byte count, no percentage,
    and, when [ParseFloat] reads the number as [v], [hasSpeed] set and the
    speed [speedToBps v prefix], with the multiplier of the prefix. So
    ["Speed: 2.5KiB/s"] and ["Speed: 2.5KB/s"] both give 2.5 * 1024 = 2560
    bytes per second. *)
Theorem speed_accepts_binary_i (w num u i tl : string) :
  In w speed_words -> number_syntax num = true -> In u unit_prefixes ->
  In i ["i"; "I"]%string -> In tl tails ->
  parseProgressSegment (speed_line w num u i tl)
    = parseProgressSegment (speed_line "Speed" num u "" "B/s") /\
  hasDone (parseProgressSegment (speed_line w num u i tl)) = false /\
  hasPercent (parseProgressSegment (speed_line w num u i tl)) = false /\
  (forall v, ParseFloat num = Some v ->
     hasSpeed (parseProgressSegment (speed_line w num u i tl)) = true /\
     speedBps (parseProgressSegment (speed_line w num u i tl)) = speedToBps v u) /\
  parseProgressSegment "Speed: 2.5KiB/s" =
    {| doneBytes := 0; speedBps := of_Z 2560; percent := zero;
       hasDone := false; hasSpeed := true; hasPercent := false |} /\
  parseProgressSegment "Speed: 2.5KB/s" = parseProgressSegment "Speed: 2.5KiB/s".
Proof.
  intros Hw Hnum Hu Hi Ht.
  assert (Hi' : In i i_parts) by (right; exact Hi).
  apply number_syntax_shape in Hnum.
  rewrite (speed_line_parse u i tl Hu Hi' Ht w num Hw Hnum).
  rewrite (speed_line_parse u "" "B/s" Hu (or_introl eq_refl) (or_introl eq_refl)
             "Speed" num Speed_is_a_speed_word Hnum).
  split; [reflexivity|].
  split; [destruct (ParseFloat num); reflexivity|].
  split; [destruct (ParseFloat num); reflexivity|].
  split; [intros v ->; split; reflexivity|].
  split; vm_compute; reflexivity.
Qed.

Lemma speed_accepts_binary_i_witness :
  parseProgressSegment (speed_line "sPEED" "12.75" "g" "I" "b/S")
    = parseProgressSegment (speed_line "Speed" "12.75" "g" "" "B/s") /\
  hasDone (parseProgressSegment (speed_line "sPEED" "12.75" "g" "I" "b/S")) = false /\
  hasPercent (parseProgressSegment (speed_line "sPEED" "12.75" "g" "I" "b/S")) = false.
Proof.
  destruct (speed_accepts_binary_i "sPEED" "12.75" "g" "I" "b/S") as (H1 & H2 & H3 & _).
  - vm_compute. repeat (try (left; reflexivity); right).
  - vm_compute. reflexivity.
  - vm_compute. repeat (try (left; reflexivity); right).
  - vm_compute. repeat (try (left; reflexivity); right).
  - vm_compute. repeat (try (left; reflexivity); right).
  - split; [exact H1|]. split; [exact H2 | exact H3].
Defined.

End SpeedLineClaims.

(** ** ProgressAggregator *)

Section AggregatorFacts.
Import Float64 Parser Engine.

Variable overflow : float64 -> Z.

Definition ring_ok (b : Ring.ringBuffer) : Prop :=
  1 <= Ring.cap b /\ len (Ring.data b) <= Ring.cap b.

Lemma ring_ok_new (capacity : Z) : ring_ok (Ring.newRingBuffer capacity).
Proof.
  unfold ring_ok, Ring.newRingBuffer, len. simpl.
  destruct (Z.ltb_spec capacity 1); lia.
Qed.

Lemma ring_ok_append (line : string) (b : Ring.ringBuffer) :
  ring_ok b -> exists b', Ring.AppendLine line b = Some b' /\ ring_ok b'.
Proof.
  intros [Hc Hl].
  destruct (AppendLine_retains line b Hc Hl) as (b' & Hb & Hcap & _).
  exists b'. split; [exact Hb|]. split; [lia|].
  eapply AppendLine_within; eassumption.
Qed.

(** [emit] either leaves the job as it is or records one snapshot, built
    from the job's variables. *)
Lemma emit_cases (force : bool) (now : Time) (j : job) :
  emit overflow force now j = j \/
  exists u,
    emitted (emit overflow force now j) = emitted j ++ [u] /\
    update (emit overflow force now j) = u /\
    doneBytes (emit overflow force now j) = doneBytes j /\
    speedBps (emit overflow force now j) = speedBps j /\
    outputTail (emit overflow force now j) = outputTail j /\
    TotalBytes u = TotalBytes (update j) /\
    DoneBytes u = doneBytes j /\
    SpeedBytesPerSec u = speedBps j /\
    EtaSeconds u = eta overflow (TotalBytes (update j)) (doneBytes j) (speedBps j).
Proof.
  unfold emit.
  destruct (match lastEmit j with
            | Some last => negb force && (mono now - mono last <? emitInterval)
            | None => false
            end).
  - left. reflexivity.
  - right. eexists. simpl. repeat split.
Qed.


(** *** The two phases of [runOssutilWithProgress] *)

Definition primary_path (s : OSSService) : string :=
  let primary := TrimSpace (ossutilPath s) in
  let primary := if String.eqb primary "" then TrimSpace (defaultOssutilPath s)
                 else primary in
  if String.eqb primary "" then "ossutil"%string else primary.

Definition fallback_path (s : OSSService) : string :=
  TrimSpace (defaultOssutilPath s).

Definition retries (startCmd : string -> list string -> error + process)
    (s : OSSService) (args : list string) : bool :=
  match startCmd (primary_path s) args with
  | inl e =>
      ossutilStartFailed (Some e)
      && negb (String.eqb (fallback_path s) "")
      && negb (String.eqb (fallback_path s) (primary_path s))
  | inr _ => false
  end.

Definition after_start (proc : process) (s : OSSService) (tried : list string)
    (u0 : TransferUpdate) : option outcome :=
  match handle_segments overflow (segments proc)
          {| lastEmit := None; doneBytes := DoneBytes u0;
             speedBps := SpeedBytesPerSec u0; update := u0;
             outputTail := Ring.newRingBuffer (16 * 1024); emitted := [] |} with
  | None => None
  | Some j =>
      match wait_result proc with
      | Some e =>
          Some {| returned :=
                    Some (if String.eqb (Ring.String_ (outputTail j)) "" then e
                          else wrap_error (text e ++ ": " ++ Ring.String_ (outputTail j)) e);
                  update_after := Some (update j);
                  service_after := s; started := tried;
                  snapshots := emitted j |}
      | None =>
          Some {| returned := None;
                  update_after := Some (update (emit overflow true (exit_now proc) j));
                  service_after := s; started := tried;
                  snapshots := emitted (emit overflow true (exit_now proc) j) |}
      end
  end.

Definition start_failure (e : error) (s : OSSService) (tried : list string)
    (u0 : TransferUpdate) : outcome :=
  {| returned := Some (wrap_error ("failed to start ossutil: " ++ text e) e);
     update_after := Some u0; service_after := s; started := tried;
     snapshots := [] |}.

Lemma run_phases (startCmd : string -> list string -> error + process)
    (s : OSSService) (args : list string) (u0 : TransferUpdate) :
  runOssutilWithProgress overflow startCmd s args (Some u0) =
  if retries startCmd s args then
    match startCmd (fallback_path s) args with
    | inl e => Some (start_failure e s [primary_path s; fallback_path s] u0)
    | inr proc =>
        after_start proc
          {| ossutilPath := fallback_path s;
             defaultOssutilPath := defaultOssutilPath s;
             transferSeq := transferSeq s |}
          [primary_path s; fallback_path s] u0
    end
  else
    match startCmd (primary_path s) args with
    | inl e => Some (start_failure e s [primary_path s] u0)
    | inr proc => after_start proc s [primary_path s] u0
    end.
Proof.
  unfold runOssutilWithProgress, retries, primary_path, fallback_path. cbv zeta.
  set (fb := TrimSpace (defaultOssutilPath s)).
  match goal with |- context [ [?p; fb] ] => set (prim := p) end.
  destruct (startCmd prim args) as [e|proc] eqn:Hfirst.
  - cbn [andb].
    destruct (ossutilStartFailed (Some e) && negb (String.eqb fb "")
              && negb (String.eqb fb prim)).
    + destruct (startCmd fb args); reflexivity.
    + reflexivity.
  - reflexivity.
Qed.

(** A property of the job's variables and of each snapshot that one
    segment preserves, given that the new [doneBytes] is acceptable. *)
Section Invariant.

Variable total : Z.
Variable good : Z -> float64 -> Z -> Prop.   (* done, speed, eta of a snapshot *)

Definition job_inv (j : job) : Prop :=
  ring_ok (outputTail j) /\ TotalBytes (update j) = total /\
  Forall (fun u => TotalBytes u = total /\
                   good (DoneBytes u) (SpeedBytesPerSec u) (EtaSeconds u))
         (emitted j).

Hypothesis good_eta : forall done speed, good done speed (eta overflow total done speed).

Lemma job_inv_emit (force : bool) (now : Time) (j : job) :
  job_inv j -> job_inv (emit overflow force now j).
Proof.
  intros (Hr & Ht & Hall).
  destruct (emit_cases force now j) as [-> | (u & He & Hu & _ & _ & Htail & Htu & Hd & Hs & Heta)].
  - split; [assumption|]. split; assumption.
  - unfold job_inv. rewrite He, Hu, Htail.
    split; [assumption|]. split; [lia|].
    apply Forall_app. split; [assumption|]. constructor; [|constructor].
    split; [lia|]. rewrite Heta, Ht, Hd, Hs. apply good_eta.
Qed.

Lemma job_inv_segment (seg : string) (now : Time) (j : job) :
  job_inv j -> exists j', handle_segment overflow seg now j = Some j' /\ job_inv j'.
Proof.
  intros Hj. unfold handle_segment.
  destruct (hasDone (parseProgressSegment (stripANSI seg))
            || hasSpeed (parseProgressSegment (stripANSI seg))
            || hasPercent (parseProgressSegment (stripANSI seg))).
  - eexists. split; [reflexivity|]. apply job_inv_emit.
    destruct Hj as (Hr & Ht & Hall).
    split; [exact Hr|]. split; [exact Ht | exact Hall].
  - cbn [outputTail]. destruct Hj as (Hr & Ht & Hall).
    destruct (ring_ok_append (TrimSpace (stripANSI seg)) (outputTail j) Hr)
      as (b' & Hb & Hok).
    rewrite Hb. eexists. split; [reflexivity|].
    split; [exact Hok|]. split; [exact Ht | exact Hall].
Qed.

Lemma job_inv_segments (segs : list (string * Time)) : forall j,
  job_inv j -> exists j', handle_segments overflow segs j = Some j' /\ job_inv j'.
Proof.
  induction segs as [|[seg now] rest IH]; intros j Hj; cbn [handle_segments].
  - exists j. auto.
  - destruct (job_inv_segment seg now j Hj) as (j1 & Hj1 & Hinv1).
    rewrite Hj1. apply IH. exact Hinv1.
Qed.

(** The invariant holds of what [runOssutilWithProgress] leaves, and the
    function returns: the ring buffer of the job never panics. *)
Lemma after_start_inv (proc : process) (s : OSSService) (tried : list string)
    (u0 : TransferUpdate) :
  TotalBytes u0 = total ->
  exists r, after_start proc s tried u0 = Some r /\
    service_after r = s /\ started r = tried /\
    Forall (fun u => TotalBytes u = total /\
                     good (DoneBytes u) (SpeedBytesPerSec u) (EtaSeconds u))
           (snapshots r).
Proof.
  intros Ht. unfold after_start.
  destruct (job_inv_segments (segments proc)
              {| lastEmit := None; doneBytes := DoneBytes u0;
                 speedBps := SpeedBytesPerSec u0; update := u0;
                 outputTail := Ring.newRingBuffer (16 * 1024); emitted := [] |})
    as (j & Hj & Hinv).
  { split; [apply ring_ok_new|]. split; [exact Ht | constructor]. }
  rewrite Hj. destruct (wait_result proc).
  - eexists. split; [reflexivity|]. repeat split. apply Hinv.
  - eexists. split; [reflexivity|]. repeat split.
    apply (job_inv_emit true (exit_now proc) j Hinv).
Qed.

Lemma run_snapshots_inv (startCmd : string -> list string -> error + process)
    (s : OSSService) (args : list string) (u0 : TransferUpdate) :
  TotalBytes u0 = total ->
  exists r, runOssutilWithProgress overflow startCmd s args (Some u0) = Some r /\
    Forall (fun u => TotalBytes u = total /\
                     good (DoneBytes u) (SpeedBytesPerSec u) (EtaSeconds u))
           (snapshots r).
Proof.
  intros Ht. rewrite run_phases.
  destruct (retries startCmd s args).
  - destruct (startCmd (fallback_path s) args) as [e|proc].
    + eexists. split; [reflexivity|]. constructor.
    + destruct (after_start_inv proc
                  {| ossutilPath := fallback_path s;
                     defaultOssutilPath := defaultOssutilPath s;
                     transferSeq := transferSeq s |}
                  [primary_path s; fallback_path s] u0 Ht) as (r & Hr & _ & _ & Hall).
      exists r. auto.
  - destruct (startCmd (primary_path s) args) as [e|proc].
    + eexists. split; [reflexivity|]. constructor.
    + destruct (after_start_inv proc s [primary_path s] u0 Ht) as (r & Hr & _ & _ & Hall).
      exists r. auto.
Qed.

End Invariant.

(** In range, [int64(f)] is the integer part of [f]. *)
Lemma to_int64_in_range (f : float64) (z : Z) :
  trunc f = Some z -> in_int64 z -> to_int64 overflow f = z.
Proof.
  intros Hf [Hlo Hhi]. unfold to_int64. rewrite Hf.
  unfold in_int64b. apply Z.leb_le in Hlo. apply Z.leb_le in Hhi.
  rewrite Hlo, Hhi. reflexivity.
Qed.

(** *** [doneBytes] across the lines of a job *)





(** A relation between successive values of [doneBytes] that the values
    reported by the lines satisfy is one the snapshots satisfy. *)
Section Reports.

Variable P : Z -> Z -> Prop.
Hypothesis P_trans : forall a b c, P a b -> P b c -> P a c.
Hypothesis P_again : forall a b, P a b -> P b b.




Variable total : Z.
Variable d0 : Z.






End Reports.


End AggregatorFacts.

Section AggregatorClaims.
Import Float64 Parser Engine.

(** A queued upload of 1000 bytes, and a service whose binary starts. *)
Definition queued_1000 : TransferUpdate :=
  {| ID := "tr-1-1"; Type_ := TransferTypeUpload; Status := TransferStatusInProgress;
     Name := "a.bin"; Bucket := "b"; Key := "p/a.bin"; LocalPath := "/tmp/a.bin";
     TotalBytes := 1000; DoneBytes := 0; SpeedBytesPerSec := zero; EtaSeconds := 0;
     Message := ""; StartedAtMs := 1; UpdatedAtMs := 1; FinishedAtMs := 0 |}.

Definition service_0 : OSSService :=
  {| ossutilPath := "ossutil"; defaultOssutilPath := "ossutil"; transferSeq := 1 |}.

Definition second : Z := 1000000000.

(** A reading of a clock that never steps: wall and monotonic time agree. *)
Definition steady (ns : Z) : Time := {| wall := ns; mono := ns |}.

Definition starts (proc : process) : string -> list string -> error + process :=
  fun _ _ => inr proc.

Definition amd64_overflow : float64 -> Z := fun _ => min_int64.

Definition progress_of (r : option outcome) : option (list (Z * Z)) :=
  option_map (fun r => map (fun u => (DoneBytes u, EtaSeconds u)) (snapshots r)) r.

(** [runOssutilWithProgress] returns, and in each snapshot the [emit]
    closure makes [etaSeconds] is
    [int64(float64(totalBytes - doneBytes) / speed)] when
    [totalBytes > 0], [speed > 0] and [0 <= doneBytes <= totalBytes], and
    is 0 otherwise. *)
Lemma closure_eta (overflow : float64 -> Z)
    (startCmd : string -> list string -> error + process)
    (s : OSSService) (args : list string) (u0 : TransferUpdate) :
  in_int64 (TotalBytes u0) ->
  exists r, runOssutilWithProgress overflow startCmd s args (Some u0) = Some r /\
    forall u, In u (snapshots r) ->
      let total := TotalBytes u in
      let done := DoneBytes u in
      let speed := SpeedBytesPerSec u in
      (0 < total /\ ltb zero speed = true /\ 0 <= done <= total ->
       EtaSeconds u = to_int64 overflow (div (of_Z (total - done)) speed)) /\
      (~ (0 < total /\ ltb zero speed = true /\ 0 <= done <= total) ->
       EtaSeconds u = 0).
Proof.
  intros Hrange.
  destruct (run_snapshots_inv overflow (TotalBytes u0)
              (fun done speed e => e = eta overflow (TotalBytes u0) done speed)
              (fun _ _ => eq_refl) startCmd s args u0 eq_refl) as (r & Hr & Hall).
  exists r. split; [exact Hr|].
  intros u Hu. rewrite Forall_forall in Hall.
  destruct (Hall u Hu) as [Ht Heta]. cbv zeta. rewrite Heta, Ht. unfold eta.
  split.
  - intros (Hpos & Hspeed & Hd0 & Hd1).
    apply Z.ltb_lt in Hpos. rewrite Hpos, Hspeed.
    apply Z.leb_le in Hd0. apply Z.leb_le in Hd1. rewrite Hd0, Hd1. simpl.
    apply Z.ltb_lt in Hpos. apply Z.leb_le in Hd0. apply Z.leb_le in Hd1.
    rewrite wrap64_id; [reflexivity|].
    unfold in_int64, min_int64, max_int64 in *. lia.
  - intros Hnot.
    destruct (Z.ltb_spec 0 (TotalBytes u0)); [|reflexivity].
    destruct (ltb zero (SpeedBytesPerSec u)); [|reflexivity].
    destruct (Z.leb_spec 0 (DoneBytes u)); [|reflexivity].
    destruct (Z.leb_spec (DoneBytes u) (TotalBytes u0)); [|reflexivity].
    exfalso. apply Hnot. repeat split; try assumption; lia.
Qed.




End AggregatorClaims.

(** ** ProcessSupervisor *)

Section SupervisorFacts.
Import Float64 Parser Engine.

Lemma eqb_false_neq (a b : string) : a <> b -> String.eqb a b = false.
Proof. intros H. apply String.eqb_neq. exact H. Qed.

(** Once the fallback is the configured path, it is the path tried first. *)
Lemma primary_after_fallback (s : OSSService) :
  fallback_path s <> ""%string ->
  primary_path {| ossutilPath := fallback_path s;
                  defaultOssutilPath := defaultOssutilPath s;
                  transferSeq := transferSeq s |} = fallback_path s.
Proof.
  intros Hne. unfold primary_path, fallback_path in *. cbn [ossutilPath defaultOssutilPath].
  rewrite TrimSpace_idempotent.
  rewrite (eqb_false_neq _ _ Hne). rewrite (eqb_false_neq _ _ Hne). reflexivity.
Qed.

(** Every call starts the configured path first. *)
Lemma started_first (overflow : float64 -> Z)
    (startCmd : string -> list string -> error + process)
    (s : OSSService) (args : list string) (u0 : TransferUpdate) (r : outcome) :
  runOssutilWithProgress overflow startCmd s args (Some u0) = Some r ->
  hd_error (started r) = Some (primary_path s).
Proof.
  rewrite run_phases. intros Hr.
  destruct (retries startCmd s args).
  - destruct (startCmd (fallback_path s) args) as [e|proc].
    + injection Hr as <-. reflexivity.
    + destruct (after_start_inv overflow (TotalBytes u0) (fun _ _ _ => True)
                  (fun _ _ => I) proc
                  {| ossutilPath := fallback_path s;
                     defaultOssutilPath := defaultOssutilPath s;
                     transferSeq := transferSeq s |}
                  [primary_path s; fallback_path s] u0 eq_refl)
        as (r' & Hr' & _ & Hst & _).
      rewrite Hr' in Hr. injection Hr as <-. rewrite Hst. reflexivity.
  - destruct (startCmd (primary_path s) args) as [e|proc].
    + injection Hr as <-. reflexivity.
    + destruct (after_start_inv overflow (TotalBytes u0) (fun _ _ _ => True)
                  (fun _ _ => I) proc s [primary_path s] u0 eq_refl)
        as (r' & Hr' & _ & Hst & _).
      rewrite Hr' in Hr. injection Hr as <-. rewrite Hst. reflexivity.
Qed.

(** C3: [runOssutilWithProgress] returns, and
    - when starting the primary path fails with an error that
      [ossutilStartFailed] accepts, and the fallback path is not empty and
      differs from the primary one, the fallback is started, once, and
      nothing else; if it starts, it is the configured path afterwards
      and the path the next job starts first; if it fails too, the
      configured path stays and that error is returned;
    - when starting the primary path fails with another error, an
      [ExitError] among them, nothing else is started;
    - when the primary path starts, nothing else is started and the
      configured path stays, whatever [cmd.Wait()] returns;
    - [ossutilStartFailed] accepts the errors that are no [ExitError] and
      are [ErrNotFound], [ErrNotExist] or [ErrPermission]. *)
Theorem fallback_retry (overflow : float64 -> Z)
    (startCmd : string -> list string -> error + process)
    (s : OSSService) (args : list string) (u0 : TransferUpdate) :
  exists r, runOssutilWithProgress overflow startCmd s args (Some u0) = Some r /\
    (forall e, startCmd (primary_path s) args = inl e ->
       ossutilStartFailed (Some e) = true ->
       fallback_path s <> ""%string -> fallback_path s <> primary_path s ->
       started r = [primary_path s; fallback_path s] /\
       (forall proc, startCmd (fallback_path s) args = inr proc ->
          ossutilPath (service_after r) = fallback_path s /\
          forall startCmd' args' u' r',
            runOssutilWithProgress overflow startCmd' (service_after r) args' (Some u')
              = Some r' ->
            hd_error (started r') = Some (fallback_path s)) /\
       (forall e2, startCmd (fallback_path s) args = inl e2 ->
          service_after r = s /\
          returned r = Some (wrap_error ("failed to start ossutil: " ++ text e2) e2))) /\
    (forall e, startCmd (primary_path s) args = inl e ->
       ossutilStartFailed (Some e) = false ->
       started r = [primary_path s] /\ service_after r = s /\
       returned r = Some (wrap_error ("failed to start ossutil: " ++ text e) e)) /\
    (forall proc, startCmd (primary_path s) args = inr proc ->
       started r = [primary_path s] /\ service_after r = s) /\
    (forall e, as_ExitError e = true -> ossutilStartFailed (Some e) = false) /\
    (forall e, ossutilStartFailed (Some e) = true <->
               as_ExitError e = false /\
               (is_ErrNotFound e = true \/ is_ErrNotExist e = true \/
                is_ErrPermission e = true)).
Proof.
  assert (Hclass : forall e, ossutilStartFailed (Some e) = true <->
             as_ExitError e = false /\
             (is_ErrNotFound e = true \/ is_ErrNotExist e = true \/
              is_ErrPermission e = true)).
  { intros e. unfold ossutilStartFailed.
    destruct (as_ExitError e), (is_ErrNotFound e), (is_ErrNotExist e),
      (is_ErrPermission e); simpl; intuition discriminate. }
  assert (Hexit : forall e, as_ExitError e = true -> ossutilStartFailed (Some e) = false).
  { intros e He. unfold ossutilStartFailed. rewrite He. reflexivity. }
  rewrite run_phases. unfold retries.
  destruct (startCmd (primary_path s) args) as [e|proc] eqn:Hfirst.
  - destruct (ossutilStartFailed (Some e)) eqn:Hfail.
    + destruct (String.eqb (fallback_path s) "") eqn:Hempty.
      * cbn [andb negb]. eexists. split; [reflexivity|].
        apply String.eqb_eq in Hempty.
        split; [intros e1 _ _ Hne; contradiction|].
        split; [intros e1 He1 Hf1; injection He1 as He1; congruence|].
        split; [intros proc Hp; discriminate|]. split; assumption.
      * destruct (String.eqb (fallback_path s) (primary_path s)) eqn:Hsame.
        -- cbn [andb negb]. eexists. split; [reflexivity|].
           apply String.eqb_eq in Hsame.
           split; [intros e1 _ _ _ Hne; contradiction|].
           split; [intros e1 He1 Hf1; injection He1 as He1; congruence|].
           split; [intros proc Hp; discriminate|]. split; assumption.
        -- cbn [andb negb]. apply String.eqb_neq in Hempty.
           destruct (startCmd (fallback_path s) args) as [e2|proc2] eqn:Hsecond.
           ++ eexists. split; [reflexivity|].
              split.
              { intros e1 _ _ _ _. split; [reflexivity|].
                split; [intros proc Hp; discriminate|].
                intros e3 He3. injection He3 as <-. split; reflexivity. }
              split; [intros e1 He1 Hf1; injection He1 as He1; congruence|].
              split; [intros proc Hp; discriminate|]. split; assumption.
           ++ destruct (after_start_inv overflow (TotalBytes u0) (fun _ _ _ => True)
                          (fun _ _ => I) proc2
                          {| ossutilPath := fallback_path s;
                             defaultOssutilPath := defaultOssutilPath s;
                             transferSeq := transferSeq s |}
                          [primary_path s; fallback_path s] u0 eq_refl)
                as (r & Hr & Hsvc & Hst & _).
              exists r. split; [exact Hr|].
              split.
              { intros e1 _ _ _ _. split; [exact Hst|].
                split.
                - intros proc _. rewrite Hsvc. split; [reflexivity|].
                  intros startCmd' args' u' r' Hr'.
                  rewrite (started_first _ _ _ _ _ _ Hr').
                  rewrite primary_after_fallback by exact Hempty. reflexivity.
                - intros e3 He3. discriminate. }
              split; [intros e1 He1 Hf1; injection He1 as He1; congruence|].
              split; [intros proc Hp; discriminate|]. split; assumption.
    + cbn [andb negb]. eexists. split; [reflexivity|].
      split; [intros e1 He1 Hf1; injection He1 as He1; congruence|].
      split.
      { intros e1 He1 _. injection He1 as <-. repeat split. }
      split; [intros proc Hp; discriminate|]. split; assumption.
  - destruct (after_start_inv overflow (TotalBytes u0) (fun _ _ _ => True)
                (fun _ _ => I) proc s [primary_path s] u0 eq_refl)
      as (r & Hr & Hsvc & Hst & _).
    exists r. split; [exact Hr|].
    split; [intros e1 He1; discriminate|].
    split; [intros e1 He1; discriminate|].
    split; [intros proc' _; split; assumption|]. split; assumption.
Qed.

(** A configured path that does not exist, beside a fallback that starts. *)
Definition misconfigured : OSSService :=
  {| ossutilPath := " /bad/ossutil "; defaultOssutilPath := "/opt/ossutil";
     transferSeq := 7 |}.

Definition no_such_file : error :=
  {| text := "fork/exec /bad/ossutil: no such file or directory";
     as_ExitError := false; is_ErrNotFound := false; is_ErrNotExist := true;
     is_ErrPermission := false |}.

Definition only_fallback_starts : string -> list string -> error + process :=
  fun binary _ =>
    if String.eqb binary "/opt/ossutil"
    then inr {| segments := [("OK size: 1000"%string, steady (1 * second))];
                wait_result := None; exit_now := steady (2 * second) |}
    else inl no_such_file.

Lemma fallback_retry_witness :
  exists r,
    runOssutilWithProgress amd64_overflow only_fallback_starts misconfigured []
      (Some queued_1000) = Some r /\
    started r = [primary_path misconfigured; fallback_path misconfigured] /\
    ossutilPath (service_after r) = fallback_path misconfigured.
Proof.
  destruct (fallback_retry amd64_overflow only_fallback_starts misconfigured []
              queued_1000) as (r & Hr & Hretry & _).
  exists r. split; [exact Hr|].
  destruct (Hretry no_such_file) as (Hstarted & Hok & _).
  - vm_compute. reflexivity.
  - vm_compute. reflexivity.
  - vm_compute. discriminate.
  - vm_compute. discriminate.
  - split; [exact Hstarted|].
    destruct (Hok {| segments := [("OK size: 1000"%string, steady (1 * second))];
                     wait_result := None; exit_now := steady (2 * second) |}) as [Hpath _].
    + vm_compute. reflexivity.
    + exact Hpath.
Defined.

End SupervisorFacts.

(** ** TransferDispatcher *)

Section DispatcherFacts.
Import Float64 Engine Dispatcher.

Variable OSSConfig : Type.

(** A rejected request: an error, the empty id, and a world left as it
    was: no record emitted, no goroutine started, no id drawn. *)
Definition rejected (result : (string * option error) * world OSSConfig)
    (w : world OSSConfig) : Prop :=
  exists e, result = ((""%string, Some e), w).

Definition upload_invalid (bucket localPath : string) (w : world OSSConfig) : Prop :=
  TrimSpace localPath = ""%string \/
  TrimSpace bucket = ""%string \/
  (exists e, stat OSSConfig w (TrimSpace localPath) = inl e) \/
  (exists info, stat OSSConfig w (TrimSpace localPath) = inr info /\ IsDir info = true).

Definition download_invalid (bucket object localPath : string) : Prop :=
  TrimSpace localPath = ""%string \/
  TrimSpace bucket = ""%string \/
  TrimPrefix (TrimSpace object) "/" = ""%string.

(** C8: [EnqueueUpload] returns an error and the empty id, emits no record
    and starts no goroutine when the trimmed local path is empty, the
    trimmed bucket is empty, [os.Stat] of the local path fails, or the
    local path is a directory; [EnqueueDownload] does so when the trimmed
    local path is empty, the trimmed bucket is empty, or the object key is
    empty once trimmed of white space and of a leading slash. The world,
    the sequence counter included, is left as it was. *)
Theorem enqueue_rejects_invalid (config : OSSConfig) (bucket prefix object localPath : string)
    (totalBytes : Z) (w : world OSSConfig) :
  (upload_invalid bucket localPath w ->
   rejected (EnqueueUpload OSSConfig config bucket prefix localPath w) w) /\
  (download_invalid bucket object localPath ->
   rejected (EnqueueDownload OSSConfig config bucket object localPath totalBytes w) w).
Proof.
  split.
  - intros Hbad. unfold EnqueueUpload, rejected.
    destruct (String.eqb (TrimSpace localPath) "") eqn:Hpath; [eexists; reflexivity|].
    destruct (String.eqb (TrimSpace bucket) "") eqn:Hbucket; [eexists; reflexivity|].
    apply String.eqb_neq in Hpath. apply String.eqb_neq in Hbucket.
    destruct Hbad as [H | [H | [[e H] | (info & H & Hdir)]]]; try contradiction.
    + rewrite H. eexists; reflexivity.
    + rewrite H, Hdir. eexists; reflexivity.
  - intros Hbad. unfold EnqueueDownload, rejected.
    destruct (String.eqb (TrimSpace localPath) "") eqn:Hpath; [eexists; reflexivity|].
    destruct (String.eqb (TrimSpace bucket) "") eqn:Hbucket; [eexists; reflexivity|].
    destruct (String.eqb (TrimPrefix (TrimSpace object) "/") "") eqn:Hobject;
      [eexists; reflexivity|].
    apply String.eqb_neq in Hpath. apply String.eqb_neq in Hbucket.
    apply String.eqb_neq in Hobject.
    destruct Hbad as [H | [H | H]]; contradiction.
Qed.

End DispatcherFacts.

Section DispatcherExamples.
Import Float64 Engine Dispatcher.

(** A file system with one file of 10 bytes and one directory. *)
Definition small_fs : string -> error + FileInfo :=
  fun path =>
    if String.eqb path "/data/a.bin" then inr {| IsDir := false; Size := 10 |}
    else if String.eqb path "/data" then inr {| IsDir := true; Size := 4096 |}
    else inl {| text := "stat: no such file or directory"; as_ExitError := false;
                is_ErrNotFound := false; is_ErrNotExist := true;
                is_ErrPermission := false |}.

Definition small_world : world unit :=
  {| stat := small_fs; clock := fun n => 1700000000000 + Z.of_nat n; ticks := 0;
     service := {| ossutilPath := "ossutil"; defaultOssutilPath := "ossutil";
                   transferSeq := 0 |};
     has_context := true; events := []; goroutines := [] |}.

Lemma enqueue_rejects_invalid_witness :
  rejected unit (EnqueueUpload unit tt "b" "p/" " /data " small_world) small_world /\
  rejected unit (EnqueueDownload unit tt "b" " / " "/tmp/out" 10 small_world) small_world.
Proof.
  split.
  - apply (enqueue_rejects_invalid unit tt "b" "p/" "" " /data " 0 small_world).
    right. right. right. exists {| IsDir := true; Size := 4096 |}.
    vm_compute. split; reflexivity.
  - apply (enqueue_rejects_invalid unit tt "b" "" " / " "/tmp/out" 10 small_world).
    right. right. vm_compute. reflexivity.
Defined.

(** A valid upload draws an id, emits the queued record and starts the
    job. *)
Example enqueue_upload_accepts :
  let '(result, w) := EnqueueUpload unit tt "b" "p/" "/data/a.bin" small_world in
  result = ("tr-1700000000000-1"%string, None) /\
  map (fun u => (Status u, Key u, TotalBytes u)) (events unit w)
    = [(TransferStatusQueued, "p/a.bin"%string, 10)] /\
  List.length (goroutines unit w) = 1%nat /\
  transferSeq (service unit w) = 1.
Proof. vm_compute. repeat split. Qed.

End DispatcherExamples.

(** ** More on the ProgressAggregator: what every segment preserves *)

Section SegmentFacts.
Import Float64 Parser Engine.

Variable overflow : float64 -> Z.

(** A property of the job that does not look at [doneBytes], [speedBps]
    and [outputTail], and that an [emit(false)] preserves, holds after
    all segments; the segment loop does not panic. *)
Section Kept.

Variable inv : job -> Prop.

Hypothesis inv_vars : forall j done speed tail,
  inv j ->
  inv {| lastEmit := lastEmit j; doneBytes := done; speedBps := speed;
         update := update j; outputTail := tail; emitted := emitted j |}.

Hypothesis inv_emit : forall now j, inv j -> inv (emit overflow false now j).

Lemma handle_segment_keeps (seg : string) (now : Time) (j : job) :
  inv j -> ring_ok (outputTail j) ->
  exists j', handle_segment overflow seg now j = Some j' /\
    inv j' /\ ring_ok (outputTail j').
Proof.
  intros Hj Hr. unfold handle_segment. cbv zeta.
  destruct (hasDone (parseProgressSegment (stripANSI seg))
            || hasSpeed (parseProgressSegment (stripANSI seg))
            || hasPercent (parseProgressSegment (stripANSI seg))).
  - eexists. split; [reflexivity|]. split.
    + apply inv_emit. apply (inv_vars j _ _ (outputTail j) Hj).
    + match goal with
      | |- ring_ok (outputTail (emit overflow false now ?x)) =>
          destruct (emit_cases overflow false now x)
            as [-> | (u & _ & _ & _ & _ & -> & _)]; exact Hr
      end.
  - cbn [outputTail].
    destruct (ring_ok_append (TrimSpace (stripANSI seg)) (outputTail j) Hr)
      as (b' & Hb & Hok).
    rewrite Hb. eexists. split; [reflexivity|]. split; [|exact Hok].
    apply (inv_vars j _ _ b' Hj).
Qed.

Lemma handle_segments_keep (segs : list (string * Time)) : forall j,
  inv j -> ring_ok (outputTail j) ->
  exists j', handle_segments overflow segs j = Some j' /\
    inv j' /\ ring_ok (outputTail j').
Proof.
  induction segs as [|[seg now] rest IH]; intros j Hj Hr; cbn [handle_segments].
  - exists j. auto.
  - destruct (handle_segment_keeps seg now j Hj Hr) as (j1 & Hj1 & Hinv1 & Hr1).
    rewrite Hj1. apply IH; assumption.
Qed.

(** The job [runOssutilWithProgress] starts with. *)
Definition first_job (u0 : TransferUpdate) : job :=
  {| lastEmit := None; doneBytes := DoneBytes u0;
     speedBps := SpeedBytesPerSec u0; update := u0;
     outputTail := Ring.newRingBuffer (16 * 1024); emitted := [] |}.

(** What a property of the job after the last segment gives of the
    outcome. *)
Lemma after_start_keeps (proc : process) (s : OSSService) (tried : list string)
    (u0 : TransferUpdate) :
  inv (first_job u0) ->
  exists j, handle_segments overflow (segments proc) (first_job u0) = Some j /\
    inv j /\
    after_start overflow proc s tried u0 =
    Some (match wait_result proc with
          | Some e =>
              {| returned :=
                   Some (if String.eqb (Ring.String_ (outputTail j)) "" then e
                         else wrap_error (text e ++ ": " ++ Ring.String_ (outputTail j)) e);
                 update_after := Some (update j);
                 service_after := s; started := tried;
                 snapshots := emitted j |}
          | None =>
              {| returned := None;
                 update_after := Some (update (emit overflow true (exit_now proc) j));
                 service_after := s; started := tried;
                 snapshots := emitted (emit overflow true (exit_now proc) j) |}
          end).
Proof.
  intros H0.
  destruct (handle_segments_keep (segments proc) (first_job u0) H0 (ring_ok_new _))
    as (j & Hj & Hinv & _).
  exists j. split; [exact Hj|]. split; [exact Hinv|].
  unfold after_start. fold (first_job u0). rewrite Hj.
  destruct (wait_result proc); reflexivity.
Qed.

End Kept.

(** [runOssutilWithProgress] returns for every record. *)
Lemma run_returns (startCmd : string -> list string -> error + process)
    (s : OSSService) (args : list string) (u0 : TransferUpdate) :
  exists r, runOssutilWithProgress overflow startCmd s args (Some u0) = Some r.
Proof.
  destruct (run_snapshots_inv overflow (TotalBytes u0) (fun _ _ _ => True)
              (fun _ _ => I) startCmd s args u0 eq_refl) as (r & Hr & _).
  exists r. exact Hr.
Qed.

(** Whether the loop takes a segment for progress. *)
Definition is_progress (seg : string) : bool :=
  let p := parseProgressSegment (stripANSI seg) in
  hasDone p || hasSpeed p || hasPercent p.

(** The lines the loop hands to [outputTail.AppendLine]: the segments that
    are no progress, without control sequences and trimmed, in order. *)
Definition output_lines (segs : list (string * Time)) : list string :=
  map (fun seg => TrimSpace (stripANSI seg))
      (filter (fun seg => negb (is_progress seg)) (map fst segs)).

Lemma handle_segments_output (segs : list (string * Time)) : forall j j',
  handle_segments overflow segs j = Some j' ->
  Ring.AppendLines (output_lines segs) (outputTail j) = Some (outputTail j').
Proof.
  induction segs as [|[seg now] rest IH]; intros j j' Hrun; cbn [handle_segments] in Hrun.
  - injection Hrun as <-. reflexivity.
  - destruct (handle_segment overflow seg now j) as [j1|] eqn:Hseg; [|discriminate].
    apply IH in Hrun.
    unfold output_lines in *. cbn [map filter fst].
    unfold handle_segment in Hseg. cbv zeta in Hseg.
    change (hasDone (parseProgressSegment (stripANSI seg))
            || hasSpeed (parseProgressSegment (stripANSI seg))
            || hasPercent (parseProgressSegment (stripANSI seg)))
      with (is_progress seg) in Hseg.
    destruct (is_progress seg).
    + cbn [negb]. injection Hseg as <-.
      match goal with
      | H : context [outputTail (emit overflow false now ?x)] |- _ =>
          assert (Heq : outputTail (emit overflow false now x) = outputTail j)
            by (destruct (emit_cases overflow false now x)
                  as [-> | (u & _ & _ & _ & _ & -> & _)]; reflexivity);
          rewrite Heq in H
      end.
      exact Hrun.
    + cbn [negb map Ring.AppendLines]. cbn [outputTail] in Hseg.
      destruct (Ring.AppendLine (TrimSpace (stripANSI seg)) (outputTail j)) as [tail|];
        [|discriminate].
      injection Hseg as <-. exact Hrun.
Qed.

(** What [outputTail.String()] gives after the loop: the last 16384 bytes
    of the lines of output, each with its newline, trimmed. *)
Definition retained_output (proc : process) : string :=
  TrimSpace (string_of (last_bytes (16 * 1024)
                          (Ring.stream (output_lines (segments proc))))).

Lemma output_after_segments (proc : process) (u0 : TransferUpdate) (j : job) :
  handle_segments overflow (segments proc) (first_job u0) = Some j ->
  Ring.String_ (outputTail j) = retained_output proc.
Proof.
  intros Hrun. apply handle_segments_output in Hrun.
  destruct (last_bytes_lines (output_lines (segments proc))
              (Ring.newRingBuffer (16 * 1024)) [])
    as (b & Hb & _ & Hd).
  - simpl. lia.
  - unfold last_bytes. rewrite skipn_nil. reflexivity.
  - cbn [first_job outputTail] in Hrun. rewrite Hb in Hrun. injection Hrun as <-.
    unfold Ring.String_, retained_output. rewrite Hd. reflexivity.
Qed.

(** The record the job holds is the last snapshot emitted, the record it
    was given when there is none. *)
Lemma run_leaves_last (startCmd : string -> list string -> error + process)
    (s : OSSService) (args : list string) (u0 : TransferUpdate) :
  exists r, runOssutilWithProgress overflow startCmd s args (Some u0) = Some r /\
    update_after r = Some (List.last (snapshots r) u0).
Proof.
  assert (Hemit : forall force now j,
            update j = List.last (emitted j) u0 ->
            update (emit overflow force now j)
            = List.last (emitted (emit overflow force now j)) u0).
  { intros force now j Hj.
    destruct (emit_cases overflow force now j) as [-> | (u & -> & -> & _)];
      [exact Hj|].
    rewrite last_last. reflexivity. }
  assert (Hafter : forall proc s' tried,
            exists r, after_start overflow proc s' tried u0 = Some r /\
              update_after r = Some (List.last (snapshots r) u0)).
  { intros proc s' tried.
    destruct (after_start_keeps (fun j => update j = List.last (emitted j) u0)) with
      (proc := proc) (s := s') (tried := tried) (u0 := u0)
      as (j & _ & Hinv & Hr).
    - intros j0 done speed tail Hj0. exact Hj0.
    - intros now j0. apply Hemit.
    - reflexivity.
    - rewrite Hr. eexists. split; [reflexivity|].
      destruct (wait_result proc); cbn [update_after snapshots].
      + rewrite Hinv. reflexivity.
      + rewrite (Hemit true (exit_now proc) j Hinv). reflexivity. }
  rewrite run_phases.
  destruct (retries startCmd s args).
  - destruct (startCmd (fallback_path s) args) as [e|proc].
    + eexists. split; reflexivity.
    + apply Hafter.
  - destruct (startCmd (primary_path s) args) as [e|proc].
    + eexists. split; reflexivity.
    + apply Hafter.
Qed.

End SegmentFacts.

(** ** The throttle of [emit] *)

Section ThrottleFacts.
Import Float64 Parser Engine.

(** Successive values are at least [d] apart. *)
Fixpoint spaced (d : Z) (l : list Z) : Prop :=
  match l with
  | [] => True
  | a :: t =>
      match t with
      | [] => True
      | b :: _ => a + d <= b
      end /\ spaced d t
  end.

Lemma spaced_snoc (d : Z) (l : list Z) : forall a b,
  spaced d (l ++ [a]) -> a + d <= b -> spaced d ((l ++ [a]) ++ [b]).
Proof.
  induction l as [|x l IH]; intros a b Hs Hab.
  - simpl. auto.
  - change ((x :: l) ++ [a]) with (x :: (l ++ [a])) in *.
    change ((x :: (l ++ [a])) ++ [b]) with (x :: ((l ++ [a]) ++ [b])).
    destruct Hs as [Hx Hs]. split; [|apply IH; assumption].
    destruct l; exact Hx.
Qed.

Lemma UnixMilli_apart (last now : Z) :
  emitInterval <= now - last -> UnixMilli last + 250 <= UnixMilli now.
Proof.
  unfold emitInterval, UnixMilli. intros H.
  rewrite <- (Z.div_add last 250 1000000) by lia.
  apply Z.div_le_mono; lia.
Qed.

(** The wall clock keeps pace with the monotonic clock over the readings
    [l]: between two readings that the monotonic clock puts at least
    [emitInterval] apart, the wall clock shows at least as much. A wall
    clock that is set back between two readings does not. *)
Definition keeps_pace (l : list Time) : Prop :=
  forall a b, In a l -> In b l ->
    emitInterval <= mono b - mono a -> emitInterval <= wall b - wall a.

Variable overflow : float64 -> Z.

(** The snapshots so far are 250 ms apart, and [lastEmit] is the reading,
    one of [l], at which the last one was made. *)
Definition throttle_inv (l : list Time) (j : job) : Prop :=
  match lastEmit j with
  | None => emitted j = []
  | Some t =>
      In t l /\
      exists pre u, emitted j = pre ++ [u] /\ UpdatedAtMs u = UnixMilli (wall t)
  end /\
  spaced 250 (map UpdatedAtMs (emitted j)).

Lemma throttle_inv_emit (l : list Time) (now : Time) (j : job) :
  keeps_pace l -> In now l ->
  throttle_inv l j -> throttle_inv l (emit overflow false now j).
Proof.
  intros Hpace Hnow [Hlast Hsp]. unfold emit, throttle_inv.
  destruct (lastEmit j) as [t|] eqn:Ht.
  - cbn [negb andb].
    destruct (Z.ltb_spec (mono now - mono t) emitInterval) as [Hlt|Hge].
    + rewrite Ht. split; assumption.
    + cbn [lastEmit emitted]. split.
      * split; [exact Hnow|]. eexists _, _. split; reflexivity.
      * destruct Hlast as (Hin & pre & u & Hpre & Hu).
        rewrite Hpre in *. rewrite !map_app in *. cbn [map] in *.
        apply spaced_snoc; [exact Hsp|]. cbn [UpdatedAtMs].
        rewrite Hu. apply UnixMilli_apart. apply (Hpace t now Hin Hnow Hge).
  - cbn [lastEmit emitted]. split.
    + split; [exact Hnow|]. eexists _, _. split; reflexivity.
    + rewrite Hlast. simpl. auto.
Qed.

Lemma throttle_inv_segments (l : list Time) (segs : list (string * Time)) :
  keeps_pace l -> incl (map snd segs) l ->
  forall j j', throttle_inv l j ->
    handle_segments overflow segs j = Some j' -> throttle_inv l j'.
Proof.
  intros Hpace. induction segs as [|[seg now] rest IH]; intros Hin j j' Hj Hrun.
  - cbn [handle_segments] in Hrun. injection Hrun as <-. exact Hj.
  - cbn [handle_segments] in Hrun.
    assert (Hnow : In now l) by (apply Hin; left; reflexivity).
    assert (Hrest : incl (map snd rest) l)
      by (intros t Ht; apply Hin; right; exact Ht).
    destruct (handle_segment overflow seg now j) as [j1|] eqn:Hseg; [|discriminate].
    apply (IH Hrest j1 j'); [|exact Hrun].
    unfold handle_segment in Hseg. cbv zeta in Hseg.
    destruct (hasDone (parseProgressSegment (stripANSI seg))
              || hasSpeed (parseProgressSegment (stripANSI seg))
              || hasPercent (parseProgressSegment (stripANSI seg))).
    + injection Hseg as <-. apply throttle_inv_emit; [exact Hpace | exact Hnow |].
      exact Hj.
    + cbn [outputTail] in Hseg.
      destruct (Ring.AppendLine (TrimSpace (stripANSI seg)) (outputTail j));
        [|discriminate].
      injection Hseg as <-. exact Hj.
Qed.

Lemma emit_forced (now : Time) (j : job) :
  exists u, emitted (emit overflow true now j) = emitted j ++ [u] /\
    update (emit overflow true now j) = u /\ DoneBytes u = doneBytes j /\
    EtaSeconds u = eta overflow (TotalBytes (update j)) (doneBytes j) (speedBps j).
Proof.
  unfold emit. cbn [negb andb].
  destruct (lastEmit j); eexists; repeat split.
Qed.

(** X1: provided the wall clock keeps pace with the monotonic clock over
    the readings of a job (it is not set back while the job runs), the
    snapshots [runOssutilWithProgress] emits while it reads the output of
    the process carry times ([updatedAtMs]) at least 250 ms apart,
    however fast the lines arrive; only the snapshot forced after a
    successful exit, the last one, may follow sooner. *)
Theorem snapshots_throttled
    (startCmd : string -> list string -> error + process)
    (s : OSSService) (args : list string) (u0 : TransferUpdate) :
  (forall binary proc, startCmd binary args = inr proc ->
     keeps_pace (map snd (segments proc))) ->
  exists r, runOssutilWithProgress overflow startCmd s args (Some u0) = Some r /\
    spaced 250 (map UpdatedAtMs
                  (match returned r with
                   | Some _ => snapshots r
                   | None => removelast (snapshots r)
                   end)).
Proof.
  intros Hclock.
  assert (Hafter : forall proc s' tried,
            keeps_pace (map snd (segments proc)) ->
            exists r, after_start overflow proc s' tried u0 = Some r /\
              spaced 250 (map UpdatedAtMs
                            (match returned r with
                             | Some _ => snapshots r
                             | None => removelast (snapshots r)
                             end))).
  { intros proc s' tried Hpace.
    destruct (after_start_keeps overflow (fun _ => True)) with
      (proc := proc) (s := s') (tried := tried) (u0 := u0)
      as (j & Hj & _ & Hr); auto.
    assert (Hinv : throttle_inv (map snd (segments proc)) j).
    { apply (throttle_inv_segments _ (segments proc) Hpace (incl_refl _)
               (first_job u0) j); [|exact Hj].
      split; [reflexivity | exact I]. }
    destruct Hinv as [_ Hsp].
    rewrite Hr. eexists. split; [reflexivity|].
    destruct (wait_result proc); cbn [returned snapshots].
    - exact Hsp.
    - destruct (emit_forced (exit_now proc) j) as (u & -> & _).
      rewrite removelast_last. exact Hsp. }
  rewrite run_phases.
  destruct (retries startCmd s args).
  - destruct (startCmd (fallback_path s) args) as [e|proc] eqn:Hstart.
    + eexists. split; [reflexivity|]. exact I.
    + apply Hafter. apply (Hclock _ _ Hstart).
  - destruct (startCmd (primary_path s) args) as [e|proc] eqn:Hstart.
    + eexists. split; [reflexivity|]. exact I.
    + apply Hafter. apply (Hclock _ _ Hstart).
Qed.

End ThrottleFacts.

Section ThrottleExamples.
Import Float64 Parser Engine.

Lemma steady_keeps_pace (l : list Z) : keeps_pace (map steady l).
Proof.
  intros a b Ha Hb. apply in_map_iff in Ha. apply in_map_iff in Hb.
  destruct Ha as (x & <- & _). destruct Hb as (y & <- & _).
  cbn [steady wall mono]. trivial.
Qed.

(** Three lines within 300 ms of a steady clock, then a successful
    exit. *)
Definition hasty : process :=
  {| segments := [("OK size: 100"%string, steady (1000 * 1000000));
                  ("OK size: 200"%string, steady (1100 * 1000000));
                  ("OK size: 300"%string, steady (1300 * 1000000))];
     wait_result := None; exit_now := steady (1350 * 1000000) |}.

Lemma snapshots_throttled_witness :
  keeps_pace (map snd (segments hasty)) /\
  exists r, runOssutilWithProgress amd64_overflow (starts hasty) service_0 []
              (Some queued_1000) = Some r /\
    spaced 250 (map UpdatedAtMs
                  (match returned r with
                   | Some _ => snapshots r
                   | None => removelast (snapshots r)
                   end)).
Proof.
  assert (Hpace : keeps_pace (map snd (segments hasty)))
    by exact (steady_keeps_pace [1000 * 1000000; 1100 * 1000000; 1300 * 1000000]).
  split; [exact Hpace|].
  apply (snapshots_throttled amd64_overflow (starts hasty) service_0 [] queued_1000).
  intros binary proc Hstart. injection Hstart as <-. exact Hpace.
Defined.

(** What the job of [hasty] emits: the second line, 100 ms after the
    first, is held back; the forced snapshot follows 50 ms after the
    third. *)
Remark hasty_snapshots :
  option_map (fun r => map (fun u => (DoneBytes u, UpdatedAtMs u)) (snapshots r))
    (runOssutilWithProgress amd64_overflow (starts hasty) service_0 []
       (Some queued_1000))
  = Some [(100, 1000); (300, 1300); (300, 1350)].
Proof. vm_compute. reflexivity. Qed.

(** The wall clock set back by five seconds between two lines that the
    monotonic clock puts one second apart: both snapshots are emitted,
    and the second carries the earlier time. *)
Definition set_back : process :=
  {| segments := [("OK size: 100"%string, {| wall := 10 * second; mono := 1 * second |});
                  ("OK size: 200"%string, {| wall := 6 * second; mono := 2 * second |})];
     wait_result := Some {| text := "exit status 1"; as_ExitError := true;
                            is_ErrNotFound := false; is_ErrNotExist := false;
                            is_ErrPermission := false |};
     exit_now := {| wall := 7 * second; mono := 3 * second |} |}.

Remark wall_clock_set_back :
  ~ keeps_pace (map snd (segments set_back)) /\
  option_map (fun r => map UpdatedAtMs (snapshots r))
    (runOssutilWithProgress amd64_overflow (starts set_back) service_0 []
       (Some queued_1000))
  = Some [10000; 6000].
Proof.
  split; [|vm_compute; reflexivity].
  intros H.
  specialize (H {| wall := 10 * second; mono := 1 * second |}
                {| wall := 6 * second; mono := 2 * second |}).
  cbn [set_back segments map snd wall mono] in H.
  assert (Hgap : emitInterval <= 6 * second - 10 * second).
  { apply H; [left; reflexivity | right; left; reflexivity |].
    vm_compute. discriminate. }
  vm_compute in Hgap. apply Hgap. reflexivity.
Qed.

End ThrottleExamples.

(** ** TransferRunner *)

Section RunnerFacts.
Import Limiter Float64 Parser Engine Service Runner.

(** X2: [setMaxTransferThreads] then [getMaxTransferThreads] gives the
    capacity asked for, raised to 1 when it is lower, whether the service
    had a limiter or not; a limiter that exists is kept, with the slots
    held and the callers parked. *)
Theorem max_threads_set_then_get (n : Z) (st : state) :
  getMaxTransferThreads (setMaxTransferThreads n st) = Z.max 1 n /\
  (forall l, transferLimiter st = Some l ->
     exists l', transferLimiter (setMaxTransferThreads n st) = Some l' /\
       active l' = active l /\ waiting l' = waiting l) /\
  (transferLimiter st = None ->
     exists l', transferLimiter (setMaxTransferThreads n st) = Some l' /\
       active l' = 0 /\ waiting l' = O) /\
  getMaxTransferThreads
    {| service := service st; transferLimiter := None; has_context := has_context st;
       events := events st; binaries := binaries st |} = 1.
Proof.
  unfold getMaxTransferThreads, setMaxTransferThreads.
  repeat split.
  - destruct (transferLimiter st) as [l|]; simpl;
      destruct (Z.ltb_spec n 1); lia.
  - intros l Hl. rewrite Hl. simpl. eexists. repeat split.
  - intros Hl. rewrite Hl. simpl. eexists. repeat split.
Qed.

Lemma emitTransferUpdate_on (u : TransferUpdate) (st : state) :
  has_context st = true ->
  emitTransferUpdate u st =
  {| service := service st; transferLimiter := transferLimiter st;
     has_context := true; events := events st ++ [u]; binaries := binaries st |}.
Proof. intros H. unfold emitTransferUpdate. rewrite H. reflexivity. Qed.

Lemma emitTransferUpdates_on (us : list TransferUpdate) : forall st,
  has_context st = true ->
  emitTransferUpdates us st =
  {| service := service st; transferLimiter := transferLimiter st;
     has_context := true; events := events st ++ us; binaries := binaries st |}.
Proof.
  induction us as [|u us IH]; intros st H; unfold emitTransferUpdates; simpl.
  - rewrite app_nil_r. destruct st; simpl in *; subst; reflexivity.
  - fold (emitTransferUpdates us (emitTransferUpdate u st)).
    rewrite (emitTransferUpdate_on u st H). rewrite IH by reflexivity.
    simpl. rewrite <- app_assoc. reflexivity.
Qed.

Lemma emitTransferUpdate_rest (u : TransferUpdate) (st : state) :
  service (emitTransferUpdate u st) = service st /\
  transferLimiter (emitTransferUpdate u st) = transferLimiter st /\
  has_context (emitTransferUpdate u st) = has_context st /\
  binaries (emitTransferUpdate u st) = binaries st.
Proof. unfold emitTransferUpdate. destruct (has_context st) eqn:H; simpl; auto. Qed.

Lemma emitTransferUpdates_rest (us : list TransferUpdate) : forall st,
  service (emitTransferUpdates us st) = service st /\
  transferLimiter (emitTransferUpdates us st) = transferLimiter st /\
  has_context (emitTransferUpdates us st) = has_context st /\
  binaries (emitTransferUpdates us st) = binaries st.
Proof.
  induction us as [|u us IH]; intros st; unfold emitTransferUpdates; simpl; [auto|].
  fold (emitTransferUpdates us (emitTransferUpdate u st)).
  destruct (IH (emitTransferUpdate u st)) as (H1 & H2 & H3 & H4).
  destruct (emitTransferUpdate_rest u st) as (G1 & G2 & G3 & G4).
  repeat split; congruence.
Qed.

(** What [emit] leaves as it is in a record: all but [doneBytes],
    [speedBytesPerSec], [etaSeconds] and [updatedAtMs]. *)
Definition kept (u0 u : TransferUpdate) : Prop :=
  ID u = ID u0 /\ Type_ u = Type_ u0 /\ Status u = Status u0 /\ Engine.Name u = Engine.Name u0 /\
  Bucket u = Bucket u0 /\ Key u = Key u0 /\ LocalPath u = LocalPath u0 /\
  TotalBytes u = TotalBytes u0 /\ Message u = Message u0 /\
  StartedAtMs u = StartedAtMs u0 /\ FinishedAtMs u = FinishedAtMs u0.

Lemma kept_refl (u : TransferUpdate) : kept u u.
Proof. unfold kept. repeat split. Qed.

Section OneRun.

Variable overflow : float64 -> Z.
Variable u0 : TransferUpdate.

Definition kept_inv (j : job) : Prop :=
  kept u0 (update j) /\ Forall (kept u0) (emitted j).

Lemma kept_inv_emit (force : bool) (now : Time) (j : job) :
  kept_inv j -> kept_inv (emit overflow force now j).
Proof.
  intros [Hu Hall]. unfold emit.
  destruct (match lastEmit j with
            | Some last => negb force && (mono now - mono last <? emitInterval)
            | None => false
            end); [split; assumption|].
  assert (Hnew : kept u0
            {| ID := ID (update j); Type_ := Type_ (update j); Status := Status (update j);
               Engine.Name := Engine.Name (update j); Bucket := Bucket (update j);
               Key := Key (update j); LocalPath := LocalPath (update j);
               TotalBytes := TotalBytes (update j); DoneBytes := doneBytes j;
               SpeedBytesPerSec := speedBps j;
               EtaSeconds := eta overflow (TotalBytes (update j)) (doneBytes j) (speedBps j);
               Message := Message (update j); StartedAtMs := StartedAtMs (update j);
               UpdatedAtMs := UnixMilli (wall now); FinishedAtMs := FinishedAtMs (update j) |}).
  { unfold kept in *. simpl. exact Hu. }
  split; cbn [update emitted]; [exact Hnew|].
  apply Forall_app. split; [exact Hall|]. constructor; [exact Hnew | constructor].
Qed.

(** [runOssutilWithProgress] returns, and every snapshot and the record
    it leaves differ from the record it was given in the four fields of
    progress only. *)
Lemma run_keeps (startCmd : string -> list string -> error + process)
    (s : OSSService) (args : list string) :
  exists r u, runOssutilWithProgress overflow startCmd s args (Some u0) = Some r /\
    update_after r = Some u /\ kept u0 u /\ Forall (kept u0) (snapshots r).
Proof.
  assert (Hafter : forall proc s' tried,
            exists r u, after_start overflow proc s' tried u0 = Some r /\
              update_after r = Some u /\ kept u0 u /\ Forall (kept u0) (snapshots r)).
  { intros proc s' tried.
    destruct (after_start_keeps overflow kept_inv) with
      (proc := proc) (s := s') (tried := tried) (u0 := u0)
      as (j & _ & Hinv & Hr).
    - intros j0 done speed tail Hj0. exact Hj0.
    - intros now j0. apply kept_inv_emit.
    - split; [apply kept_refl | constructor].
    - rewrite Hr. destruct (wait_result proc).
      + eexists _, _. split; [reflexivity|]. split; [reflexivity|]. exact Hinv.
      + eexists _, _. split; [reflexivity|]. split; [reflexivity|].
        apply (kept_inv_emit true (exit_now proc) j Hinv). }
  rewrite run_phases.
  destruct (retries startCmd s args).
  - destruct (startCmd (fallback_path s) args) as [e|proc].
    + eexists _, _. split; [reflexivity|]. split; [reflexivity|].
      split; [apply kept_refl | constructor].
    + apply Hafter.
  - destruct (startCmd (primary_path s) args) as [e|proc].
    + eexists _, _. split; [reflexivity|]. split; [reflexivity|].
      split; [apply kept_refl | constructor].
    + apply Hafter.
Qed.

End OneRun.


Section RunTransfer.

Variable OSSConfig : Type.
Variable Region Endpoint AccessKeyID AccessKeySecret : OSSConfig -> string.
Variable url_Parse_Host : string -> option string.
Variable overflow : float64 -> Z.

Let run_transfer :=
  runTransfer OSSConfig Region Endpoint AccessKeyID AccessKeySecret url_Parse_Host overflow.
Let transfer_of :=
  transfer OSSConfig Region Endpoint AccessKeyID AccessKeySecret url_Parse_Host overflow.

(** The fields that name a job and its size. *)
Definition same_job (u0 u : TransferUpdate) : Prop :=
  ID u = ID u0 /\ Type_ u = Type_ u0 /\ Engine.Name u = Engine.Name u0 /\
  Bucket u = Bucket u0 /\ Key u = Key u0 /\ LocalPath u = LocalPath u0 /\
  TotalBytes u = TotalBytes u0.

(** The arguments the tool is started with. *)
Definition command_line (config : OSSConfig) (update : TransferUpdate) : option (list string) :=
  match transfer_args OSSConfig Region AccessKeyID AccessKeySecret config update with
  | None => None
  | Some args =>
      Some (if negb (String.eqb (normalizeEndpoint url_Parse_Host (Endpoint config)) "")
            then args ++ ["--endpoint"%string;
                          normalizeEndpoint url_Parse_Host (Endpoint config)]
            else args)
  end.

Lemma transfer_args_started (config : OSSConfig) (update : TransferUpdate) (ms : Z) :
  transfer_args OSSConfig Region AccessKeyID AccessKeySecret config (set_started ms update) =
  transfer_args OSSConfig Region AccessKeyID AccessKeySecret config update.
Proof. reflexivity. Qed.

(** [transfer], by what [runOssutilWithProgress] leaves. *)
Lemma transfer_steps (config : OSSConfig) (update : TransferUpdate) (a : answers)
    (st : state) :
  let first := set_started (UnixMilli (start_now a)) update in
  let fin := UnixMilli (finish_now a) in
  match command_line config update with
  | None =>
      transfer_of config update a st =
      Some (emitTransferUpdate
              (set_finished TransferStatusError "unknown transfer type"
                 (DoneBytes update) fin first)
              (emitTransferUpdate first st))
  | Some args =>
      exists r u,
        runOssutilWithProgress overflow (startCmd a) (service st) args (Some first)
        = Some r /\
        update_after r = Some u /\ kept first u /\ Forall (kept first) (snapshots r) /\
        transfer_of config update a st =
        Some (emitTransferUpdate
                (match returned r with
                 | Some err =>
                     set_finished TransferStatusError (text err) (DoneBytes u) fin u
                 | None =>
                     set_finished TransferStatusSuccess (Message u)
                       (if 0 <? TotalBytes u then TotalBytes u else DoneBytes u) fin u
                 end)
                (emitTransferUpdates (snapshots r)
                   {| service := service_after r;
                      transferLimiter := transferLimiter st;
                      has_context := has_context st;
                      events := events (emitTransferUpdate first st);
                      binaries := binaries st ++ started r |}))
  end.
Proof.
  cbv zeta. unfold command_line, transfer_of, transfer. cbv zeta.
  rewrite transfer_args_started.
  destruct (transfer_args OSSConfig Region AccessKeyID AccessKeySecret config update)
    as [args|]; [|reflexivity].
  destruct (emitTransferUpdate_rest (set_started (UnixMilli (start_now a)) update) st)
    as (Hs & Hl & Hc & Hb).
  rewrite Hs, Hl, Hc, Hb.
  match goal with
  | |- context [runOssutilWithProgress overflow ?sc ?s ?ar (Some ?u)] =>
      destruct (run_keeps overflow u sc s ar) as (r & u' & Hr & Hu & Hk & Hall)
  end.
  exists r, u'. rewrite Hr, Hu.
  split; [reflexivity|]. split; [reflexivity|]. split; [exact Hk|]. split; [exact Hall|].
  destruct (returned r); reflexivity.
Qed.


Lemma runTransfer_enters (config : OSSConfig) (update : TransferUpdate) (a : answers)
    (st : state) :
  active (job_limiter st) < Limiter.max (job_limiter st) ->
  run_transfer config update a st =
  match transfer_of config update a (with_limiter (Acquire (job_limiter st)) st) with
  | None => None
  | Some st' => Some (Returned (with_limiter (Release (job_limiter st')) st'))
  end.
Proof.
  intros Hfree. unfold run_transfer, runTransfer.
  destruct (Z.leb_spec (Limiter.max (job_limiter st)) (active (job_limiter st))); [lia|].
  reflexivity.
Qed.

(** [transfer] returns, and leaves the limiter alone. *)
Lemma transfer_returns (config : OSSConfig) (update : TransferUpdate) (a : answers)
    (st : state) :
  exists st', transfer_of config update a st = Some st' /\
    transferLimiter st' = transferLimiter st /\ has_context st' = has_context st.
Proof.
  pose proof (transfer_steps config update a st) as H. cbv zeta in H.
  destruct (command_line config update) as [args|].
  - destruct H as (r & u & _ & _ & _ & _ & ->).
    eexists. split; [reflexivity|].
    match goal with
    | |- context [emitTransferUpdate ?x (emitTransferUpdates ?us ?st0)] =>
        destruct (emitTransferUpdate_rest x (emitTransferUpdates us st0)) as (_ & -> & -> & _);
        destruct (emitTransferUpdates_rest us st0) as (_ & -> & -> & _)
    end.
    split; reflexivity.
  - rewrite H. eexists. split; [reflexivity|].
    repeat match goal with
    | |- context [emitTransferUpdate ?x ?st0] =>
        destruct (emitTransferUpdate_rest x st0) as (_ & -> & -> & _)
    end.
    split; reflexivity.
Qed.

(** X3: [runTransfer] gives back the slot it takes. From a limiter with
    [0 <= active] (the service's, or the one of capacity 1 it creates
    when the service has none), a call either parks in [Acquire], having
    emitted nothing, or runs to its end without a panic, on every path
    (unknown type, failure, success), and then [active], [max] and the
    parked callers are what they were before the call. *)
Theorem runTransfer_returns_slot (config : OSSConfig) (update : TransferUpdate)
    (a : answers) (st : state) :
  0 <= active (job_limiter st) ->
  Limiter.max (job_limiter st) <= max_int64 ->
  exists out,
    runTransfer OSSConfig Region Endpoint AccessKeyID AccessKeySecret url_Parse_Host
      overflow config update a st = Some out /\
    match out with
    | Parked st' =>
        Limiter.max (job_limiter st) <= active (job_limiter st) /\
        transferLimiter st' =
          Some {| active := active (job_limiter st); max := Limiter.max (job_limiter st);
                  waiting := S (waiting (job_limiter st)) |} /\
        events st' = events st /\ binaries st' = binaries st
    | Returned st' =>
        active (job_limiter st) < Limiter.max (job_limiter st) /\
        transferLimiter st' = Some (job_limiter st)
    end.
Proof.
  intros Hpos Hmax.
  destruct (Z.leb_spec (Limiter.max (job_limiter st)) (active (job_limiter st))) as [Hfull|Hfree].
  - unfold runTransfer. apply Z.leb_le in Hfull. rewrite Hfull.
    eexists. split; [reflexivity|]. cbn [with_limiter transferLimiter events binaries].
    unfold Acquire. rewrite Hfull. apply Z.leb_le in Hfull. auto.
  - fold run_transfer. rewrite (runTransfer_enters config update a st Hfree).
    destruct (transfer_returns config update a (with_limiter (Acquire (job_limiter st)) st))
      as (st' & -> & Hl & _).
    eexists. split; [reflexivity|]. split; [exact Hfree|].
    cbn [with_limiter transferLimiter] in *.
    unfold job_limiter at 1. rewrite Hl.
    unfold Acquire, Release.
    destruct (Z.leb_spec (Limiter.max (job_limiter st)) (active (job_limiter st))); [lia|].
    cbn [active Limiter.max waiting].
    assert (Hin : in_int64 (active (job_limiter st) + 1))
      by (unfold in_int64, min_int64, max_int64 in *; lia).
    rewrite (wrap64_id _ Hin).
    destruct (Z.ltb_spec 0 (active (job_limiter st) + 1)); [|lia].
    replace (active (job_limiter st) + 1 - 1) with (active (job_limiter st)) by lia.
    rewrite wrap64_id by (unfold in_int64, min_int64, max_int64 in *; lia).
    destruct (job_limiter st); reflexivity.
Qed.

(** X4: the events of one job. With a context set and a free slot,
    [runTransfer] emits the record with status "in-progress" and the
    start time, then the snapshots, then exactly one terminal record,
    last: every snapshot has the status "in-progress" and differs from
    the first record only in [doneBytes], [speedBytesPerSec],
    [etaSeconds] and [updatedAtMs]; the last record has the status
    "success" or "error", [finishedAtMs = updatedAtMs], the reading of
    the clock at the end, and names the same job with the same start
    time. *)
Theorem runTransfer_events (config : OSSConfig) (update : TransferUpdate)
    (a : answers) (st : state) :
  has_context st = true ->
  active (job_limiter st) < Limiter.max (job_limiter st) ->
  exists st' middle last,
    runTransfer OSSConfig Region Endpoint AccessKeyID AccessKeySecret url_Parse_Host
      overflow config update a st = Some (Returned st') /\
    events st' =
      events st ++ set_started (UnixMilli (start_now a)) update :: middle ++ [last] /\
    Status (set_started (UnixMilli (start_now a)) update) = TransferStatusInProgress /\
    Forall (kept (set_started (UnixMilli (start_now a)) update)) middle /\
    (Status last = TransferStatusSuccess \/ Status last = TransferStatusError) /\
    FinishedAtMs last = UnixMilli (finish_now a) /\
    UpdatedAtMs last = UnixMilli (finish_now a) /\
    StartedAtMs last = UnixMilli (start_now a) /\
    same_job update last.
Proof.
  intros Hctx Hfree.
  fold run_transfer. rewrite (runTransfer_enters config update a st Hfree).
  set (st1 := with_limiter (Acquire (job_limiter st)) st).
  assert (Hctx1 : has_context st1 = true) by exact Hctx.
  pose proof (transfer_steps config update a st1) as H. cbv zeta in H.
  destruct (command_line config update) as [args|].
  - destruct H as (r & u & _ & Hu & Hk & Hall & ->).
    rewrite (emitTransferUpdate_on _ st1 Hctx1). cbn [events].
    rewrite emitTransferUpdates_on by exact Hctx1. cbn [events service transferLimiter binaries].
    rewrite emitTransferUpdate_on by reflexivity. cbn [events].
    eexists _, (snapshots r), _. split; [reflexivity|].
    split; [cbn [with_limiter events]; rewrite <- !app_assoc; reflexivity|].
    split; [reflexivity|]. split; [exact Hall|].
    destruct Hk as (K1 & K2 & K3 & K4 & K5 & K6 & K7 & K8 & K9 & K10 & K11).
    destruct (returned r); cbn [set_finished Status FinishedAtMs UpdatedAtMs StartedAtMs];
      (split; [auto|]); (split; [reflexivity|]); (split; [reflexivity|]);
      (split; [exact K10|]); unfold same_job; cbn; auto 10.
  - rewrite H.
    rewrite (emitTransferUpdate_on _ st1 Hctx1).
    rewrite emitTransferUpdate_on by reflexivity. cbn [events].
    eexists _, [], _. split; [reflexivity|].
    split; [cbn [with_limiter events app]; rewrite <- !app_assoc; reflexivity|].
    split; [reflexivity|]. split; [constructor|].
    cbn. unfold same_job. cbn. auto 12.
Qed.

(** X5: a record whose type is neither "upload" nor "download" starts no
    process: the job emits its "in-progress" record and then an "error"
    record with the message "unknown transfer type", and the service and
    the list of binaries started stay as they were. *)
Theorem runTransfer_unknown_type (config : OSSConfig) (update : TransferUpdate)
    (a : answers) (st : state) :
  Type_ update <> TransferTypeDownload ->
  Type_ update <> TransferTypeUpload ->
  has_context st = true ->
  active (job_limiter st) < Limiter.max (job_limiter st) ->
  exists st' last,
    runTransfer OSSConfig Region Endpoint AccessKeyID AccessKeySecret url_Parse_Host
      overflow config update a st = Some (Returned st') /\
    events st' = events st ++ [set_started (UnixMilli (start_now a)) update; last] /\
    Status last = TransferStatusError /\
    Message last = "unknown transfer type"%string /\
    DoneBytes last = DoneBytes update /\
    binaries st' = binaries st /\ service st' = service st.
Proof.
  intros Hd Hu Hctx Hfree.
  fold run_transfer. rewrite (runTransfer_enters config update a st Hfree).
  set (st1 := with_limiter (Acquire (job_limiter st)) st).
  assert (Hctx1 : has_context st1 = true) by exact Hctx.
  pose proof (transfer_steps config update a st1) as H. cbv zeta in H.
  assert (Hnone : command_line config update = None).
  { unfold command_line, transfer_args.
    apply String.eqb_neq in Hd. apply String.eqb_neq in Hu. rewrite Hd, Hu. reflexivity. }
  rewrite Hnone in H. rewrite H.
  rewrite (emitTransferUpdate_on _ st1 Hctx1).
  rewrite emitTransferUpdate_on by reflexivity.
  eexists _, _. split; [reflexivity|].
  cbn [with_limiter events binaries service].
  split; [rewrite <- app_assoc; reflexivity|].
  repeat split.
Qed.

Lemma command_line_known (config : OSSConfig) (update : TransferUpdate) :
  Type_ update = TransferTypeDownload \/ Type_ update = TransferTypeUpload ->
  exists args, command_line config update = Some args.
Proof.
  intros Hty. unfold command_line, transfer_args.
  destruct Hty as [H | H]; rewrite H.
  - rewrite String.eqb_refl. eexists. reflexivity.
  - change (String.eqb TransferTypeUpload TransferTypeDownload) with false.
    rewrite String.eqb_refl. eexists. reflexivity.
Qed.

(** X6: what the exit of the process makes of the job. For a record of
    type "upload" or "download", with a context set and a free slot, when
    the tool starts: exactly one binary is started; if the process exits
    with status 0 the last two events are the forced snapshot and the
    record with status "success", whose [doneBytes] is [totalBytes] when
    [totalBytes > 0] and the [doneBytes] of that snapshot otherwise, with
    the speed and the [etaSeconds] of that snapshot; if [cmd.Wait()]
    returns an error, no snapshot is forced and the last event has the
    status "error" and, as message, the text of that error alone when
    [String()] of the ring buffer is empty, and otherwise that text,
    ": " and [String()] of the ring buffer, the buffer being the fresh one
    of 16384 bytes after [AppendLine] of every line of output that is no
    progress: it holds the last 16384 bytes of these lines, and
    [String()] trims them. *)
Theorem runTransfer_process_exit (config : OSSConfig) (update : TransferUpdate)
    (a : answers) (st : state) (proc : process) :
  Type_ update = TransferTypeDownload \/ Type_ update = TransferTypeUpload ->
  (forall binary args, startCmd a binary args = inr proc) ->
  has_context st = true ->
  active (job_limiter st) < Limiter.max (job_limiter st) ->
  exists st' before last,
    runTransfer OSSConfig Region Endpoint AccessKeyID AccessKeySecret url_Parse_Host
      overflow config update a st = Some (Returned st') /\
    events st' = events st ++ before ++ [last] /\
    binaries st' = binaries st ++ [primary_path (service st)] /\
    match wait_result proc with
    | None =>
        Status last = TransferStatusSuccess /\ Message last = Message update /\
        exists earlier snapshot, before = earlier ++ [snapshot] /\
          DoneBytes last = (if 0 <? TotalBytes update then TotalBytes update
                            else DoneBytes snapshot) /\
          SpeedBytesPerSec last = SpeedBytesPerSec snapshot /\
          EtaSeconds last = EtaSeconds snapshot
    | Some e =>
        Status last = TransferStatusError /\
        (exists tail,
           Ring.AppendLines (output_lines (segments proc))
             (Ring.newRingBuffer (16 * 1024)) = Some tail /\
           Ring.String_ tail = retained_output proc /\
           Message last =
             (if String.eqb (Ring.String_ tail) ""
              then text e
              else (text e ++ ": " ++ Ring.String_ tail)%string)) /\
        DoneBytes last
        = DoneBytes (List.last before (set_started (UnixMilli (start_now a)) update))
    end.
Proof.
  intros Hty Hstart Hctx Hfree.
  fold run_transfer. rewrite (runTransfer_enters config update a st Hfree).
  set (st1 := with_limiter (Acquire (job_limiter st)) st).
  assert (Hctx1 : has_context st1 = true) by exact Hctx.
  pose proof (transfer_steps config update a st1) as H. cbv zeta in H.
  destruct (command_line_known config update Hty) as [args Hargs]. rewrite Hargs in H.
  set (first := set_started (UnixMilli (start_now a)) update) in *.
  destruct H as (r & u & Hr & Hu & Hk & Hall & ->).
  rewrite (emitTransferUpdate_on _ st1 Hctx1). cbn [events].
  rewrite emitTransferUpdates_on by exact Hctx1.
  cbn [events service transferLimiter binaries].
  rewrite emitTransferUpdate_on by reflexivity.
  eexists _, (first :: snapshots r), _.
  split; [reflexivity|].
  cbn [with_limiter events binaries service].
  split; [rewrite <- !app_assoc; reflexivity|].
  destruct (run_leaves_last overflow (startCmd a) (service st1) args first)
    as (r1 & Hr1 & Hlast).
  rewrite Hr in Hr1. injection Hr1 as <-.
  rewrite Hu in Hlast. injection Hlast as Hlast.
  rewrite run_phases in Hr.
  assert (Hno : retries (startCmd a) (service st1) args = false)
    by (unfold retries; rewrite Hstart; reflexivity).
  rewrite Hno, Hstart in Hr.
  destruct (after_start_keeps overflow (kept_inv first))
    with (proc := proc) (s := service st1) (tried := [primary_path (service st1)])
         (u0 := first)
    as (j & Hj & [Hkj _] & Hr').
  { intros j0 done speed tail Hj0. exact Hj0. }
  { intros now j0. apply kept_inv_emit. }
  { split; [apply kept_refl | constructor]. }
  rewrite Hr' in Hr. clear Hr'.
  pose proof (output_after_segments overflow proc first j Hj) as Htail.
  pose proof (handle_segments_output overflow (segments proc) (first_job first) j Hj)
    as Hlines.
  cbn [first_job outputTail] in Hlines.
  assert (Hstarted : started r = [primary_path (service st)])
    by (injection Hr as <-; destruct (wait_result proc); reflexivity).
  split; [rewrite Hstarted; reflexivity|].
  destruct (wait_result proc) as [e|].
  - assert (Hret : returned r =
              Some (if String.eqb (Ring.String_ (outputTail j)) "" then e
                    else wrap_error (text e ++ ": " ++ Ring.String_ (outputTail j)) e))
      by (injection Hr as <-; reflexivity).
    rewrite Hret. cbn [set_finished Status Message DoneBytes].
    split; [reflexivity|]. split.
    + exists (outputTail j). split; [exact Hlines|]. split; [exact Htail|].
      destruct (String.eqb (Ring.String_ (outputTail j)) ""); reflexivity.
    + rewrite Hlast. destruct (snapshots r); reflexivity.
  - destruct (emit_forced overflow (exit_now proc) j) as (v & He & Hup & Hd & _).
    assert (Hret : returned r = None) by (injection Hr as <-; reflexivity).
    assert (Hsn : snapshots r = emitted j ++ [v])
      by (injection Hr as <-; cbn [snapshots]; exact He).
    assert (Hv : u = v).
    { assert (Hua : update_after r = Some v)
        by (injection Hr as <-; cbn [update_after]; rewrite Hup; reflexivity).
      congruence. }
    rewrite Hret, Hsn, <- Hv.
    cbn [set_finished Status Message DoneBytes SpeedBytesPerSec EtaSeconds].
    destruct Hk as (K1 & K2 & K3 & K4 & K5 & K6 & K7 & K8 & K9 & K10 & K11).
    split; [reflexivity|]. split; [exact K9|].
    exists (first :: emitted j), u. split; [reflexivity|].
    rewrite K8. repeat split.
Qed.

(** X7: when no binary can be started, the job emits its "in-progress"
    record and then one "error" record, with no snapshot in between. The
    fallback is tried when the error of the primary binary is a failure
    to start, and the fallback path is not empty and differs; the message
    is "failed to start ossutil: " followed by the text of the error of
    the last attempt: the fallback's when it was tried, the primary's
    otherwise. [doneBytes] is unchanged, and the path of the service is
    left as it was. *)
Theorem runTransfer_start_failure (config : OSSConfig) (update : TransferUpdate)
    (a : answers) (st : state) (e1 e2 : error) :
  Type_ update = TransferTypeDownload \/ Type_ update = TransferTypeUpload ->
  (forall args, startCmd a (primary_path (service st)) args = inl e1) ->
  (forall args, startCmd a (fallback_path (service st)) args = inl e2) ->
  has_context st = true ->
  active (job_limiter st) < Limiter.max (job_limiter st) ->
  let retried :=
    ossutilStartFailed (Some e1)
    && negb (String.eqb (fallback_path (service st)) "")
    && negb (String.eqb (fallback_path (service st)) (primary_path (service st))) in
  exists st' last,
    runTransfer OSSConfig Region Endpoint AccessKeyID AccessKeySecret url_Parse_Host
      overflow config update a st = Some (Returned st') /\
    events st' = events st ++ [set_started (UnixMilli (start_now a)) update; last] /\
    Status last = TransferStatusError /\
    Message last
    = ("failed to start ossutil: " ++ text (if retried then e2 else e1))%string /\
    DoneBytes last = DoneBytes update /\
    service st' = service st /\
    binaries st' =
      binaries st ++ (if retried
                      then [primary_path (service st); fallback_path (service st)]
                      else [primary_path (service st)]).
Proof.
  intros Hty Hprimary Hfallback Hctx Hfree retried.
  fold run_transfer. rewrite (runTransfer_enters config update a st Hfree).
  set (st1 := with_limiter (Acquire (job_limiter st)) st).
  assert (Hctx1 : has_context st1 = true) by exact Hctx.
  pose proof (transfer_steps config update a st1) as H. cbv zeta in H.
  destruct (command_line_known config update Hty) as [args Hargs]. rewrite Hargs in H.
  set (first := set_started (UnixMilli (start_now a)) update) in *.
  destruct H as (r & u & Hr & Hu & Hk & Hall & ->).
  rewrite run_phases in Hr.
  assert (Hretries : retries (startCmd a) (service st1) args = retried).
  { unfold retries. change (service st1) with (service st).
    rewrite Hprimary. reflexivity. }
  rewrite Hretries in Hr. change (service st1) with (service st) in Hr.
  rewrite Hprimary, Hfallback in Hr.
  assert (Hr2 : r = start_failure (if retried then e2 else e1) (service st)
                      (if retried
                       then [primary_path (service st); fallback_path (service st)]
                       else [primary_path (service st)]) first).
  { destruct retried; injection Hr as <-; reflexivity. }
  clear Hr. subst r.
  cbn [start_failure snapshots returned update_after service_after started] in *.
  injection Hu as <-.
  rewrite (emitTransferUpdate_on _ st1 Hctx1). cbn [events].
  rewrite emitTransferUpdates_on by exact Hctx1.
  cbn [events service transferLimiter binaries].
  rewrite emitTransferUpdate_on by reflexivity.
  eexists _, _. split; [reflexivity|].
  cbn [with_limiter events binaries service].
  split; [rewrite <- !app_assoc; reflexivity|].
  cbn [set_finished Status Message DoneBytes wrap_error text].
  repeat split.
Qed.

(** C7 (amended): the [etaSeconds] of the records of one job. With a
    context set and a free slot, [runTransfer] emits the "in-progress"
    record, the snapshots of the [emit] closure and one terminal record.
    In each snapshot, [etaSeconds] is
    [int64(float64(totalBytes - doneBytes) / speed)] when
    [totalBytes > 0], [speed > 0] and [0 <= doneBytes <= totalBytes], and
    0 otherwise; the conversion gives the integer part of the quotient
    whenever that is an [int64]. The first record has the [etaSeconds]
    of the record queued, and the terminal record that of the record
    before it: neither is computed anew. A job of 1000 bytes whose lines
    report 200 bytes at 100 bytes per second and then 800 bytes has
    [etaSeconds = 2] in the snapshot of the second line. *)
Theorem eta_of_snapshots (config : OSSConfig) (update : TransferUpdate)
    (a : answers) (st : state) :
  in_int64 (TotalBytes update) ->
  has_context st = true ->
  active (job_limiter st) < Limiter.max (job_limiter st) ->
  (exists st' snaps last,
     runTransfer OSSConfig Region Endpoint AccessKeyID AccessKeySecret url_Parse_Host
       overflow config update a st = Some (Returned st') /\
     events st' =
       events st ++ set_started (UnixMilli (start_now a)) update :: snaps ++ [last] /\
     (forall u, In u snaps ->
        let total := TotalBytes u in
        let done := DoneBytes u in
        let speed := SpeedBytesPerSec u in
        (0 < total /\ ltb zero speed = true /\ 0 <= done <= total ->
         EtaSeconds u = to_int64 overflow (div (of_Z (total - done)) speed)) /\
        (~ (0 < total /\ ltb zero speed = true /\ 0 <= done <= total) ->
         EtaSeconds u = 0)) /\
     EtaSeconds (set_started (UnixMilli (start_now a)) update) = EtaSeconds update /\
     EtaSeconds last
     = EtaSeconds (List.last snaps (set_started (UnixMilli (start_now a)) update))) /\
  (forall f z, trunc f = Some z -> in_int64 z -> to_int64 overflow f = z) /\
  progress_of
    (runOssutilWithProgress overflow
       (starts {| segments := [("OK size: 200 Speed: 100B/s"%string, steady (1 * second));
                               ("OK size: 800"%string, steady (2 * second))];
                  wait_result := None; exit_now := steady (3 * second) |})
       service_0 [] (Some queued_1000))
  = Some [(200, 8); (800, 2); (800, 2)].
Proof.
  intros Hrange Hctx Hfree. split; [|split].
  - fold run_transfer. rewrite (runTransfer_enters config update a st Hfree).
    set (st1 := with_limiter (Acquire (job_limiter st)) st).
    assert (Hctx1 : has_context st1 = true) by exact Hctx.
    pose proof (transfer_steps config update a st1) as H. cbv zeta in H.
    set (first := set_started (UnixMilli (start_now a)) update) in *.
    destruct (command_line config update) as [args|].
    + destruct H as (r & u & Hr & Hu & _ & _ & ->).
      destruct (closure_eta overflow (startCmd a) (service st1) args first Hrange)
        as (r1 & Hr1 & Heta).
      rewrite Hr in Hr1. injection Hr1 as <-.
      destruct (run_leaves_last overflow (startCmd a) (service st1) args first)
        as (r2 & Hr2 & Hlast).
      rewrite Hr in Hr2. injection Hr2 as <-.
      rewrite Hu in Hlast. injection Hlast as Hlast.
      rewrite (emitTransferUpdate_on _ st1 Hctx1). cbn [events].
      rewrite emitTransferUpdates_on by exact Hctx1.
      cbn [events service transferLimiter binaries].
      rewrite emitTransferUpdate_on by reflexivity. cbn [events].
      eexists _, (snapshots r), _. split; [reflexivity|].
      split; [cbn [with_limiter events]; rewrite <- !app_assoc; reflexivity|].
      split; [exact Heta|]. split; [reflexivity|].
      rewrite <- Hlast. destruct (returned r); reflexivity.
    + rewrite H.
      rewrite (emitTransferUpdate_on _ st1 Hctx1).
      rewrite emitTransferUpdate_on by reflexivity. cbn [events].
      eexists _, [], _. split; [reflexivity|].
      split; [cbn [with_limiter events app]; rewrite <- !app_assoc; reflexivity|].
      split; [intros u []|]. split; reflexivity.
  - intros f z. apply to_int64_in_range.
  - vm_compute. reflexivity.
Qed.

End RunTransfer.

End RunnerFacts.

Section RunnerExamples.
Import Limiter Float64 Parser Engine Service Runner.

(** A configuration, taken as four strings; a service without a limiter
    and with a context; the answers of a world in which the tool runs as
    [proc] does. *)
Definition config_region : unit -> string := fun _ => "oss-cn-hangzhou"%string.
Definition config_endpoint : unit -> string := fun _ => ""%string.
Definition config_key_id : unit -> string := fun _ => "id"%string.
Definition config_key_secret : unit -> string := fun _ => "secret"%string.

Definition no_url : string -> option string := fun _ => None.

Definition idle : state :=
  {| service := service_0; transferLimiter := None; has_context := true;
     events := []; binaries := [] |}.

Definition busy : state :=
  {| service := service_0;
     transferLimiter := Some {| active := 3; Limiter.max := 3; waiting := 0 |};
     has_context := true; events := []; binaries := [] |}.

Definition world_of (start : string -> list string -> error + process) : answers :=
  {| start_now := 5 * second; startCmd := start; finish_now := 9 * second |}.

Definition two_lines : process :=
  {| segments := [("OK size: 200 Speed: 100B/s"%string, steady (6 * second));
                  ("OK size: 800"%string, steady (7 * second))];
     wait_result := None; exit_now := steady (8 * second) |}.

Definition sample_run (update : TransferUpdate) (a : answers) (st : state) : option run :=
  runTransfer unit config_region config_endpoint config_key_id config_key_secret
    no_url amd64_overflow tt update a st.

Lemma runTransfer_returns_slot_witness :
  (exists st', sample_run queued_1000 (world_of (starts two_lines)) idle = Some (Returned st') /\
     transferLimiter st' = Some (newTransferLimiter 1)) /\
  (exists st', sample_run queued_1000 (world_of (starts two_lines)) busy = Some (Parked st') /\
     events st' = []).
Proof.
  split.
  - destruct (runTransfer_returns_slot unit config_region config_endpoint config_key_id
                config_key_secret no_url amd64_overflow tt queued_1000
                (world_of (starts two_lines)) idle) as (out & Hout & Hcase).
    + vm_compute. discriminate.
    + vm_compute. discriminate.
    + destruct out as [st'|st'].
      * destruct Hcase as (Hfull & _). vm_compute in Hfull. exfalso. apply Hfull. reflexivity.
      * exists st'. split; [exact Hout|]. apply Hcase.
  - destruct (runTransfer_returns_slot unit config_region config_endpoint config_key_id
                config_key_secret no_url amd64_overflow tt queued_1000
                (world_of (starts two_lines)) busy) as (out & Hout & Hcase).
    + vm_compute. discriminate.
    + vm_compute. discriminate.
    + destruct out as [st'|st'].
      * exists st'. split; [exact Hout|]. apply Hcase.
      * destruct Hcase as (Hfree & _). vm_compute in Hfree. discriminate.
Defined.

Lemma runTransfer_events_witness :
  exists st' middle last,
    sample_run queued_1000 (world_of (starts two_lines)) idle = Some (Returned st') /\
    events st' = set_started 5000 queued_1000 :: middle ++ [last] /\
    (Status last = TransferStatusSuccess \/ Status last = TransferStatusError).
Proof.
  destruct (runTransfer_events unit config_region config_endpoint config_key_id
              config_key_secret no_url amd64_overflow tt queued_1000
              (world_of (starts two_lines)) idle)
    as (st' & middle & last & Hrun & Hev & _ & _ & Hlast & _).
  - reflexivity.
  - vm_compute. reflexivity.
  - exists st', middle, last. auto.
Defined.

Definition queued_move : TransferUpdate :=
  {| ID := "tr-1-2"; Type_ := "move"%string; Status := TransferStatusQueued;
     Engine.Name := "a.bin"; Bucket := "b"; Key := "p/a.bin"; LocalPath := "/tmp/a.bin";
     TotalBytes := 1000; DoneBytes := 0; SpeedBytesPerSec := zero; EtaSeconds := 0;
     Message := ""; StartedAtMs := 0; UpdatedAtMs := 1; FinishedAtMs := 0 |}.

Lemma runTransfer_unknown_type_witness :
  exists st' last,
    sample_run queued_move (world_of (starts two_lines)) idle = Some (Returned st') /\
    events st' = [set_started 5000 queued_move; last] /\
    Message last = "unknown transfer type"%string /\ binaries st' = [].
Proof.
  destruct (runTransfer_unknown_type unit config_region config_endpoint config_key_id
              config_key_secret no_url amd64_overflow tt queued_move
              (world_of (starts two_lines)) idle)
    as (st' & last & Hrun & Hev & _ & Hmsg & _ & Hbin & _).
  - vm_compute. discriminate.
  - vm_compute. discriminate.
  - reflexivity.
  - vm_compute. reflexivity.
  - exists st', last. auto.
Defined.

(** A process that prints a line of progress and two lines of output,
    and exits with status 1. *)
Definition exit_status_1 : error :=
  {| text := "exit status 1"; as_ExitError := true; is_ErrNotFound := false;
     is_ErrNotExist := false; is_ErrPermission := false |}.

Definition refused : process :=
  {| segments := [("OK size: 200 Speed: 100B/s"%string, steady (6 * second));
                  ("Error: AccessDenied"%string, steady (7 * second));
                  ("  RequestId: 5F3A  "%string, steady (7 * second))];
     wait_result := Some exit_status_1; exit_now := steady (8 * second) |}.

Lemma runTransfer_process_exit_witness :
  (exists st' before last,
     sample_run queued_1000 (world_of (starts two_lines)) idle = Some (Returned st') /\
     events st' = before ++ [last] /\
     Status last = TransferStatusSuccess /\
     exists earlier snapshot, before = earlier ++ [snapshot] /\
       DoneBytes last = 1000 /\ EtaSeconds last = EtaSeconds snapshot) /\
  (exists st' before last,
     sample_run queued_1000 (world_of (starts refused)) idle = Some (Returned st') /\
     events st' = before ++ [last] /\
     Status last = TransferStatusError /\
     Message last
     = ("exit status 1: Error: AccessDenied" ++ String LF "RequestId: 5F3A")%string).
Proof.
  split.
  - destruct (runTransfer_process_exit unit config_region config_endpoint config_key_id
                config_key_secret no_url amd64_overflow tt queued_1000
                (world_of (starts two_lines)) idle two_lines)
      as (st' & before & last & Hrun & Hev & _ & Hlast).
    + right. reflexivity.
    + reflexivity.
    + reflexivity.
    + vm_compute. reflexivity.
    + exists st', before, last. split; [exact Hrun|]. split; [exact Hev|].
      cbn [wait_result two_lines] in Hlast.
      destruct Hlast as (Hs & _ & earlier & snapshot & Hb & Hd & _ & He).
      split; [exact Hs|]. exists earlier, snapshot.
      split; [exact Hb|]. split; [exact Hd | exact He].
  - destruct (runTransfer_process_exit unit config_region config_endpoint config_key_id
                config_key_secret no_url amd64_overflow tt queued_1000
                (world_of (starts refused)) idle refused)
      as (st' & before & last & Hrun & Hev & _ & Hlast).
    + right. reflexivity.
    + reflexivity.
    + reflexivity.
    + vm_compute. reflexivity.
    + exists st', before, last. split; [exact Hrun|]. split; [exact Hev|].
      cbn [wait_result refused] in Hlast.
      destruct Hlast as (Hs & (tail & _ & Htail & Hm) & _).
      split; [exact Hs|]. rewrite Hm, Htail. vm_compute. reflexivity.
Defined.

(** A service whose configured binary is missing and whose default
    binary may not be executed. *)
Definition denied : error :=
  {| text := "fork/exec /opt/ossutil: permission denied";
     as_ExitError := false; is_ErrNotFound := false; is_ErrNotExist := false;
     is_ErrPermission := true |}.

Definition nothing_starts : string -> list string -> error + process :=
  fun binary _ =>
    if String.eqb binary "/bad/ossutil" then inl no_such_file else inl denied.

Definition misplaced : state :=
  {| service := misconfigured; transferLimiter := None; has_context := true;
     events := []; binaries := [] |}.

Lemma runTransfer_start_failure_witness :
  exists st' last,
    sample_run queued_1000 (world_of nothing_starts) misplaced = Some (Returned st') /\
    events st' = [set_started 5000 queued_1000; last] /\
    Message last
    = "failed to start ossutil: fork/exec /opt/ossutil: permission denied"%string /\
    binaries st' = ["/bad/ossutil"; "/opt/ossutil"]%string.
Proof.
  destruct (runTransfer_start_failure unit config_region config_endpoint config_key_id
              config_key_secret no_url amd64_overflow tt queued_1000
              (world_of nothing_starts) misplaced no_such_file denied)
    as (st' & last & Hrun & Hev & _ & Hmsg & _ & _ & Hbin).
  - right. reflexivity.
  - intros args. reflexivity.
  - intros args. reflexivity.
  - reflexivity.
  - vm_compute. reflexivity.
  - exists st', last. split; [exact Hrun|]. split; [exact Hev|].
    split; [exact Hmsg | exact Hbin].
Defined.

Lemma eta_of_snapshots_witness :
  in_int64 (TotalBytes queued_1000) /\
  exists st' snaps last,
    sample_run queued_1000 (world_of (starts two_lines)) idle = Some (Returned st') /\
    events st' = set_started 5000 queued_1000 :: snaps ++ [last] /\
    EtaSeconds last = EtaSeconds (List.last snaps (set_started 5000 queued_1000)).
Proof.
  assert (Hrange : in_int64 (TotalBytes queued_1000)) by (vm_compute; split; discriminate).
  split; [exact Hrange|].
  destruct (eta_of_snapshots unit config_region config_endpoint config_key_id
              config_key_secret no_url amd64_overflow tt queued_1000
              (world_of (starts two_lines)) idle Hrange)
    as ((st' & snaps & last & Hrun & Hev & _ & _ & Hlast) & _).
  - reflexivity.
  - vm_compute. reflexivity.
  - exists st', snaps, last. split; [exact Hrun|]. split; [exact Hev | exact Hlast].
Defined.

(** A process that reports a speed of 10^-17 bytes per second. *)
Definition crawling : process :=
  {| segments := [("Speed: 0.00000000000000001B/s"%string, steady (6 * second))];
     wait_result := None; exit_now := steady (8 * second) |}.

(** C7, as stated, fails, in two ways. The record of a successful job
    that [runTransfer] emits last has [doneBytes = totalBytes] and the
    [etaSeconds] of the snapshot before it: for the job of 1000 bytes
    that reports 200 bytes at 100 bytes per second and then 800 bytes,
    the three conditions hold of that record, the integer part of the
    quotient is 0, and [etaSeconds] is 2. And the integer part of the
    quotient need not be an [int64]: at 10^-17 bytes per second it is
    10^20, and the snapshot carries what the platform makes of the
    conversion, the least [int64] on amd64. *)
Lemma eta_not_truncation :
  (exists st' last,
     sample_run queued_1000 (world_of (starts two_lines)) idle = Some (Returned st') /\
     List.last (events st') queued_1000 = last /\
     Status last = TransferStatusSuccess /\
     0 < TotalBytes last /\ ltb zero (SpeedBytesPerSec last) = true /\
     0 <= DoneBytes last <= TotalBytes last /\
     trunc (div (of_Z (TotalBytes last - DoneBytes last)) (SpeedBytesPerSec last))
     = Some 0 /\
     EtaSeconds last = 2) /\
  (exists r u,
     runOssutilWithProgress amd64_overflow (starts crawling) service_0 []
       (Some queued_1000) = Some r /\
     In u (snapshots r) /\
     0 < TotalBytes u /\ ltb zero (SpeedBytesPerSec u) = true /\
     0 <= DoneBytes u <= TotalBytes u /\
     trunc (div (of_Z (TotalBytes u - DoneBytes u)) (SpeedBytesPerSec u))
     = Some (10 ^ 20) /\
     EtaSeconds u = min_int64).
Proof.
  split.
  - eexists _, _. split; [vm_compute; reflexivity|].
    split; [reflexivity|]. cbn [Status TotalBytes DoneBytes SpeedBytesPerSec EtaSeconds].
    split; [reflexivity|]. split; [reflexivity|]. split; [reflexivity|].
    split; [split; discriminate|]. split; vm_compute; reflexivity.
  - eexists _, _. split; [vm_compute; reflexivity|].
    split; [left; reflexivity|].
    cbn [TotalBytes DoneBytes SpeedBytesPerSec EtaSeconds].
    split; [reflexivity|]. split; [reflexivity|].
    split; [split; discriminate|]. split; vm_compute; reflexivity.
Qed.

End RunnerExamples.

(** ** More on the OutputLineSplitter *)

Section SplitterSegments.
Import Splitter.

Lemma split_pieces_free (l : list byte) : Forall terminator_free (split_at_terminators l).
Proof.
  induction l as [|x l IH]; simpl.
  - repeat constructor.
  - destruct (is_terminator x) eqn:Hx.
    + constructor; [reflexivity | exact IH].
    + destruct (split_at_terminators l) as [|piece pieces].
      * constructor; [|constructor]. unfold terminator_free. simpl. rewrite Hx. reflexivity.
      * inversion IH; subst. constructor; [|assumption].
        unfold terminator_free in *. simpl. rewrite Hx. assumption.
Qed.

Lemma split_nonempty (l : list byte) : split_at_terminators l <> [].
Proof.
  destruct l as [|x l]; simpl; [discriminate|].
  destruct (is_terminator x); [discriminate|].
  destruct (split_at_terminators l); discriminate.
Qed.

Lemma trimmed_lines_app (a b : list (list byte)) :
  trimmed_lines (a ++ b) = trimmed_lines a ++ trimmed_lines b.
Proof. unfold trimmed_lines. rewrite map_app, filter_app. reflexivity. Qed.

(** The inner loop, by the pieces it cuts off: they are the pieces of the
    stream that a terminator closes. *)
Lemma drain_pieces (n : nat) : forall (l : list byte) (emitted : list string),
  (List.length l < n)%nat ->
  exists r complete, drain l emitted = (r, emitted ++ trimmed_lines complete) /\
    terminator_free r /\
    forall rest, split_at_terminators (l ++ rest) =
                 complete ++ split_at_terminators (r ++ rest).
Proof.
  induction n as [|n IH]; intros l emitted Hn; [lia|].
  rewrite drain_eq. unfold IndexAny.
  destruct (first_terminator l) as [Hfree | (p & c & t & -> & Hp & Hc)].
  - rewrite index_any_free by exact Hfree. simpl.
    exists l, []. unfold trimmed_lines. simpl. rewrite app_nil_r. auto.
  - rewrite index_any_first by assumption.
    pose proof (len_nonneg p) as Hlp.
    destruct (Z.eqb_spec (0 + len p) (-1)) as [Habs|_]; [lia|].
    replace (Z.to_nat (0 + len p + 1)) with (S (List.length p)) by (unfold len; lia).
    replace (Z.to_nat (0 + len p)) with (List.length p) by (unfold len; lia).
    rewrite firstn_length_app, skipn_past_first.
    destruct (IH t (emit_nonempty (TrimSpace (string_of p)) emitted))
      as (r & complete & Hd & Hr & Heq).
    { rewrite length_app in Hn. simpl in Hn. lia. }
    exists r, (p :: complete). rewrite Hd. split; [|split; [exact Hr|]].
    + f_equal. symmetry. apply trimmed_lines_cons.
    + intros rest. rewrite <- app_assoc. simpl.
      rewrite split_first by assumption. rewrite Heq. reflexivity.
Qed.

Lemma consume_pieces (chunk pending : list byte) (emitted : list string) :
  terminator_free pending ->
  exists r complete,
    consume chunk pending emitted = (r, emitted ++ trimmed_lines complete) /\
    terminator_free r /\
    forall rest, split_at_terminators (pending ++ chunk ++ rest) =
                 complete ++ split_at_terminators (r ++ rest).
Proof.
  intros Hp. unfold consume.
  destruct (Z.ltb_spec 0 (len chunk)) as [Hpos|Hzero].
  - destruct (drain_pieces (S (List.length (pending ++ chunk))) (pending ++ chunk) emitted)
      as (r & complete & Hd & Hr & Heq); [lia|].
    exists r, complete. repeat split; try assumption.
    intros rest. rewrite app_assoc. apply Heq.
  - assert (chunk = []) as ->.
    { destruct chunk; [reflexivity|].
      rewrite len_cons in Hzero. pose proof (len_nonneg chunk). lia. }
    exists pending, []. unfold trimmed_lines. simpl. rewrite app_nil_r. auto.
Qed.

(** The pieces of the stream, the last of which no terminator closes. *)
Lemma splitOnCRLF_loop_pieces (reads : list (list byte)) (last : list byte)
    (e : read_error) :
  forall (pending : list byte) (emitted : list string),
  terminator_free pending ->
  exists r complete,
    split_at_terminators (pending ++ List.concat reads ++ last) = complete ++ [r] /\
    splitOnCRLF_loop reads last e pending emitted =
    match e with
    | EOF => (emitted ++ trimmed_lines (complete ++ [r]), None)
    | ErrOther _ => (emitted ++ trimmed_lines complete, Some e)
    end.
Proof.
  induction reads as [|chunk reads IH]; intros pending emitted Hp; simpl.
  - destruct (consume_pieces last pending emitted Hp) as (r & complete & Hc & Hr & Heq).
    rewrite Hc. specialize (Heq []). rewrite !app_nil_r in Heq.
    rewrite (split_free r Hr) in Heq.
    exists r, complete. split; [exact Heq|].
    destruct e; [|reflexivity].
    rewrite trimmed_lines_app, app_assoc.
    destruct (Z.ltb_spec 0 (len r)) as [Hpos|Hzero].
    + f_equal. unfold trimmed_lines, emit_nonempty, nonempty. simpl.
      destruct (String.eqb (TrimSpace (string_of r)) ""); simpl;
        rewrite ?app_nil_r; reflexivity.
    + assert (r = []) as ->.
      { destruct r; [reflexivity|].
        rewrite len_cons in Hzero. pose proof (len_nonneg r). lia. }
      unfold trimmed_lines at 2. simpl. rewrite app_nil_r. reflexivity.
  - destruct (consume_pieces chunk pending emitted Hp) as (r & complete & Hc & Hr & Heq).
    rewrite Hc.
    destruct (IH r (emitted ++ trimmed_lines complete) Hr) as (r' & complete' & Hsplit & Hloop).
    exists r', (complete ++ complete'). split.
    + rewrite <- app_assoc, Heq, Hsplit. rewrite app_assoc. reflexivity.
    + rewrite Hloop. destruct e; rewrite <- !app_assoc, <- trimmed_lines_app;
        rewrite <- ?app_assoc; reflexivity.
Qed.

(** X8: a read error other than [io.EOF] ends [splitOnCRLF] with that
    error; the lines emitted are those of the pieces of the stream that a
    [\r] or [\n] closes, and the unterminated rest, which [io.EOF] would
    flush, is dropped. *)
Theorem splitOnCRLF_read_error_drops_rest (reads : list (list byte)) (last : list byte)
    (msg : string) :
  splitOnCRLF reads last (ErrOther msg) =
  (trimmed_lines (removelast (split_at_terminators (List.concat reads ++ last))),
   Some (ErrOther msg)) /\
  exists rest,
    fst (splitOnCRLF reads last EOF) = fst (splitOnCRLF reads last (ErrOther msg)) ++ rest /\
    (List.length rest <= 1)%nat.
Proof.
  unfold splitOnCRLF.
  destruct (splitOnCRLF_loop_pieces reads last (ErrOther msg) [] [] eq_refl)
    as (r & complete & Hsplit & Hloop).
  destruct (splitOnCRLF_loop_pieces reads last EOF [] [] eq_refl)
    as (r' & complete' & Hsplit' & Hloop').
  simpl in Hsplit, Hsplit', Hloop, Hloop'.
  rewrite Hloop, Hloop'. rewrite Hsplit. rewrite removelast_last.
  split; [reflexivity|].
  rewrite Hsplit in Hsplit'. apply app_inj_tail in Hsplit'. destruct Hsplit' as [<- <-].
  exists (trimmed_lines [r]). cbn [fst]. split; [apply trimmed_lines_app|].
  unfold trimmed_lines. simpl. destruct (nonempty (TrimSpace (string_of r))); simpl; lia.
Qed.

Lemma TrimSpace_bytes (s : string) (c : byte) :
  In c (bytes_of (TrimSpace s)) -> In c (bytes_of s).
Proof.
  unfold TrimSpace, bytes_of, string_of. rewrite list_ascii_of_string_of_list_ascii.
  set (l := list_ascii_of_string s).
  unfold TrimRightSpace, TrimLeftSpace.
  intros Hin.
  destruct (trim_left_is_suffix space_encodings (List.length l) l) as [p Hp].
  set (m := trim_left space_encodings (List.length l) l) in *.
  destruct (trim_left_is_suffix (map (@rev byte) space_encodings) (List.length m) (rev m))
    as [q Hq].
  rewrite Hp. apply in_or_app. right.
  apply in_rev. rewrite Hq. apply in_or_app. right. apply in_rev in Hin. exact Hin.
Qed.

(** A segment as the reader of the output may rely on it. *)
Definition clean_segment (seg : string) : Prop :=
  seg <> ""%string /\ TrimSpace seg = seg /\
  forall c, In c (bytes_of seg) -> c <> CR /\ c <> LF.

Lemma trimmed_lines_clean (pieces : list (list byte)) :
  Forall terminator_free pieces -> Forall clean_segment (trimmed_lines pieces).
Proof.
  intros Hall. unfold trimmed_lines.
  induction Hall as [|p pieces Hp _ IH]; simpl; [constructor|].
  destruct (nonempty (TrimSpace (string_of p))) eqn:Hne; [|exact IH].
  constructor; [|exact IH].
  split; [|split].
  - unfold nonempty in Hne. apply negb_true_iff in Hne. apply String.eqb_neq. exact Hne.
  - apply TrimSpace_idempotent.
  - intros c Hin. apply TrimSpace_bytes in Hin.
    unfold bytes_of, string_of in Hin. rewrite list_ascii_of_string_of_list_ascii in Hin.
    unfold terminator_free in Hp. rewrite forallb_forall in Hp.
    specialize (Hp c Hin). apply negb_true_iff in Hp.
    unfold is_terminator in Hp. apply orb_false_elim in Hp. destruct Hp as [Hcr Hlf].
    unfold byte_eqb in *. apply Ascii.eqb_neq in Hcr. apply Ascii.eqb_neq in Hlf.
    split; assumption.
Qed.

(** X9: whatever the reads and however the reader ends, every segment
    [splitOnCRLF] emits is non-empty, has no white space at either end
    and contains neither [\r] nor [\n]. *)
Theorem splitOnCRLF_segments_clean (reads : list (list byte)) (last : list byte)
    (e : read_error) :
  Forall clean_segment (fst (splitOnCRLF reads last e)).
Proof.
  unfold splitOnCRLF.
  destruct (splitOnCRLF_loop_pieces reads last e [] [] eq_refl)
    as (r & complete & Hsplit & ->).
  pose proof (split_pieces_free ([] ++ List.concat reads ++ last)) as Hfree.
  rewrite Hsplit in Hfree.
  destruct e; cbn [fst app]; apply trimmed_lines_clean; [exact Hfree|].
  apply Forall_app in Hfree. apply Hfree.
Qed.

End SplitterSegments.

(** ** More on the TransferDispatcher: accepted requests and their ids *)

Section DispatcherIds.
Import Float64 Engine Dispatcher.

Variable OSSConfig : Type.

(** The id drawn at the time [ms] with the sequence number [n]. *)
Definition id_of (ms n : Z) : string :=
  ("tr-" ++ decimal ms ++ "-" ++ decimal n)%string.

(** An accepted request: no error, an id drawn from the clock and the
    next sequence number, and one record, with that id and the status
    "queued", emitted (when a context is set) and handed to the goroutine
    started. *)
Definition accepted (type : TransferType) (result : (string * option error) * world OSSConfig)
    (config : OSSConfig) (w : world OSSConfig) : Prop :=
  exists update,
    let n := (transferSeq (service OSSConfig w) + 1) mod 2 ^ 64 in
    let w' := snd result in
    fst result = (id_of (clock OSSConfig w (ticks OSSConfig w)) n, None) /\
    ID update = fst (fst result) /\
    Type_ update = type /\ Status update = TransferStatusQueued /\
    UpdatedAtMs update = clock OSSConfig w (S (ticks OSSConfig w)) /\
    events OSSConfig w' =
      events OSSConfig w ++ (if has_context OSSConfig w then [update] else []) /\
    goroutines OSSConfig w' = goroutines OSSConfig w ++ [(config, update)] /\
    transferSeq (service OSSConfig w') = n /\
    ossutilPath (service OSSConfig w') = ossutilPath (service OSSConfig w) /\
    defaultOssutilPath (service OSSConfig w') = defaultOssutilPath (service OSSConfig w) /\
    ticks OSSConfig w' = S (S (ticks OSSConfig w)) /\
    clock OSSConfig w' = clock OSSConfig w /\ stat OSSConfig w' = stat OSSConfig w /\
    has_context OSSConfig w' = has_context OSSConfig w.

Lemma EnqueueUpload_cases (config : OSSConfig) (bucket prefix localPath : string)
    (w : world OSSConfig) :
  rejected OSSConfig (EnqueueUpload OSSConfig config bucket prefix localPath w) w \/
  (~ upload_invalid OSSConfig bucket localPath w /\
   accepted TransferTypeUpload (EnqueueUpload OSSConfig config bucket prefix localPath w)
     config w).
Proof.
  unfold EnqueueUpload, rejected.
  destruct (String.eqb (TrimSpace localPath) "") eqn:Hpath; [left; eexists; reflexivity|].
  destruct (String.eqb (TrimSpace bucket) "") eqn:Hbucket; [left; eexists; reflexivity|].
  destruct (stat OSSConfig w (TrimSpace localPath)) as [e|info] eqn:Hstat;
    [left; eexists; reflexivity|].
  destruct (IsDir info) eqn:Hdir; [left; eexists; reflexivity|].
  right. apply String.eqb_neq in Hpath. apply String.eqb_neq in Hbucket. split.
  - intros [H | [H | [[e H] | (info' & H & Hd)]]]; try contradiction; congruence.
  - unfold accepted, new_id, now_ms, next_seq, emitTransferUpdate, go_runTransfer, id_of.
    cbn. destruct (has_context OSSConfig w); eexists; cbn; repeat split;
      try reflexivity; rewrite ?app_nil_r; reflexivity.
Qed.

Lemma EnqueueDownload_cases (config : OSSConfig) (bucket object localPath : string)
    (totalBytes : Z) (w : world OSSConfig) :
  rejected OSSConfig (EnqueueDownload OSSConfig config bucket object localPath totalBytes w) w \/
  (~ download_invalid bucket object localPath /\
   accepted TransferTypeDownload
     (EnqueueDownload OSSConfig config bucket object localPath totalBytes w) config w).
Proof.
  unfold EnqueueDownload, rejected.
  destruct (String.eqb (TrimSpace localPath) "") eqn:Hpath; [left; eexists; reflexivity|].
  destruct (String.eqb (TrimSpace bucket) "") eqn:Hbucket; [left; eexists; reflexivity|].
  destruct (String.eqb (TrimPrefix (TrimSpace object) "/") "") eqn:Hobject;
    [left; eexists; reflexivity|].
  right. apply String.eqb_neq in Hpath. apply String.eqb_neq in Hbucket.
  apply String.eqb_neq in Hobject. split.
  - intros [H | [H | H]]; contradiction.
  - unfold accepted, new_id, now_ms, next_seq, emitTransferUpdate, go_runTransfer, id_of.
    cbn. destruct (has_context OSSConfig w); eexists; cbn; repeat split;
      try reflexivity; rewrite ?app_nil_r; reflexivity.
Qed.

(** X11: [EnqueueUpload] and [EnqueueDownload] accept exactly the requests
    they do not reject: when the trimmed local path and bucket are not
    empty and, for an upload, [os.Stat] finds a file that is no
    directory, for a download, the trimmed object key is not empty, the
    call returns no error and the id "tr-<ms>-<n>", with <ms> the reading
    of the clock and <n> the sequence number of the service plus one; it
    emits one record with that id and the status "queued" (none without a
    context) and starts one goroutine, with the same record; the paths of
    the service stay. *)
Theorem enqueue_accepts_valid (config : OSSConfig) (bucket prefix object localPath : string)
    (totalBytes : Z) (w : world OSSConfig) :
  (~ upload_invalid OSSConfig bucket localPath w <->
   accepted TransferTypeUpload (EnqueueUpload OSSConfig config bucket prefix localPath w)
     config w) /\
  (~ download_invalid bucket object localPath <->
   accepted TransferTypeDownload
     (EnqueueDownload OSSConfig config bucket object localPath totalBytes w) config w).
Proof.
  assert (Hno : forall type result, rejected OSSConfig result w ->
                  ~ accepted type result config w).
  { intros type result [e ->] (update & Hres & _). cbn in Hres. discriminate. }
  split; split.
  - intros Hvalid.
    destruct (EnqueueUpload_cases config bucket prefix localPath w) as [Hrej | [_ Hacc]];
      [|exact Hacc].
    exfalso. apply Hvalid. clear Hvalid.
    unfold EnqueueUpload, upload_invalid in *.
    destruct (String.eqb_spec (TrimSpace localPath) ""); [auto|].
    destruct (String.eqb_spec (TrimSpace bucket) ""); [auto|].
    destruct (stat OSSConfig w (TrimSpace localPath)) as [e|info]; [eauto|].
    destruct (IsDir info) eqn:Hdir; [eauto 6|].
    destruct Hrej as [e He]. unfold new_id, now_ms, next_seq in He. cbn in He. discriminate.
  - intros Hacc Hbad.
    destruct (EnqueueUpload_cases config bucket prefix localPath w)
      as [Hrej | [Hvalid _]]; [exact (Hno _ _ Hrej Hacc) | exact (Hvalid Hbad)].
  - intros Hvalid.
    destruct (EnqueueDownload_cases config bucket object localPath totalBytes w)
      as [Hrej | [_ Hacc]]; [|exact Hacc].
    exfalso. apply Hvalid. clear Hvalid.
    unfold EnqueueDownload, download_invalid in *.
    destruct (String.eqb_spec (TrimSpace localPath) ""); [auto|].
    destruct (String.eqb_spec (TrimSpace bucket) ""); [auto|].
    destruct (String.eqb_spec (TrimPrefix (TrimSpace object) "/") ""); [auto|].
    destruct Hrej as [e He]. unfold new_id, now_ms, next_seq in He. cbn in He. discriminate.
  - intros Hacc Hbad.
    destruct (EnqueueDownload_cases config bucket object localPath totalBytes w)
      as [Hrej | [Hvalid _]]; [exact (Hno _ _ Hrej Hacc) | exact (Hvalid Hbad)].
Qed.

(** *** Ids are not drawn twice *)

Lemma string_of_uint_digits (d : Decimal.uint) :
  ~ In "-"%char (list_ascii_of_string (NilEmpty.string_of_uint d)).
Proof.
  induction d; simpl; intros H;
    try (destruct H as [H|H]; [discriminate | exact (IHd H)]); exact H.
Qed.

Lemma decimal_digits (n : Z) :
  0 <= n -> ~ In "-"%char (list_ascii_of_string (decimal n)).
Proof.
  intros Hn. unfold decimal.
  destruct n as [|p|p]; [| |lia]; unfold Z.to_int, NilEmpty.string_of_int;
    apply string_of_uint_digits.
Qed.

Lemma decimal_inj (n m : Z) : decimal n = decimal m -> n = m.
Proof.
  unfold decimal. intros H. apply DecimalZ.to_int_inj.
  pose proof (NilEmpty.isi (Z.to_int n)) as Hn.
  pose proof (NilEmpty.isi (Z.to_int m)) as Hm.
  rewrite H in Hn. congruence.
Qed.

(** What follows the last occurrence of [c] determines itself. *)
Lemma after_last (c : byte) (a1 : list byte) : forall (a2 d1 d2 : list byte),
  ~ In c d1 -> ~ In c d2 -> a1 ++ c :: d1 = a2 ++ c :: d2 -> d1 = d2.
Proof.
  induction a1 as [|x a1 IH]; intros a2 d1 d2 H1 H2 Heq.
  - destruct a2 as [|y a2]; simpl in Heq.
    + congruence.
    + injection Heq as _ Hd. exfalso. apply H1. rewrite Hd.
      apply in_or_app. right. left. reflexivity.
  - destruct a2 as [|y a2]; simpl in Heq.
    + injection Heq as _ Hd. exfalso. apply H2. rewrite <- Hd.
      apply in_or_app. right. left. reflexivity.
    + injection Heq as _ Hd. eapply IH; eassumption.
Qed.

Lemma list_of_app (a b : string) :
  list_ascii_of_string (a ++ b) = list_ascii_of_string a ++ list_ascii_of_string b.
Proof. induction a as [|c a IH]; simpl; [reflexivity | rewrite IH; reflexivity]. Qed.

Lemma id_of_inj (ms1 ms2 n1 n2 : Z) :
  0 <= n1 -> 0 <= n2 -> id_of ms1 n1 = id_of ms2 n2 -> n1 = n2.
Proof.
  intros H1 H2 Heq. unfold id_of in Heq.
  apply (f_equal list_ascii_of_string) in Heq.
  rewrite !list_of_app in Heq. cbn [list_ascii_of_string app] in Heq.
  injection Heq as Heq.
  apply after_last in Heq; try (apply decimal_digits; assumption).
  apply decimal_inj.
  rewrite <- (string_of_list_ascii_of_string (decimal n1)), Heq.
  apply string_of_list_ascii_of_string.
Qed.

(** A request to either function. *)
Inductive request :=
| Upload (bucket prefix localPath : string)
| Download (bucket object localPath : string) (totalBytes : Z).

Definition serve (config : OSSConfig) (q : request) (w : world OSSConfig)
  : (string * option error) * world OSSConfig :=
  match q with
  | Upload bucket prefix localPath => EnqueueUpload OSSConfig config bucket prefix localPath w
  | Download bucket object localPath totalBytes =>
      EnqueueDownload OSSConfig config bucket object localPath totalBytes w
  end.

(** The ids of the requests accepted, in order. *)
Fixpoint served_ids (config : OSSConfig) (qs : list request) (w : world OSSConfig)
  : list string :=
  match qs with
  | [] => []
  | q :: rest =>
      let '((id, err), w') := serve config q w in
      match err with
      | None => id :: served_ids config rest w'
      | Some _ => served_ids config rest w'
      end
  end.

Lemma serve_cases (config : OSSConfig) (q : request) (w : world OSSConfig) :
  (exists e, serve config q w = ((""%string, Some e), w)) \/
  (exists ms w',
     serve config q w =
       ((id_of ms ((transferSeq (service OSSConfig w) + 1) mod 2 ^ 64), None), w') /\
     transferSeq (service OSSConfig w') = (transferSeq (service OSSConfig w) + 1) mod 2 ^ 64).
Proof.
  destruct q as [bucket prefix localPath | bucket object localPath totalBytes]; simpl.
  - destruct (EnqueueUpload_cases config bucket prefix localPath w)
      as [Hrej | [_ (u & Hres & _ & _ & _ & _ & _ & _ & Hseq & _)]]; [left; exact Hrej|].
    right. destruct (EnqueueUpload OSSConfig config bucket prefix localPath w) as [res w'].
    cbn [fst snd] in *. subst res. eexists _, w'. split; [reflexivity | exact Hseq].
  - destruct (EnqueueDownload_cases config bucket object localPath totalBytes w)
      as [Hrej | [_ (u & Hres & _ & _ & _ & _ & _ & _ & Hseq & _)]]; [left; exact Hrej|].
    right.
    destruct (EnqueueDownload OSSConfig config bucket object localPath totalBytes w)
      as [res w'].
    cbn [fst snd] in *. subst res. eexists _, w'. split; [reflexivity | exact Hseq].
Qed.

(** Every id of a run carries a sequence number that is [i] past the
    one the run starts from, for an [i] from 1 to the number of
    requests. *)
Lemma served_ids_numbers (config : OSSConfig) (qs : list request) :
  forall w,
  Forall (fun id => exists ms i, 1 <= i <= len qs /\
            id = id_of ms ((transferSeq (service OSSConfig w) + i) mod 2 ^ 64))
         (served_ids config qs w).
Proof.
  induction qs as [|q rest IH]; intros w; cbn [served_ids]; [constructor|].
  pose proof (len_nonneg rest) as Hlen.
  destruct (serve_cases config q w) as [[e ->] | (ms & w' & -> & Hseq)].
  - eapply Forall_impl; [|apply IH].
    intros id (ms & i & Hi & ->). exists ms, i. rewrite Splitter.len_cons. split; [lia | reflexivity].
  - constructor.
    + exists ms, 1. rewrite Splitter.len_cons. split; [lia | reflexivity].
    + eapply Forall_impl; [|apply IH].
      intros id (ms' & i & Hi & ->). exists ms', (1 + i). rewrite Splitter.len_cons.
      split; [lia|]. rewrite Hseq. f_equal.
      rewrite Z.add_mod_idemp_l by lia. f_equal. lia.
Qed.

(** X12: the ids of the requests accepted are pairwise distinct, in any
    sequence of fewer than 2^64 calls of [EnqueueUpload] and
    [EnqueueDownload] on one service, whatever the clock reads. *)
Theorem enqueue_ids_distinct (config : OSSConfig) (qs : list request)
    (w : world OSSConfig) :
  len qs < 2 ^ 64 ->
  NoDup (served_ids config qs w).
Proof.
  revert w. induction qs as [|q rest IH]; intros w Hlen; cbn [served_ids]; [constructor|].
  rewrite Splitter.len_cons in Hlen. pose proof (len_nonneg rest) as Hrest.
  destruct (serve_cases config q w) as [[e ->] | (ms & w' & -> & Hseq)].
  - apply IH. lia.
  - constructor; [|apply IH; lia].
    intros Hin.
    pose proof (served_ids_numbers config rest w') as Hall.
    rewrite Forall_forall in Hall. destruct (Hall _ Hin) as (ms' & i & Hi & Heq).
    apply id_of_inj in Heq; try (apply Z.mod_pos_bound; lia).
    rewrite Hseq in Heq.
    rewrite Z.add_mod_idemp_l in Heq by lia.
    set (s := transferSeq (service OSSConfig w)) in *.
    assert (Hrem : ((s + 1 + i) - (s + 1)) mod 2 ^ 64 = 0).
    { rewrite Zminus_mod, <- Heq, Z.sub_diag. reflexivity. }
    replace (s + 1 + i - (s + 1)) with i in Hrem by lia.
    rewrite Z.mod_small in Hrem by lia. lia.
Qed.

End DispatcherIds.

(** ** [stripANSI] *)

Section StripFacts.
Import Regexp Parser.

(** A control sequence as [reANSIEsc] reads it: ESC, an opening bracket,
    parameter bytes (0x30 to 0x3f), intermediate bytes (0x20 to 0x2f) and
    a final byte (0x40 to 0x7e). *)
Record control := mkControl {
  parameters : list byte;
  intermediates : list byte;
  final : byte
}.

Definition control_ok (c : control) : bool :=
  forallb (in_range 48 63) (parameters c) &&
  forallb (in_range 32 47) (intermediates c) &&
  in_range 64 126 (final c).

Definition control_bytes (c : control) : list byte :=
  ESC :: "["%char :: parameters c ++ intermediates c ++ [final c].

(** Text in which control sequences stand. *)
Fixpoint marked (l : list (control * list byte)) : list byte :=
  match l with
  | [] => []
  | (c, text) :: rest => control_bytes c ++ text ++ marked rest
  end.

Fixpoint unmarked (l : list (control * list byte)) : list byte :=
  match l with
  | [] => []
  | (_, text) :: rest => text ++ unmarked rest
  end.

Lemma remove_all_plain_app (a b : list byte) : forall prev,
  forallb plain a = true ->
  remove_all reANSIEsc prev 0 (a ++ b) = a ++ remove_all reANSIEsc (last_of a prev) 0 b.
Proof.
  induction a as [|c a IH]; intros prev Ha; [reflexivity|].
  cbn [forallb] in Ha. apply andb_prop in Ha. destruct Ha as [Hc Ha].
  cbn [app remove_all].
  replace (match_here reANSIEsc prev (c :: a ++ b) 0) with (@None (nat * captures)).
  - rewrite IH by exact Ha. reflexivity.
  - unfold match_here, reANSIEsc. cbn [Seq exec].
    unfold plain in Hc. apply negb_true_iff in Hc. rewrite Hc. reflexivity.
Qed.

Lemma remove_all_skip (r : re) (a b : list byte) : forall prev,
  a <> [] ->
  remove_all r prev (List.length a) (a ++ b) = remove_all r (last_of a prev) 0 b.
Proof.
  induction a as [|c a IH]; intros prev Hne; [congruence|].
  cbn [List.length app remove_all].
  destruct a as [|c' a].
  - cbn. destruct b; reflexivity.
  - rewrite IH by discriminate. reflexivity.
Qed.

Lemma stops_other (lo hi : Z) (c : byte) (t : list byte) (lo' hi' : Z) :
  in_range lo' hi' c = true -> hi < lo' \/ hi' < lo -> stops (in_range lo hi) (c :: t).
Proof.
  unfold stops, in_range. intros Hc Hd.
  apply andb_prop in Hc. destruct Hc as [H1 H2].
  apply Z.leb_le in H1. apply Z.leb_le in H2.
  apply andb_false_iff.
  destruct (Z.leb_spec lo (byte_val c)); [right|left; reflexivity].
  apply Z.leb_gt. lia.
Qed.

(** The pattern matches a control sequence where it stands, all of it. *)
Lemma match_control (c : control) (rest : list byte) prev :
  control_ok c = true ->
  exists cs, match_here reANSIEsc prev (control_bytes c ++ rest) 0
             = Some (List.length (control_bytes c), cs).
Proof.
  intros Hok. unfold control_ok in Hok.
  apply andb_prop in Hok. destruct Hok as [Hok Hf].
  apply andb_prop in Hok. destruct Hok as [Hp Hi].
  exists [].
  assert (Hsteps : steps reANSIEsc (at_ prev (control_bytes c ++ rest) 0 [])
            (at_ (Some (final c)) rest (List.length (control_bytes c)) [])).
  { unfold reANSIEsc, control_bytes. cbn [Seq app].
    eapply steps_cat; [apply steps_class; reflexivity|].
    eapply steps_cat; [apply steps_class; reflexivity|].
    rewrite <- !app_assoc.
    eapply steps_cat.
    { apply steps_star; [exact Hp|].
      destruct (intermediates c) as [|i is_].
      - cbn [app]. eapply stops_other; [exact Hf | lia].
      - cbn [forallb] in Hi. apply andb_prop in Hi.
        cbn [app]. eapply stops_other; [apply Hi | lia]. }
    eapply steps_cat.
    { apply steps_star; [exact Hi|].
      cbn [app]. eapply stops_other; [exact Hf | lia]. }
    cbn [app].
    match goal with
    | |- steps _ (at_ ?p _ ?o _) _ =>
        pose proof (steps_class (in_range 64 126) (final c) rest p o [] Hf) as Hlast
    end.
    replace (List.length (ESC :: "["%char :: parameters c ++ intermediates c ++ [final c]))
      with (S (List.length (intermediates c) + (List.length (parameters c) + 2)))
      by (cbn [List.length]; rewrite !length_app; cbn [List.length]; lia).
    exact Hlast. }
  apply (steps_match _ _ _ _ _ Hsteps).
Qed.

Lemma remove_control (c : control) (rest : list byte) prev :
  control_ok c = true ->
  remove_all reANSIEsc prev 0 (control_bytes c ++ rest)
  = remove_all reANSIEsc (Some (final c)) 0 rest.
Proof.
  intros Hok. destruct (match_control c rest prev Hok) as [cs Hm].
  pose proof (remove_all_skip reANSIEsc
                ("["%char :: parameters c ++ intermediates c ++ [final c]) rest (Some ESC))
    as Hskip.
  unfold control_bytes in *. cbn [app remove_all List.length] in *.
  rewrite Hm. rewrite Hskip by discriminate.
  f_equal. unfold last_of. cbn [fold_left].
  rewrite !fold_left_app. reflexivity.
Qed.

Lemma remove_marked (l : list (control * list byte)) : forall prev,
  Forall (fun '(c, text) => control_ok c = true /\ forallb plain text = true) l ->
  remove_all reANSIEsc prev 0 (marked l) = unmarked l.
Proof.
  induction l as [|[c text] l IH]; intros prev Hall; [reflexivity|].
  inversion Hall as [|x y Hhead Hrest]; subst.
  change (control_ok c = true /\ forallb plain text = true) in Hhead.
  destruct Hhead as [Hc Ht].
  cbn [marked unmarked].
  rewrite remove_control by exact Hc.
  rewrite remove_all_plain_app by exact Ht.
  rewrite IH by exact Hrest. reflexivity.
Qed.

(** X13: [stripANSI] removes the control sequences of a text and nothing
    else: from a text without ESC in which control sequences (ESC, an
    opening bracket, parameter bytes, intermediate bytes, a final byte)
    are inserted, it gives back the text. In particular it leaves a text
    without ESC as it is. *)
Theorem stripANSI_removes_controls (text : list byte) (l : list (control * list byte)) :
  forallb plain text = true ->
  Forall (fun '(c, text) => control_ok c = true /\ forallb plain text = true) l ->
  stripANSI (string_of (text ++ marked l)) = string_of (text ++ unmarked l).
Proof.
  intros Ht Hl. unfold stripANSI, RemoveAllString, bytes_of, string_of.
  rewrite list_ascii_of_string_of_list_ascii.
  rewrite remove_all_plain_app by exact Ht.
  rewrite remove_marked by exact Hl. reflexivity.
Qed.

Lemma stripANSI_removes_controls_witness :
  stripANSI (String ESC "[1;32mOK size: 10" ++ String ESC "[0m")%string
  = "OK size: 10"%string.
Proof.
  apply (stripANSI_removes_controls []
           [ ({| parameters := bytes_of "1;32"; intermediates := []; final := "m"%char |},
              bytes_of "OK size: 10");
             ({| parameters := bytes_of "0"; intermediates := []; final := "m"%char |},
              []) ]).
  - reflexivity.
  - repeat constructor.
Defined.

(** [a] is [l] with some bytes left out. *)
Fixpoint subsequence (a l : list byte) : Prop :=
  match l with
  | [] => a = []
  | y :: l' =>
      subsequence a l' \/
      match a with
      | x :: a' => x = y /\ subsequence a' l'
      | [] => False
      end
  end.

Lemma remove_all_subsequence (r : re) (l : list byte) : forall prev skip,
  subsequence (remove_all r prev skip l) l.
Proof.
  induction l as [|c l IH]; intros prev skip; cbn [remove_all subsequence]; [reflexivity|].
  destruct skip as [|skip].
  - destruct (match_here r prev (c :: l) 0) as [[[|n] cs]|].
    + right. split; [reflexivity | apply IH].
    + left. apply IH.
    + right. split; [reflexivity | apply IH].
  - left. apply IH.
Qed.

(** X14: whatever the input, [stripANSI] only leaves bytes out: the result
    is the input with some bytes dropped, in the same order. *)
Theorem stripANSI_only_deletes (s : string) :
  subsequence (bytes_of (stripANSI s)) (bytes_of s).
Proof.
  unfold stripANSI, RemoveAllString, bytes_of, string_of.
  rewrite list_ascii_of_string_of_list_ascii. apply remove_all_subsequence.
Qed.

End StripFacts.

(** ** What a match is made of *)

Section MatcherSound.
Import Regexp.

(** [walk r a b]: the pattern [r] can take the matcher from [a] to [b]. *)
Fixpoint walk (r : re) (a b : position) : Prop :=
  match r with
  | Empty => b = a
  | Class p =>
      exists c t, ahead a = c :: t /\ p c = true /\
        b = at_ (Some c) t (S (offset a)) (groups a)
  | Cat r1 r2 => exists m, walk r1 a m /\ walk r2 m b
  | Alt r1 r2 => walk r1 a b \/ walk r2 a b
  | Star p =>
      exists ds, forallb p ds = true /\ ahead a = ds ++ ahead b /\
        offset b = (List.length ds + offset a)%nat /\ groups b = groups a
  | Capture n r1 =>
      exists m, walk r1 a m /\
        b = at_ (before m) (ahead m) (offset m) ((n, (offset a, offset m)) :: groups m)
  | WordBoundary => b = a
  | EndText => ahead a = [] /\ b = a
  end.

Lemma star_sound (p : byte -> bool) (l : list byte) : forall prev off cs (k : cont) res,
  star p prev l off cs k = Some res ->
  exists b, walk (Star p) (at_ prev l off cs) b /\
    k (before b) (ahead b) (offset b) (groups b) = Some res.
Proof.
  induction l as [|c t IH]; intros prev off cs k res H; cbn [star] in H.
  - exists (at_ prev [] off cs). split; [|exact H].
    exists []. repeat split.
  - assert (Hstop : k prev (c :: t) off cs = Some res ->
              exists b, walk (Star p) (at_ prev (c :: t) off cs) b /\
                k (before b) (ahead b) (offset b) (groups b) = Some res).
    { intros Hk. exists (at_ prev (c :: t) off cs). split; [|exact Hk].
      exists []. repeat split. }
    destruct (p c) eqn:Hc; [|exact (Hstop H)].
    destruct (star p (Some c) t (S off) cs k) as [res'|] eqn:Hs; [|exact (Hstop H)].
    injection H as <-.
    destruct (IH _ _ _ _ _ Hs) as (b & (ds & Hds & Ha & Ho & Hg) & Hk).
    exists b. split; [|exact Hk].
    exists (c :: ds). cbn [forallb ahead offset groups app List.length] in *.
    rewrite Hc, Hds, Ha, Ho, Hg. repeat split. lia.
Qed.

(** The matcher succeeds only through the continuation, called at a
    position the pattern leads to. *)
Lemma exec_sound (r : re) : forall prev l off cs (k : cont) res,
  exec r prev l off cs k = Some res ->
  exists b, walk r (at_ prev l off cs) b /\
    k (before b) (ahead b) (offset b) (groups b) = Some res.
Proof.
  induction r as [|p|r1 IH1 r2 IH2|r1 IH1 r2 IH2|p|n r1 IH1| |];
    intros prev l off cs k res H; cbn [exec] in H.
  - exists (at_ prev l off cs). split; [reflexivity | exact H].
  - destruct l as [|c t]; [discriminate|].
    destruct (p c) eqn:Hc; [|discriminate].
    exists (at_ (Some c) t (S off) cs). split; [|exact H]. exists c, t. auto.
  - destruct (IH1 _ _ _ _ _ _ H) as (m & Hm & Hk).
    destruct m as [mp ml mo mc]. cbn [before ahead offset groups] in Hk.
    destruct (IH2 _ _ _ _ _ _ Hk) as (b & Hb & Hk').
    exists b. split; [|exact Hk']. eexists. split; eassumption.
  - destruct (exec r1 prev l off cs k) as [res'|] eqn:H1.
    + injection H as <-. destruct (IH1 _ _ _ _ _ _ H1) as (b & Hb & Hk).
      exists b. split; [left; exact Hb | exact Hk].
    + destruct (IH2 _ _ _ _ _ _ H) as (b & Hb & Hk).
      exists b. split; [right; exact Hb | exact Hk].
  - apply star_sound. exact H.
  - destruct (IH1 _ _ _ _ _ _ H) as (m & Hm & Hk).
    exists (at_ (before m) (ahead m) (offset m) ((n, (off, offset m)) :: groups m)).
    split; [|exact Hk]. exists m. split; [exact Hm | reflexivity].
  - destruct (xorb (word_before prev) (word_after l)); [|discriminate].
    exists (at_ prev l off cs). split; [reflexivity | exact H].
  - destruct l; [|discriminate].
    exists (at_ prev [] off cs). split; [split; reflexivity | exact H].
Qed.

(** Patterns without a group. *)
Fixpoint groupless (r : re) : bool :=
  match r with
  | Cat r1 r2 | Alt r1 r2 => groupless r1 && groupless r2
  | Capture _ _ => false
  | _ => true
  end.

(** The position is one of the text [l]. *)
Definition in_text (l : list byte) (a : position) : Prop :=
  ahead a = skipn (offset a) l.

Lemma skipn_cons_next {A} (n : nat) : forall (l : list A) (c : A) (t : list A),
  skipn n l = c :: t -> skipn (S n) l = t.
Proof.
  induction n as [|n IH]; intros l c t H.
  - simpl in H. subst l. reflexivity.
  - destruct l as [|x l]; [discriminate|]. cbn [skipn] in H |- *.
    exact (IH l c t H).
Qed.

Lemma skipn_app_next {A} (ds : list A) : forall (n : nat) (l rest : list A),
  skipn n l = ds ++ rest -> skipn (List.length ds + n) l = rest.
Proof.
  induction ds as [|d ds IH]; intros n l rest H; [exact H|].
  cbn [app List.length] in *. apply skipn_cons_next in H.
  replace (S (List.length ds) + n)%nat with (List.length ds + S n)%nat by lia.
  apply IH. exact H.
Qed.

Lemma walk_in_text (l : list byte) (r : re) : forall a b,
  walk r a b -> in_text l a -> in_text l b.
Proof.
  unfold in_text.
  induction r as [|p|r1 IH1 r2 IH2|r1 IH1 r2 IH2|p|n r1 IH1| |];
    intros a b H Ha; cbn [walk] in H.
  - subst b. exact Ha.
  - destruct H as (c & t & Hc & _ & ->). cbn. rewrite Hc in Ha.
    symmetry. eapply skipn_cons_next. symmetry. exact Ha.
  - destruct H as (m & H1 & H2). eauto.
  - destruct H as [H|H]; eauto.
  - destruct H as (ds & _ & Hd & Ho & _). rewrite Ho. rewrite Hd in Ha.
    symmetry. apply skipn_app_next. symmetry. exact Ha.
  - destruct H as (m & Hm & ->). cbn. eauto.
  - subst b. exact Ha.
  - destruct H as [_ ->]. exact Ha.
Qed.

Lemma walk_groupless (r : re) : forall a b,
  groupless r = true -> walk r a b -> groups b = groups a.
Proof.
  induction r as [|p|r1 IH1 r2 IH2|r1 IH1 r2 IH2|p|n r1 IH1| |];
    intros a b Hg H; cbn [walk groupless] in *.
  - subst b. reflexivity.
  - destruct H as (c & t & _ & _ & ->). reflexivity.
  - apply andb_prop in Hg. destruct Hg as [G1 G2]. destruct H as (m & H1 & H2).
    rewrite (IH2 _ _ G2 H2). apply (IH1 _ _ G1 H1).
  - apply andb_prop in Hg. destruct Hg as [G1 G2]. destruct H as [H|H]; eauto.
  - destruct H as (ds & _ & _ & _ & Hgr). exact Hgr.
  - discriminate.
  - subst b. reflexivity.
  - destruct H as [_ ->]. reflexivity.
Qed.

(** The leftmost match is a match from a position of the text. *)
Lemma search_sound (r : re) (l : list byte) : forall (rest : list byte) prev off b e cs,
  rest = skipn off l ->
  search r prev rest off = Some (b, e, cs) ->
  exists prev' z, walk r (at_ prev' (skipn b l) b []) z /\ offset z = e /\ groups z = cs.
Proof.
  induction rest as [|c t IH]; intros prev off b e cs Hrest H; cbn [search] in H.
  - destruct (match_here r prev [] off) as [[e' cs']|] eqn:Hm; [|discriminate].
    injection H as <- <- <-.
    unfold match_here in Hm. apply exec_sound in Hm.
    destruct Hm as (z & Hz & Hk). injection Hk as <- <-.
    exists prev, z. rewrite <- Hrest. auto.
  - destruct (match_here r prev (c :: t) off) as [[e' cs']|] eqn:Hm.
    + injection H as <- <- <-.
      unfold match_here in Hm. apply exec_sound in Hm.
      destruct Hm as (z & Hz & Hk). injection Hk as <- <-.
      exists prev, z. rewrite <- Hrest. auto.
    + apply (IH (Some c) (S off) b e cs); [|exact H].
      symmetry. eapply skipn_cons_next. symmetry. exact Hrest.
Qed.

Lemma walk_consumes (r : re) : forall a b,
  walk r a b ->
  exists used, ahead a = used ++ ahead b /\ offset b = (List.length used + offset a)%nat.
Proof.
  induction r as [|p|r1 IH1 r2 IH2|r1 IH1 r2 IH2|p|n r1 IH1| |];
    intros a b H; cbn [walk] in H.
  - subst b. exists []. auto.
  - destruct H as (c & t & Hc & _ & ->). exists [c]. cbn. auto.
  - destruct H as (m & H1 & H2).
    destruct (IH1 _ _ H1) as (u1 & Ha1 & Ho1). destruct (IH2 _ _ H2) as (u2 & Ha2 & Ho2).
    exists (u1 ++ u2). rewrite Ha1, Ha2, Ho2, Ho1, length_app, <- app_assoc.
    split; [reflexivity | lia].
  - destruct H as [H|H]; eauto.
  - destruct H as (ds & _ & Hd & Ho & _). exists ds. auto.
  - destruct H as (m & Hm & ->). cbn. eauto.
  - subst b. exists []. auto.
  - destruct H as [_ ->]. exists []. auto.
Qed.

(** A part of the pattern without groups, passed. *)
Lemma walk_past (l : list byte) (r1 r2 : re) (a b : position) :
  groupless r1 = true -> in_text l a -> walk (Cat r1 r2) a b ->
  exists m, in_text l m /\ groups m = groups a /\ walk r2 m b.
Proof.
  intros Hg Ha (m & H1 & H2). exists m.
  split; [eapply walk_in_text; eassumption|].
  split; [eapply walk_groupless; eassumption | exact H2].
Qed.

(** A group without groups inside: what it captures is what it passes. *)
Lemma walk_group (l : list byte) (n : nat) (r : re) (a b : position) :
  groupless r = true -> in_text l a -> walk (Capture n r) a b ->
  exists m used, walk r a m /\ ahead a = used ++ ahead m /\
    in_text l b /\ groups b = [(n, (offset a, offset m))] ++ groups a /\
    sub l (offset a) (offset m) = string_of used.
Proof.
  intros Hg Ha (m & Hm & ->).
  destruct (walk_consumes r a m Hm) as (used & Hu & Ho).
  exists m, used. split; [exact Hm|]. split; [exact Hu|].
  split; [exact (walk_in_text l r a m Hm Ha)|].
  split; [cbn; rewrite (walk_groupless r a m Hg Hm); reflexivity|].
  unfold sub. rewrite <- Ha, Hu, Ho.
  replace (List.length used + offset a - offset a)%nat with (List.length used) by lia.
  rewrite firstn_length_app. reflexivity.
Qed.

Lemma walk_class_star (p q : byte -> bool) (a b : position) (used : list byte) :
  walk (Cat (Class p) (Star q)) a b -> ahead a = used ++ ahead b ->
  exists c ds, used = c :: ds /\ p c = true /\ forallb q ds = true.
Proof.
  intros (m & (c & t & Hc & Hp & ->) & (ds & Hds & Hd & _ & _)) Hu.
  cbn [ahead] in Hd. exists c, ds. split; [|auto].
  rewrite Hc, Hd in Hu. change (c :: ds ++ ahead b) with ((c :: ds) ++ ahead b) in Hu.
  apply app_inv_tail in Hu. symmetry. exact Hu.
Qed.

Lemma walk_number (a b : position) (used : list byte) :
  walk Parser.number a b -> ahead a = used ++ ahead b -> number_shape used.
Proof.
  unfold Parser.number, Plus, Opt.
  intros (m & Hint & Hfrac) Hu.
  destruct (walk_consumes _ _ _ Hint) as (u1 & Hu1 & _).
  destruct (walk_class_star _ _ _ _ u1 Hint Hu1) as (d & ds & -> & Hd & Hds).
  destruct Hfrac as [(m2 & (c & t & Hc & Hdot & ->) & Hf) | ->].
  - destruct (walk_consumes _ _ _ Hf) as (u2 & Hu2 & _).
    destruct (walk_class_star _ _ _ _ u2 Hf Hu2) as (f & fs & -> & Hfd & Hfs).
    cbn [ahead] in Hu2. apply byte_eqb_eq in Hdot. subst c.
    rewrite Hu1, Hc, Hu2 in Hu.
    assert (Heq : ((d :: ds) ++ "."%char :: f :: fs) ++ ahead b = used ++ ahead b)
      by (rewrite <- Hu, <- app_assoc; reflexivity).
    apply app_inv_tail in Heq. subst used. constructor; assumption.
  - rewrite Hu1 in Hu. apply app_inv_tail in Hu. subst used. constructor; assumption.
Qed.

End MatcherSound.

(** ** What the parser hands to [strconv] *)

Section CapturedNumbers.
Import Regexp Float64 Strconv Parser.

Definition digit_or_comma (c : byte) : bool := is_digit c || byte_eqb c ","%char.

(** Pass a part without groups; open a group; pass the rest. *)
Ltac pass Hw Ha m Hm Hg Hw' :=
  eapply walk_past in Hw; [|reflexivity|exact Ha];
  destruct Hw as (m & Hm & Hg & Hw').

Ltac open_group Hcap Ha mx used Hx Hu Hb Hg Hsub :=
  eapply walk_group in Hcap; [|reflexivity|exact Ha];
  destruct Hcap as (mx & used & Hx & Hu & Hb & Hg & Hsub).

Ltac pass_rest Hpost :=
  eapply walk_groupless in Hpost; [|reflexivity].

Lemma found_walk (r : re) (s : string) (b e : nat) (cs : captures) :
  search r None (bytes_of s) 0 = Some (b, e, cs) ->
  exists a z, walk r a z /\ in_text (bytes_of s) a /\ groups a = [] /\ groups z = cs.
Proof.
  intros H. apply (search_sound r (bytes_of s)) in H; [|reflexivity].
  destruct H as (prev' & z & Hw & _ & Hg).
  exists (at_ prev' (skipn b (bytes_of s)) b []), z. repeat split; assumption.
Qed.

(** Group 1 of [reOKSize] is a digit followed by digits and commas. *)
Lemma OKSize_submatch (s : string) (ms : list string) :
  FindStringSubmatch reOKSize 1 s = Some ms ->
  exists m0 c ds, ms = [m0; string_of (c :: ds)] /\
    is_digit c = true /\ forallb digit_or_comma ds = true.
Proof.
  unfold FindStringSubmatch.
  destruct (search reOKSize None (bytes_of s) 0) as [[[b e] cs]|] eqn:Hs; [|discriminate].
  intros H. injection H as <-.
  destruct (found_walk _ _ _ _ _ Hs) as (a & z & Hw & Ha & Hga & <-).
  unfold reOKSize in Hw. cbn [Seq] in Hw.
  pass Hw Ha m1 Hm1 Hg1 Hw1.
  pass Hw1 Hm1 m2 Hm2 Hg2 Hw2.
  pass Hw2 Hm2 m3 Hm3 Hg3 Hw3.
  pass Hw3 Hm3 m4 Hm4 Hg4 Hw4.
  pass Hw4 Hm4 m5 Hm5 Hg5 Hw5.
  destruct Hw5 as (m6 & Hcap & Hpost).
  open_group Hcap Hm5 mx used Hx Hu Hb_ Hg6 Hsub.
  destruct (walk_class_star _ _ _ _ used Hx Hu) as (c & ds & -> & Hc & Hds).
  pass_rest Hpost.
  rewrite Hpost, Hg6. cbn [seq map app group_span Nat.eqb].
  rewrite Hsub. eexists _, c, ds. split; [reflexivity|]. split; assumption.
Qed.

(** Group 1 of [reProgress] is digits, or digits, a point and digits. *)
Lemma Progress_submatch (s : string) (ms : list string) :
  FindStringSubmatch reProgress 1 s = Some ms ->
  exists m0 num, ms = [m0; string_of num] /\ number_shape num.
Proof.
  unfold FindStringSubmatch.
  destruct (search reProgress None (bytes_of s) 0) as [[[b e] cs]|] eqn:Hs; [|discriminate].
  intros H. injection H as <-.
  destruct (found_walk _ _ _ _ _ Hs) as (a & z & Hw & Ha & Hga & <-).
  unfold reProgress in Hw. cbn [Seq] in Hw.
  pass Hw Ha m1 Hm1 Hg1 Hw1.
  pass Hw1 Hm1 m2 Hm2 Hg2 Hw2.
  pass Hw2 Hm2 m3 Hm3 Hg3 Hw3.
  destruct Hw3 as (m4 & Hcap & Hpost).
  open_group Hcap Hm3 mx used Hx Hu Hb_ Hg4 Hsub.
  pass_rest Hpost.
  rewrite Hpost, Hg4. cbn [seq map app group_span Nat.eqb].
  rewrite Hsub. eexists _, used. split; [reflexivity|].
  exact (walk_number _ _ _ Hx Hu).
Qed.

(** So is group 1 of [reSpeedUnit]. *)
Lemma SpeedUnit_submatch (s : string) (ms : list string) :
  FindStringSubmatch reSpeedUnit 2 s = Some ms ->
  exists m0 num unit_prefix, ms = [m0; string_of num; unit_prefix] /\ number_shape num.
Proof.
  unfold FindStringSubmatch.
  destruct (search reSpeedUnit None (bytes_of s) 0) as [[[b e] cs]|] eqn:Hs; [|discriminate].
  intros H. injection H as <-.
  destruct (found_walk _ _ _ _ _ Hs) as (a & z & Hw & Ha & Hga & <-).
  unfold reSpeedUnit in Hw. cbn [Seq] in Hw.
  pass Hw Ha m1 Hm1 Hg1 Hw1.
  pass Hw1 Hm1 m2 Hm2 Hg2 Hw2.
  pass Hw2 Hm2 m3 Hm3 Hg3 Hw3.
  destruct Hw3 as (m4 & Hcap & Hpost).
  open_group Hcap Hm3 mx used Hx Hu Hm4 Hg4 Hsub.
  pass Hpost Hm4 m5 Hm5 Hg5 Hw5.
  destruct Hw5 as (m6 & Hcap2 & Hpost2).
  open_group Hcap2 Hm5 my used2 Hx_ Hu_ Hb_ Hg6 Hsub2.
  pass_rest Hpost2.
  rewrite Hpost2, Hg6, Hg5, Hg4. cbn [seq map app group_span Nat.eqb].
  rewrite Hsub. eexists _, used, _. split; [reflexivity|].
  exact (walk_number _ _ _ Hx Hu).
Qed.

Ltac by_byte c := destruct c as [[] [] [] [] [] [] [] []].

Lemma digits_val_nonneg (l : list byte) : forall acc v,
  0 <= acc -> digits_val acc l = Some v -> 0 <= v.
Proof.
  induction l as [|c l IH]; intros acc v Hacc H; cbn [digits_val] in H.
  - injection H as <-. exact Hacc.
  - destruct (is_digit c) eqn:Hc; [|discriminate].
    apply (IH _ _) in H; [exact H|].
    unfold is_digit, in_range in Hc. apply andb_prop in Hc. destruct Hc as [Hlo _].
    apply Z.leb_le in Hlo. unfold digit_val. lia.
Qed.

Lemma parseCommaInt64_range (c : byte) (ds : list byte) (v : Z) :
  is_digit c = true ->
  parseCommaInt64 (string_of (c :: ds)) = Some v -> 0 <= v <= max_int64.
Proof.
  intros Hc. unfold parseCommaInt64, remove_commas, ParseInt, bytes_of, string_of.
  rewrite !list_ascii_of_string_of_list_ascii. cbn [filter].
  assert (Hcomma : byte_eqb c ","%char = false)
    by (by_byte c; try discriminate Hc; reflexivity).
  assert (Hplus : byte_eqb c "+"%char = false)
    by (by_byte c; try discriminate Hc; reflexivity).
  assert (Hminus : byte_eqb c "-"%char = false)
    by (by_byte c; try discriminate Hc; reflexivity).
  rewrite Hcomma. cbn [negb]. rewrite Hplus, Hminus.
  destruct (digits_val 0 (c :: filter _ ds)) as [un|] eqn:Hun; [|discriminate].
  apply digits_val_nonneg in Hun; [|lia].
  cbn [negb andb]. destruct (Z.leb_spec (2 ^ 63) un) as [Hbig|Hsmall]; [discriminate|].
  intros Hret. injection Hret as <-. unfold max_int64. lia.
Qed.

(** A float that is zero or a positive number. *)
Definition unsigned_finite (f : float64) : Prop :=
  match f with
  | S754_zero s | S754_finite s _ _ => s = false
  | _ => False
  end.

(** A float that is no negative number, negative zero or negative
    infinity. *)
Definition not_negative (f : float64) : Prop :=
  match f with
  | S754_zero s | S754_finite s _ _ | S754_infinity s => s = false
  | S754_nan => True
  end.

Lemma round_not_negative (m e : Z) (l : location) :
  not_negative (binary_round_aux prec emax false m e l).
Proof.
  unfold binary_round_aux.
  destruct (shr_fexp prec emax m e l) as [mrs e'].
  destruct (shr_fexp prec emax _ e' loc_Exact) as [mrs' e''].
  destruct (shr_m mrs'); [reflexivity | | exact I].
  destruct (e'' <=? emax - prec); reflexivity.
Qed.

Lemma ParseFloat_unsigned (s : string) (v : float64) :
  ParseFloat s = Some v -> unsigned_finite v.
Proof.
  unfold ParseFloat.
  destruct (span_digits (bytes_of s)) as [ip rest].
  destruct (match rest with
            | c :: t => if byte_eqb c "."%char then span_digits t else ([], rest)
            | [] => ([], [])
            end) as [fp rest'].
  destruct rest'; [|discriminate].
  destruct (ip ++ fp); [discriminate|].
  destruct (digits_val 0 (b :: l)) as [n|]; [|discriminate].
  unfold of_decimal. destruct (n =? 0).
  - intros H. injection H as <-. reflexivity.
  - destruct (SFdiv_core_binary prec emax n 0 (10 ^ len fp) 0) as [[q e] loc].
    pose proof (round_not_negative q e loc) as Hr.
    destruct (binary_round_aux prec emax false q e loc); try discriminate;
      intros H; injection H as <-; exact Hr.
Qed.

Lemma unsigned_not_negative (f : float64) : unsigned_finite f -> not_negative f.
Proof. destruct f; simpl; auto; contradiction. Qed.

Lemma mul_1024_not_negative (x : float64) :
  not_negative x -> not_negative (mul x (of_Z 1024)).
Proof.
  intros Hx.
  change (of_Z 1024) with (S754_finite false 4503599627370496 (-42)).
  unfold mul, SFmul. destruct x as [s|s| |s m e]; simpl in Hx; subst; try exact I.
  - reflexivity.
  - reflexivity.
  - apply round_not_negative.
Qed.

Lemma speedToBps_not_negative (v : float64) (u : string) :
  not_negative v -> not_negative (speedToBps v u).
Proof.
  intros Hv. unfold speedToBps.
  repeat match goal with
  | |- context [if ?b then _ else _] => destruct b
  end; repeat apply mul_1024_not_negative; exact Hv.
Qed.

(** X15: the parser never reports a negative value. The strings it hands
    to [strconv] are unsigned: group 1 of [reOKSize] starts with a digit,
    group 1 of the two other patterns is digits with an optional
    fraction. So a byte count read is between 0 and the largest [int64],
    a percentage read is zero or a positive number, a speed read is no
    negative number; a value not read is zero. *)
Theorem parse_progress_never_negative (seg : string) :
  let p := parseProgressSegment seg in
  (if hasDone p then 0 <= Parser.doneBytes p <= max_int64 else Parser.doneBytes p = 0) /\
  (if hasPercent p then unsigned_finite (percent p) else percent p = zero) /\
  (if hasSpeed p then not_negative (Parser.speedBps p) else Parser.speedBps p = zero).
Proof.
  unfold parseProgressSegment. cbv zeta.
  set (clean := TrimPrefix (TrimSpace (stripANSI seg)) (String CR "")).
  assert (Hdone : match FindStringSubmatch reOKSize 1 clean with
                  | Some [_; m1] =>
                      match parseCommaInt64 m1 with
                      | Some v => 0 <= v <= max_int64
                      | None => True
                      end
                  | _ => True
                  end).
  { destruct (FindStringSubmatch reOKSize 1 clean) as [ms|] eqn:H; [|exact I].
    destruct (OKSize_submatch _ _ H) as (m0 & c & ds & -> & Hc & _).
    destruct (parseCommaInt64 (string_of (c :: ds))) as [v|] eqn:Hv; [|exact I].
    exact (parseCommaInt64_range c ds v Hc Hv). }
  assert (Hpct : match FindStringSubmatch reProgress 1 clean with
                 | Some [_; m1] =>
                     match ParseFloat m1 with
                     | Some v => unsigned_finite v
                     | None => True
                     end
                 | _ => True
                 end).
  { destruct (FindStringSubmatch reProgress 1 clean) as [[|m0 [|m1 [|]]]|]; try exact I.
    destruct (ParseFloat m1) as [v|] eqn:Hv; [|exact I].
    exact (ParseFloat_unsigned _ _ Hv). }
  assert (Hspd : match FindStringSubmatch reSpeedUnit 2 clean with
                 | Some [_; m1; m2] =>
                     match ParseFloat m1 with
                     | Some v => not_negative (speedToBps v m2)
                     | None => True
                     end
                 | _ => True
                 end).
  { destruct (FindStringSubmatch reSpeedUnit 2 clean) as [[|m0 [|m1 [|m2 [|]]]]|];
      try exact I.
    destruct (ParseFloat m1) as [v|] eqn:Hv; [|exact I].
    apply speedToBps_not_negative, unsigned_not_negative.
    exact (ParseFloat_unsigned _ _ Hv). }
  destruct (FindStringSubmatch reOKSize 1 clean) as [[|a0 [|a1 [|]]]|];
    destruct (FindStringSubmatch reProgress 1 clean) as [[|b0 [|b1 [|]]]|];
    destruct (FindStringSubmatch reSpeedUnit 2 clean) as [[|c0 [|c1 [|c2 [|]]]]|];
    try destruct (parseCommaInt64 a1);
    try destruct (ParseFloat b1);
    try destruct (ParseFloat c1);
    cbn; auto.
Qed.

(** X16: what the three patterns capture, on any text. When [reOKSize]
    matches, [FindStringSubmatch] returns the match and one group, a
    digit followed by digits and commas; when [reProgress] matches, the
    match and one group, digits with an optional fraction; when
    [reSpeedUnit] matches, the match and two groups, the first digits
    with an optional fraction. No sign, exponent or other spelling of a
    number reaches [strconv]. *)
Theorem submatches_are_unsigned_numbers (text : string) (ms : list string) :
  (FindStringSubmatch reOKSize 1 text = Some ms ->
   exists m0 c ds, ms = [m0; string_of (c :: ds)] /\
     is_digit c = true /\ forallb digit_or_comma ds = true) /\
  (FindStringSubmatch reProgress 1 text = Some ms ->
   exists m0 num, ms = [m0; string_of num] /\ number_shape num) /\
  (FindStringSubmatch reSpeedUnit 2 text = Some ms ->
   exists m0 num unit_prefix, ms = [m0; string_of num; unit_prefix] /\ number_shape num).
Proof.
  split; [apply OKSize_submatch|]. split; [apply Progress_submatch | apply SpeedUnit_submatch].
Qed.

End CapturedNumbers.

(** ** White space around solid text *)

Section SolidFacts.
Import Regexp.

(** A printing ASCII byte other than the space. *)
Definition solid (c : byte) : bool := in_range 33 126 c.

(** An ASCII white-space byte. *)
Definition blank (c : byte) : bool :=
  byte_eqb c TAB || byte_eqb c LF || byte_eqb c VT || byte_eqb c FF || byte_eqb c CR
  || byte_eqb c SPC.

Ltac bytewise c := destruct c as [[] [] [] [] [] [] [] []].

(** No encoding of [encs] starts with [c]. *)
Definition starts_none (encs : list (list byte)) (c : byte) : bool :=
  forallb (fun e => match e with x :: _ => negb (byte_eqb x c) | [] => false end) encs.

Lemma space_width_starts_none (encs : list (list byte)) (c : byte) (t : list byte) :
  starts_none encs c = true -> space_width encs (c :: t) = O.
Proof.
  unfold starts_none. induction encs as [|e encs IH]; intros H; cbn [space_width forallb] in *.
  - reflexivity.
  - apply andb_prop in H. destruct H as [He Hrest].
    destruct e as [|x e]; [discriminate|]. cbn [has_prefix].
    apply negb_true_iff in He. rewrite He. cbn [andb]. apply IH. exact Hrest.
Qed.

Lemma solid_starts_none (c : byte) :
  solid c = true ->
  starts_none space_encodings c = true /\
  starts_none (map (@rev byte) space_encodings) c = true.
Proof. bytewise c; intros H; try discriminate H; split; reflexivity. Qed.

Lemma blank_width (c : byte) (t : list byte) :
  blank c = true ->
  space_width space_encodings (c :: t) = 1%nat /\
  space_width (map (@rev byte) space_encodings) (c :: t) = 1%nat.
Proof.
  assert (Hnil : has_prefix t [] = true) by (destruct t; reflexivity).
  bytewise c; intros H; try discriminate H; split; simpl; rewrite ?Hnil; reflexivity.
Qed.

Lemma trim_left_blanks (encs : list (list byte)) (pad rest : list byte) :
  (forall c t, blank c = true -> space_width encs (c :: t) = 1%nat) ->
  forallb blank pad = true ->
  forall fuel, (List.length pad <= fuel)%nat ->
  trim_left encs fuel (pad ++ rest) = trim_left encs (fuel - List.length pad) rest.
Proof.
  intros Hw. induction pad as [|c pad IH]; intros Hpad fuel Hfuel.
  - rewrite Nat.sub_0_r. reflexivity.
  - cbn [forallb] in Hpad. apply andb_prop in Hpad. destruct Hpad as [Hc Hpad].
    cbn [List.length] in Hfuel. destruct fuel as [|fuel]; [lia|].
    cbn [app trim_left]. rewrite (Hw c (pad ++ rest) Hc). cbn [skipn].
    rewrite IH by (assumption || lia). reflexivity.
Qed.

(** Leading blanks go; solid text stops the trimming. *)
Lemma TrimLeftSpace_padded (pad : list byte) (c : byte) (t : list byte) :
  forallb blank pad = true -> solid c = true ->
  TrimLeftSpace (pad ++ c :: t) = c :: t.
Proof.
  intros Hpad Hc. unfold TrimLeftSpace.
  rewrite (trim_left_blanks space_encodings pad (c :: t)); try assumption.
  - apply trim_left_fixed. apply space_width_starts_none.
    exact (proj1 (solid_starts_none c Hc)).
  - intros x y Hx. exact (proj1 (blank_width x y Hx)).
  - rewrite length_app. lia.
Qed.

Lemma TrimRightSpace_padded (pad : list byte) (c : byte) (t : list byte) :
  forallb blank pad = true -> solid c = true ->
  TrimRightSpace (t ++ c :: pad) = t ++ [c].
Proof.
  intros Hpad Hc. unfold TrimRightSpace.
  replace (rev (t ++ c :: pad)) with (rev pad ++ c :: rev t)
    by (rewrite rev_app_distr; cbn [rev]; rewrite <- app_assoc; reflexivity).
  rewrite (trim_left_blanks (map (@rev byte) space_encodings) (rev pad) (c :: rev t)).
  - rewrite trim_left_fixed.
    + cbn [rev]. rewrite rev_involutive. reflexivity.
    + apply space_width_starts_none. exact (proj2 (solid_starts_none c Hc)).
  - intros x y Hx. exact (proj2 (blank_width x y Hx)).
  - rewrite forallb_forall in *. intros x Hx. apply Hpad. apply in_rev. exact Hx.
  - rewrite length_rev, length_app. cbn [List.length]. lia.
Qed.

(** Text that begins and ends with a solid byte. *)
Definition solid_ends (l : list byte) : Prop :=
  exists c t, l = c :: t /\ solid c = true /\ solid (last l c) = true.

Lemma solid_ends_split (l : list byte) :
  solid_ends l ->
  exists c t c' t', l = c :: t /\ solid c = true /\ l = t' ++ [c'] /\ solid c' = true.
Proof.
  intros (c & t & -> & Hc & Hl).
  destruct (@exists_last _ (c :: t)) as (t' & c' & Heq); [discriminate|].
  exists c, t, c', t'. repeat split; try assumption.
  rewrite Heq in Hl. rewrite last_last in Hl. exact Hl.
Qed.

Lemma TrimSpace_padded (pad1 l pad2 : list byte) :
  forallb blank pad1 = true -> forallb blank pad2 = true -> solid_ends l ->
  TrimSpace (string_of (pad1 ++ l ++ pad2)) = string_of l.
Proof.
  intros H1 H2 Hl.
  destruct (solid_ends_split l Hl) as (c & t & c' & t' & Hfirst & Hc & Hlast & Hc').
  unfold TrimSpace, bytes_of, string_of. rewrite list_ascii_of_string_of_list_ascii.
  f_equal. rewrite Hfirst at 1. cbn [app].
  rewrite TrimLeftSpace_padded by assumption.
  change (c :: t ++ pad2) with ((c :: t) ++ pad2). rewrite <- Hfirst, Hlast.
  rewrite <- app_assoc. cbn [app].
  apply TrimRightSpace_padded; assumption.
Qed.

Lemma forallb_solid_ends (l : list byte) :
  l <> [] -> forallb solid l = true -> solid_ends l.
Proof.
  intros Hne Hall. destruct l as [|c t]; [congruence|].
  exists c, t. split; [reflexivity|].
  rewrite forallb_forall in Hall. split.
  - apply Hall. left. reflexivity.
  - apply Hall.
    destruct (@exists_last _ (c :: t)) as (t' & c' & Heq); [discriminate|].
    rewrite Heq, last_last. rewrite <- Heq. rewrite Heq. apply in_or_app. right. left.
    reflexivity.
Qed.

End SolidFacts.

(** ** Regions and endpoints *)

Section EndpointFacts.
Import Regexp Strings Engine Service Sdk.

Lemma string_of_app (a b : list byte) :
  string_of (a ++ b) = (string_of a ++ string_of b)%string.
Proof. induction a as [|c a IH]; simpl; [reflexivity | rewrite IH; reflexivity]. Qed.

Lemma bytes_string (l : list byte) : bytes_of (string_of l) = l.
Proof. apply list_ascii_of_string_of_list_ascii. Qed.

Lemma string_bytes (s : string) : string_of (bytes_of s) = s.
Proof. apply string_of_list_ascii_of_string. Qed.

Lemma string_of_nonempty (l : list byte) : l <> [] -> String.eqb (string_of l) "" = false.
Proof. destruct l; [congruence | reflexivity]. Qed.

Lemma has_prefix_self (p rest : list byte) : has_prefix (p ++ rest) p = true.
Proof.
  induction p as [|c p IH]; cbn [app has_prefix].
  - destruct rest; reflexivity.
  - unfold byte_eqb. rewrite Ascii.eqb_refl. exact IH.
Qed.

Lemma TrimPrefix_there (p rest : list byte) :
  TrimPrefix (string_of (p ++ rest)) (string_of p) = string_of rest.
Proof.
  unfold TrimPrefix, HasPrefix. rewrite !bytes_string, has_prefix_self.
  f_equal. replace (String.length (string_of p)) with (List.length p).
  - rewrite skipn_app, skipn_all, Nat.sub_diag. reflexivity.
  - clear. induction p as [|c p IH]; simpl; [reflexivity | rewrite IH; reflexivity].
Qed.

Lemma TrimPrefix_absent (l p : list byte) :
  has_prefix l p = false -> TrimPrefix (string_of l) (string_of p) = string_of l.
Proof. intros H. unfold TrimPrefix, HasPrefix. rewrite !bytes_string, H. reflexivity. Qed.

Lemma solid_ends_after (p l : list byte) :
  forallb solid p = true -> l <> [] -> forallb solid l = true -> solid_ends (p ++ l).
Proof.
  intros Hp Hne Hl. apply forallb_solid_ends.
  - destruct p; [exact Hne | discriminate].
  - rewrite forallb_app, Hp, Hl. reflexivity.
Qed.

(** X17: a region may be written with or without the prefix "oss-" and
    with blanks around it: for a name of printing characters that does
    not itself begin with "oss-", [normalizeRegion] gives the name for
    both spellings, and [suggestServiceEndpoint] gives
    "oss-<name>.aliyuncs.com"; a blank region suggests no endpoint. *)
Theorem normalizeRegion_spellings (pad1 pad2 name blanks : list byte) :
  forallb blank pad1 = true -> forallb blank pad2 = true ->
  forallb blank blanks = true ->
  name <> [] -> forallb solid name = true ->
  has_prefix name (bytes_of "oss-") = false ->
  normalizeRegion (string_of (pad1 ++ bytes_of "oss-" ++ name ++ pad2)) = string_of name /\
  normalizeRegion (string_of (pad1 ++ name ++ pad2)) = string_of name /\
  suggestServiceEndpoint (string_of (pad1 ++ bytes_of "oss-" ++ name ++ pad2))
    = ("oss-" ++ string_of name ++ ".aliyuncs.com")%string /\
  suggestServiceEndpoint (string_of (pad1 ++ name ++ pad2))
    = ("oss-" ++ string_of name ++ ".aliyuncs.com")%string /\
  suggestServiceEndpoint (string_of blanks) = ""%string.
Proof.
  intros H1 H2 Hb Hne Hsolid Hpre.
  assert (Hlong : normalizeRegion (string_of (pad1 ++ bytes_of "oss-" ++ name ++ pad2))
                  = string_of name).
  { unfold normalizeRegion.
    replace (pad1 ++ bytes_of "oss-" ++ name ++ pad2)
      with (pad1 ++ (bytes_of "oss-" ++ name) ++ pad2) by (rewrite <- app_assoc; reflexivity).
    rewrite TrimSpace_padded; try assumption.
    - exact (TrimPrefix_there (bytes_of "oss-") name).
    - apply solid_ends_after; [reflexivity | assumption | assumption]. }
  assert (Hshort : normalizeRegion (string_of (pad1 ++ name ++ pad2)) = string_of name).
  { unfold normalizeRegion. rewrite TrimSpace_padded; try assumption.
    - exact (TrimPrefix_absent name (bytes_of "oss-") Hpre).
    - apply forallb_solid_ends; assumption. }
  split; [exact Hlong|]. split; [exact Hshort|].
  unfold suggestServiceEndpoint. rewrite Hlong, Hshort.
  rewrite (string_of_nonempty name Hne).
  split; [reflexivity|]. split; [reflexivity|].
  assert (Hblank : TrimSpace (string_of blanks) = ""%string).
  { unfold TrimSpace. rewrite bytes_string.
    replace (TrimLeftSpace blanks) with (@nil byte); [reflexivity|].
    unfold TrimLeftSpace. rewrite <- (app_nil_r blanks) at 2.
    rewrite (trim_left_blanks space_encodings blanks []); try assumption.
    - destruct (List.length blanks - List.length blanks)%nat; reflexivity.
    - intros x y Hx. exact (proj1 (blank_width x y Hx)).
    - lia. }
  unfold normalizeRegion. rewrite Hblank. reflexivity.
Qed.

Lemma normalizeRegion_spellings_witness :
  normalizeRegion " oss-cn-hangzhou " = "cn-hangzhou"%string /\
  normalizeRegion "cn-hangzhou" = "cn-hangzhou"%string /\
  suggestServiceEndpoint " oss-cn-hangzhou " = "oss-cn-hangzhou.aliyuncs.com"%string.
Proof.
  destruct (normalizeRegion_spellings [SPC] [SPC] (bytes_of "cn-hangzhou") [])
    as (H1 & _ & H3 & _); try reflexivity; [discriminate|].
  destruct (normalizeRegion_spellings [] [] (bytes_of "cn-hangzhou") [])
    as (_ & H2 & _); try reflexivity; [discriminate|].
  split; [exact H1|]. split; [exact H2 | exact H3].
Defined.

Lemma before_byte_free (c : byte) (l : list byte) : ~ In c (before_byte c l).
Proof.
  induction l as [|x l IH]; cbn [before_byte]; [auto|].
  destruct (byte_eqb x c) eqn:Hx; [auto|].
  intros [H|H]; [|exact (IH H)].
  subst x. unfold byte_eqb in Hx. rewrite Ascii.eqb_refl in Hx. discriminate.
Qed.

Lemma before_byte_sub (c x : byte) (l : list byte) : In x (before_byte c l) -> In x l.
Proof.
  induction l as [|y l IH]; cbn [before_byte]; [auto|].
  destruct (byte_eqb y c); [contradiction|].
  intros [H|H]; [left; exact H | right; exact (IH H)].
Qed.

Lemma before_byte_all (c : byte) (l : list byte) : ~ In c l -> before_byte c l = l.
Proof.
  induction l as [|x l IH]; intros H; cbn [before_byte]; [reflexivity|].
  destruct (byte_eqb x c) eqn:Hx.
  - apply byte_eqb_eq in Hx. subst x. exfalso. apply H. left. reflexivity.
  - rewrite IH; [reflexivity|]. intros Hin. apply H. right. exact Hin.
Qed.

Lemma before_byte_first (c : byte) (l rest : list byte) :
  ~ In c l -> before_byte c (l ++ c :: rest) = l.
Proof.
  induction l as [|x l IH]; intros H; cbn [app before_byte].
  - unfold byte_eqb. rewrite Ascii.eqb_refl. reflexivity.
  - destruct (byte_eqb x c) eqn:Hx.
    + apply byte_eqb_eq in Hx. subst x. exfalso. apply H. left. reflexivity.
    + rewrite IH; [reflexivity|]. intros Hin. apply H. right. exact Hin.
Qed.

Lemma TrimSuffix_sub (s suffix : string) (x : byte) :
  In x (bytes_of (TrimSuffix s suffix)) -> In x (bytes_of s).
Proof.
  unfold TrimSuffix. destruct (HasSuffix s suffix); [|auto].
  rewrite bytes_string. intros H.
  rewrite <- (firstn_skipn (String.length s - String.length suffix) (bytes_of s)).
  apply in_or_app. left. exact H.
Qed.

(** The separators [normalizeEndpoint] cuts at. *)
Definition separator (c : byte) : bool :=
  byte_eqb c "?"%char || byte_eqb c "#"%char || byte_eqb c "/"%char.

Lemma normalizeEndpoint_cut (url_Parse_Host : string -> option string)
    (endpoint : string) (c : byte) :
  In c (bytes_of (normalizeEndpoint url_Parse_Host endpoint)) -> separator c = false.
Proof.
  unfold normalizeEndpoint.
  destruct (String.eqb (TrimSpace endpoint) ""); [contradiction|].
  cbv zeta.
  set (e := if Contains (TrimSpace endpoint) "://" then _ else _).
  intros Hin. apply TrimSuffix_sub in Hin.
  unfold SplitN2_first in Hin. rewrite !bytes_string in Hin.
  unfold separator.
  destruct (byte_eqb c "/"%char) eqn:Hslash.
  { apply byte_eqb_eq in Hslash. subst c. exfalso. exact (before_byte_free _ _ Hin). }
  apply before_byte_sub in Hin.
  destruct (byte_eqb c "#"%char) eqn:Hhash.
  { apply byte_eqb_eq in Hhash. subst c. exfalso. exact (before_byte_free _ _ Hin). }
  apply before_byte_sub in Hin.
  destruct (byte_eqb c "?"%char) eqn:Hq.
  { apply byte_eqb_eq in Hq. subst c. exfalso. exact (before_byte_free _ _ Hin). }
  reflexivity.
Qed.

(** X18: whatever the input and whatever [url.Parse] makes of it, the
    endpoint [normalizeEndpoint] returns contains none of "?", "#" and
    "/": it is never a URL and has no path, query or fragment. *)
Theorem normalizeEndpoint_no_separator (url_Parse_Host : string -> option string)
    (endpoint : string) :
  forallb (fun c => negb (separator c))
    (bytes_of (normalizeEndpoint url_Parse_Host endpoint)) = true.
Proof.
  apply forallb_forall. intros c Hin.
  rewrite (normalizeEndpoint_cut url_Parse_Host endpoint c Hin). reflexivity.
Qed.

(** A byte of a host name. *)
Definition host_byte (c : byte) : bool := solid c && negb (separator c).

Lemma before_byte_app (c : byte) (p t : list byte) :
  ~ In c p -> before_byte c (p ++ t) = p ++ before_byte c t.
Proof.
  induction p as [|x p IH]; intros H; cbn [app before_byte]; [reflexivity|].
  destruct (byte_eqb x c) eqn:Hx.
  - apply byte_eqb_eq in Hx. subst x. exfalso. apply H. left. reflexivity.
  - rewrite IH; [reflexivity|]. intros Hin. apply H. right. exact Hin.
Qed.

Lemma host_free (p : list byte) (c : byte) :
  forallb (fun x => negb (separator x)) p = true -> separator c = true -> ~ In c p.
Proof.
  intros Hp Hc Hin. rewrite forallb_forall in Hp. specialize (Hp c Hin).
  rewrite Hc in Hp. discriminate.
Qed.

(** The three cuts leave what stands before the first separator. *)
Lemma cuts_at_first_separator (p t : list byte) (s : byte) :
  forallb (fun x => negb (separator x)) p = true -> separator s = true ->
  before_byte "/"%char (before_byte "#"%char (before_byte "?"%char (p ++ s :: t))) = p.
Proof.
  intros Hp Hs.
  assert (Hq : ~ In "?"%char p) by (apply host_free; [exact Hp | reflexivity]).
  assert (Hh : ~ In "#"%char p) by (apply host_free; [exact Hp | reflexivity]).
  assert (Hsl : ~ In "/"%char p) by (apply host_free; [exact Hp | reflexivity]).
  rewrite (before_byte_app _ p _ Hq). cbn [before_byte].
  destruct (byte_eqb s "?"%char) eqn:H1.
  - rewrite app_nil_r. rewrite (before_byte_all _ p Hh). apply before_byte_all. exact Hsl.
  - rewrite (before_byte_app _ p _ Hh). cbn [before_byte].
    destruct (byte_eqb s "#"%char) eqn:H2.
    + rewrite app_nil_r. apply before_byte_all. exact Hsl.
    + rewrite (before_byte_app _ p _ Hsl). cbn [before_byte].
      unfold separator in Hs. rewrite H1, H2 in Hs. cbn [orb] in Hs. rewrite Hs.
      apply app_nil_r.
Qed.

Lemma cuts_without_separator (p : list byte) :
  forallb (fun x => negb (separator x)) p = true ->
  before_byte "/"%char (before_byte "#"%char (before_byte "?"%char p)) = p.
Proof.
  intros Hp.
  rewrite (before_byte_all "?"%char p) by (apply host_free; [exact Hp | reflexivity]).
  rewrite (before_byte_all "#"%char p) by (apply host_free; [exact Hp | reflexivity]).
  apply before_byte_all. apply host_free; [exact Hp | reflexivity].
Qed.

Lemma String_length_of (l : list byte) : String.length (string_of l) = List.length l.
Proof. induction l as [|c l IH]; simpl; [reflexivity | rewrite IH; reflexivity]. Qed.

Lemma has_prefix_nil (l : list byte) : has_prefix l [] = true.
Proof. destruct l; reflexivity. Qed.

Lemma TrimSuffix_dot (host : list byte) :
  TrimSuffix (string_of (host ++ ["."%char])) "." = string_of host.
Proof.
  unfold TrimSuffix, HasSuffix. rewrite bytes_string, rev_app_distr.
  cbn [rev app bytes_of list_ascii_of_string has_prefix].
  rewrite has_prefix_nil. unfold byte_eqb. rewrite Ascii.eqb_refl. cbn [andb].
  rewrite String_length_of, length_app. cbn [List.length String.length].
  replace (List.length host + 1 - 1)%nat with (List.length host) by lia.
  rewrite firstn_length_app. reflexivity.
Qed.

Lemma TrimSuffix_no_dot (host : list byte) :
  last host "a"%char <> "."%char ->
  TrimSuffix (string_of host) "." = string_of host.
Proof.
  intros Hlast. unfold TrimSuffix, HasSuffix. rewrite bytes_string.
  cbn [bytes_of list_ascii_of_string rev app].
  destruct host as [|c t] using rev_ind; [reflexivity|].
  rewrite last_last in Hlast. rewrite rev_app_distr. cbn [rev app has_prefix].
  destruct (byte_eqb "."%char c) eqn:Hc; [|reflexivity].
  apply byte_eqb_eq in Hc. congruence.
Qed.

(** X19: [normalizeEndpoint] on what is no URL: from a host name (printing
    characters other than "?", "#" and "/", not ending with a dot),
    followed or not by one dot and by a path, query or fragment, with
    blanks around, it returns the host name. [url.Parse] is consulted
    only when the text contains "://". *)
Theorem normalizeEndpoint_host (url_Parse_Host : string -> option string)
    (pad1 pad2 host dot tail : list byte) :
  forallb blank pad1 = true -> forallb blank pad2 = true ->
  host <> [] -> forallb host_byte host = true -> last host "a"%char <> "."%char ->
  dot = [] \/ dot = ["."%char] ->
  tail = [] \/ (exists s t, tail = s :: t /\ separator s = true) ->
  forallb solid tail = true ->
  Contains (string_of (host ++ dot ++ tail)) "://" = false ->
  normalizeEndpoint url_Parse_Host (string_of (pad1 ++ (host ++ dot ++ tail) ++ pad2))
  = string_of host.
Proof.
  intros H1 H2 Hne Hhost Hlast Hdot Htail Hsolid Hurl.
  assert (Hhs : forallb solid host = true /\
                forallb (fun x => negb (separator x)) host = true).
  { split; apply forallb_forall; intros x Hx; rewrite forallb_forall in Hhost;
      specialize (Hhost x Hx); unfold host_byte in Hhost;
      apply andb_prop in Hhost; apply Hhost. }
  destruct Hhs as [Hhsolid Hhfree].
  assert (Hdsolid : forallb solid dot = true) by (destruct Hdot as [-> | ->]; reflexivity).
  assert (Hdfree : forallb (fun x => negb (separator x)) (host ++ dot) = true).
  { rewrite forallb_app, Hhfree. destruct Hdot as [-> | ->]; reflexivity. }
  unfold normalizeEndpoint.
  rewrite TrimSpace_padded; try assumption.
  2:{ apply forallb_solid_ends.
      - destruct host; [congruence | discriminate].
      - rewrite !forallb_app, Hhsolid, Hdsolid, Hsolid. reflexivity. }
  rewrite string_of_nonempty by (destruct host; [congruence | discriminate]).
  rewrite Hurl. cbv zeta. unfold SplitN2_first. rewrite !bytes_string.
  assert (Hcut : before_byte "/"%char
                   (before_byte "#"%char (before_byte "?"%char (host ++ dot ++ tail)))
                 = host ++ dot).
  { rewrite app_assoc. destruct Htail as [-> | (s & t & -> & Hs)].
    - rewrite app_nil_r. apply cuts_without_separator. exact Hdfree.
    - apply cuts_at_first_separator; assumption. }
  rewrite Hcut.
  destruct Hdot as [-> | ->].
  - rewrite app_nil_r. apply TrimSuffix_no_dot. exact Hlast.
  - apply TrimSuffix_dot.
Qed.

Lemma normalizeEndpoint_host_witness :
  normalizeEndpoint (fun _ => None) " oss-cn-hangzhou.aliyuncs.com./bucket?x=1 "
  = "oss-cn-hangzhou.aliyuncs.com"%string.
Proof.
  apply (normalizeEndpoint_host (fun _ => None) [SPC] [SPC]
           (bytes_of "oss-cn-hangzhou.aliyuncs.com") ["."%char] (bytes_of "/bucket?x=1"));
    try reflexivity.
  - discriminate.
  - discriminate.
  - right. reflexivity.
  - right. exists "/"%char, (bytes_of "bucket?x=1"). split; reflexivity.
Defined.

Lemma has_prefix_In (p : list byte) : forall l x,
  has_prefix l p = true -> In x p -> In x l.
Proof.
  induction p as [|c p IH]; intros l x H Hin; [contradiction|].
  destruct l as [|y l]; [discriminate|]. cbn [has_prefix] in H.
  apply andb_prop in H. destruct H as [Hc Hp]. apply byte_eqb_eq in Hc. subst y.
  destruct Hin as [-> | Hin]; [left; reflexivity | right; exact (IH l x Hp Hin)].
Qed.

Lemma no_slash_no_scheme (host scheme : string) :
  forallb (fun c => negb (separator c)) (bytes_of host) = true ->
  In "/"%char (bytes_of scheme) -> HasPrefix host scheme = false.
Proof.
  intros Hfree Hin. unfold HasPrefix.
  destruct (has_prefix (bytes_of host) (bytes_of scheme)) eqn:H; [|reflexivity].
  pose proof (has_prefix_In _ _ _ H Hin) as Hs.
  rewrite forallb_forall in Hfree. specialize (Hfree _ Hs). discriminate.
Qed.

Section WithConfig.

Variable OSSConfig : Type.
Variable Region Endpoint : OSSConfig -> string.
Variable url_Parse_Host : string -> option string.

(** X20: [sdkEndpointForConfig] returns a URL with the scheme "https"
    whenever it returns one: the two tests for a scheme never succeed,
    since the normalised endpoint has no "/" and the suggested one starts
    with "oss-". The host is the normalised endpoint or, when that is
    empty, "oss-<region>.aliyuncs.com" for the region normalised twice;
    the error is returned exactly when both are empty. *)
Theorem sdkEndpointForConfig_https (config : OSSConfig) :
  let host := normalizeEndpoint url_Parse_Host (Endpoint config) in
  let region := normalizeRegion (normalizeRegion (Region config)) in
  sdkEndpointForConfig OSSConfig Region Endpoint url_Parse_Host config =
  if negb (String.eqb host "") then (("https://" ++ host)%string, None)
  else if negb (String.eqb region "")
  then (("https://oss-" ++ region ++ ".aliyuncs.com")%string, None)
  else (""%string, Some (errors_New "missing endpoint: please set Endpoint or Region")).
Proof.
  cbv zeta. unfold sdkEndpointForConfig. cbv zeta.
  assert (Hfree : forallb (fun c => negb (separator c))
            (bytes_of (normalizeEndpoint url_Parse_Host (Endpoint config))) = true).
  { apply forallb_forall. intros c Hin.
    rewrite (normalizeEndpoint_cut url_Parse_Host (Endpoint config) c Hin). reflexivity. }
  destruct (String.eqb (normalizeEndpoint url_Parse_Host (Endpoint config)) "") eqn:He.
  - unfold suggestServiceEndpoint.
    destruct (String.eqb (normalizeRegion (normalizeRegion (Region config))) "");
      reflexivity.
  - cbn [negb]. rewrite He.
    rewrite (no_slash_no_scheme _ "http://" Hfree) by (cbn; auto 10).
    rewrite (no_slash_no_scheme _ "https://" Hfree) by (cbn; auto 10).
    reflexivity.
Qed.

End WithConfig.

(** *** Prefixes and paths *)

Lemma trim_left_byte_head (c : byte) (l : list byte) :
  match trim_left_byte c l with
  | x :: _ => byte_eqb x c = false
  | [] => True
  end.
Proof.
  induction l as [|x l IH]; cbn [trim_left_byte]; [exact I|].
  destruct (byte_eqb x c) eqn:Hx; [exact IH | exact Hx].
Qed.

Lemma TrimLeft_head (s : string) (c : byte) :
  HasPrefix (TrimLeft s c) (String c "") = false.
Proof.
  unfold HasPrefix, TrimLeft. rewrite bytes_string. cbn [bytes_of list_ascii_of_string].
  pose proof (trim_left_byte_head c (bytes_of s)) as H.
  destruct (trim_left_byte c (bytes_of s)) as [|x t]; [reflexivity|].
  cbn [has_prefix]. unfold byte_eqb in *. rewrite Ascii.eqb_sym, H. reflexivity.
Qed.

Lemma HasSuffix_added (s : string) (c : byte) :
  HasSuffix (s ++ String c "") (String c "") = true.
Proof.
  unfold HasSuffix, bytes_of. rewrite list_of_app, rev_app_distr.
  cbn [list_ascii_of_string rev app has_prefix].
  unfold byte_eqb. rewrite Ascii.eqb_refl. apply has_prefix_nil.
Qed.

Lemma HasPrefix_app_nonempty (s t : string) (c : byte) :
  s <> ""%string -> HasPrefix (s ++ t) (String c "") = HasPrefix s (String c "").
Proof.
  destruct s as [|x s]; [congruence|]. intros _. unfold HasPrefix.
  cbn [bytes_of list_ascii_of_string append has_prefix].
  rewrite !has_prefix_nil. reflexivity.
Qed.

(** X21: the prefix [normalizeObjectPrefix] returns is empty or ends with
    "/", and never begins with "/"; [normalizeObjectKey] never begins
    with "/" either. So a key built from them has no slash in front. *)
Theorem normalizeObjectPrefix_shape (prefix key : string) :
  (normalizeObjectPrefix prefix = ""%string \/
   HasSuffix (normalizeObjectPrefix prefix) "/" = true) /\
  HasPrefix (normalizeObjectPrefix prefix) "/" = false /\
  HasPrefix (normalizeObjectKey key) "/" = false.
Proof.
  unfold normalizeObjectPrefix, normalizeObjectKey. cbv zeta.
  set (p := TrimLeft (TrimSpace prefix) "/"%char).
  pose proof (TrimLeft_head (TrimSpace prefix) "/"%char) as Hp. fold p in Hp.
  split; [|split].
  - destruct (String.eqb p ""); [left; reflexivity|]. right.
    destruct (HasSuffix p "/") eqn:Hs; cbn [negb]; [exact Hs | apply HasSuffix_added].
  - destruct (String.eqb_spec p ""); [reflexivity|].
    destruct (HasSuffix p "/"); cbn [negb]; [exact Hp|].
    rewrite HasPrefix_app_nonempty by assumption. exact Hp.
  - apply TrimLeft_head.
Qed.

End EndpointFacts.

(** ** [runOssutil] *)

Section RunOssutilFacts.
Import Engine Service.

Lemma primary_path_trimmed (s : OSSService) : TrimSpace (primary_path s) = primary_path s.
Proof.
  unfold primary_path.
  destruct (String.eqb (TrimSpace (ossutilPath s)) "").
  - destruct (String.eqb (TrimSpace (defaultOssutilPath s)) "");
      [reflexivity | apply TrimSpace_idempotent].
  - destruct (String.eqb (TrimSpace (ossutilPath s)) ""); [reflexivity|].
    apply TrimSpace_idempotent.
Qed.

Lemma runOssutil_first (run : string -> list string -> list byte * option error)
    (s : OSSService) (args : list string) :
  runOssutil run s args =
  let p := primary_path s in
  let f := fallback_path s in
  if negb (ossutilStartFailed (snd (run p args))) || String.eqb f "" || String.eqb f p
  then {| output := fst (run p args); err := snd (run p args); service_then := s;
          binaries := [p] |}
  else if negb (ossutilStartFailed (snd (run f args)))
  then {| output := fst (run f args); err := snd (run f args);
          service_then := {| ossutilPath := f;
                             defaultOssutilPath := defaultOssutilPath s;
                             transferSeq := transferSeq s |};
          binaries := [p; f] |}
  else {| output := fst (run p args); err := snd (run p args); service_then := s;
          binaries := [p; f] |}.
Proof.
  unfold runOssutil, primary_path, fallback_path. cbv zeta.
  set (f := TrimSpace (defaultOssutilPath s)).
  set (p := if String.eqb (if String.eqb (TrimSpace (ossutilPath s)) "" then f
                           else TrimSpace (ossutilPath s)) ""
            then "ossutil"%string
            else if String.eqb (TrimSpace (ossutilPath s)) "" then f
                 else TrimSpace (ossutilPath s)).
  assert (Hp : (if String.eqb (if String.eqb (TrimSpace (ossutilPath s)) "" then f
                               else TrimSpace (ossutilPath s)) ""
                then "ossutil"%string
                else if String.eqb (TrimSpace (ossutilPath s)) "" then f
                     else TrimSpace (ossutilPath s)) = p) by reflexivity.
  destruct (run p args) as [out e] eqn:Hrun. cbn [fst snd].
  assert (Hnil : forall e', (match e' with None => true | Some _ => false end
                             || negb (ossutilStartFailed e'))
                            = negb (ossutilStartFailed e'))
    by (intros [e'|]; reflexivity).
  rewrite Hnil.
  destruct (negb (ossutilStartFailed e) || String.eqb f "" || String.eqb f p);
    [reflexivity|].
  destruct (run f args) as [out' e'] eqn:Hrun'. cbn [fst snd].
  rewrite Hnil. destruct (negb (ossutilStartFailed e')); reflexivity.
Qed.

(** X22: [runOssutil] runs the configured binary and, only when that could
    not be started and a different, non-empty default path exists, the
    default one. It returns what the second run gives, and makes the
    default path the configured one, unless the second run could not be
    started either; then it returns the output and error of the first
    run and leaves the service as it was. *)
Theorem runOssutil_fallback (run : string -> list string -> list byte * option error)
    (s : OSSService) (args : list string) :
  let r := runOssutil run s args in
  let p := primary_path s in
  let f := fallback_path s in
  let retried := ossutilStartFailed (snd (run p args))
                 && negb (String.eqb f "") && negb (String.eqb f p) in
  Service.binaries r = (if retried then [p; f] else [p]) /\
  (output r, err r) =
    (if retried && negb (ossutilStartFailed (snd (run f args)))
     then run f args else run p args) /\
  service_then r =
    (if retried && negb (ossutilStartFailed (snd (run f args)))
     then {| ossutilPath := f; defaultOssutilPath := defaultOssutilPath s;
             transferSeq := transferSeq s |}
     else s).
Proof.
  cbv zeta. rewrite runOssutil_first. cbv zeta.
  destruct (ossutilStartFailed (snd (run (primary_path s) args)));
    destruct (String.eqb (fallback_path s) "");
    destruct (String.eqb (fallback_path s) (primary_path s));
    cbn [negb orb andb];
    try (repeat split; try reflexivity; symmetry; apply surjective_pairing).
  destruct (ossutilStartFailed (snd (run (fallback_path s) args)));
    cbn [negb]; repeat split; try reflexivity; symmetry; apply surjective_pairing.
Qed.

(** X23: once [runOssutil] has switched to the default path, the next call
    runs that binary alone, whatever it gives: there is nothing left to
    fall back to. *)
Theorem runOssutil_sticks (run next : string -> list string -> list byte * option error)
    (s : OSSService) (args args' : list string) :
  service_then (runOssutil run s args) <> s ->
  Service.binaries (runOssutil next (service_then (runOssutil run s args)) args')
  = [fallback_path s] /\
  service_then (runOssutil next (service_then (runOssutil run s args)) args')
  = service_then (runOssutil run s args).
Proof.
  rewrite (runOssutil_first run). cbv zeta.
  destruct (negb (ossutilStartFailed (snd (run (primary_path s) args)))
            || String.eqb (fallback_path s) ""
            || String.eqb (fallback_path s) (primary_path s)) eqn:Hfirst;
    [intros H; exfalso; apply H; reflexivity|].
  destruct (negb (ossutilStartFailed (snd (run (fallback_path s) args))));
    [|intros H; exfalso; apply H; reflexivity].
  intros _. cbn [service_then].
  apply orb_false_elim in Hfirst. destruct Hfirst as [Hfirst _].
  apply orb_false_elim in Hfirst. destruct Hfirst as [_ Hne].
  set (s' := {| ossutilPath := fallback_path s;
                defaultOssutilPath := defaultOssutilPath s;
                transferSeq := transferSeq s |}).
  assert (Hf : fallback_path s' = fallback_path s) by reflexivity.
  assert (Hp : primary_path s' = fallback_path s).
  { unfold primary_path, s'. cbn [ossutilPath defaultOssutilPath].
    unfold fallback_path in *. rewrite TrimSpace_idempotent, Hne, Hne. reflexivity. }
  rewrite (runOssutil_first next). cbv zeta. rewrite Hf, Hp.
  rewrite String.eqb_refl, !orb_true_r. split; reflexivity.
Qed.

Definition only_default_runs : string -> list string -> list byte * option error :=
  fun binary _ =>
    if String.eqb binary "/opt/ossutil" then (bytes_of "ossutil version: v1.7.19", None)
    else ([], Some no_such_file).

Lemma runOssutil_sticks_witness :
  Service.binaries
    (runOssutil only_default_runs
       (service_then (runOssutil only_default_runs misconfigured ["version"%string]))
       ["ls"%string])
  = ["/opt/ossutil"%string].
Proof.
  refine (proj1 (runOssutil_sticks only_default_runs only_default_runs misconfigured
                   ["version"%string] ["ls"%string] _)).
  vm_compute. discriminate.
Defined.

End RunOssutilFacts.

(** ** [parseBucketList] *)

Section BucketListFacts.
Import Regexp Strings Engine Service.

(** A blank that does not end the line. *)
Definition inline_blank (c : byte) : bool := blank c && negb (byte_eqb c LF).

(** A line of the list: blanks, then maybe "oss://" and a name, then
    blanks. *)
Record row := mkRow {
  indent : list byte;
  bucket : option (list byte);
  trailer : list byte
}.

Definition row_ok (r : row) : Prop :=
  forallb inline_blank (indent r) = true /\ forallb inline_blank (trailer r) = true /\
  match bucket r with
  | Some name => name <> [] /\ forallb solid name = true
  | None => True
  end.

Definition row_text (r : row) : list byte :=
  match bucket r with
  | Some name => indent r ++ (bytes_of "oss://" ++ name) ++ trailer r
  | None => indent r ++ trailer r
  end.

(** The lines, each but the last followed by a newline. *)
Fixpoint unlines (lines : list (list byte)) : list byte :=
  match lines with
  | [] => []
  | [line] => line
  | line :: rest => line ++ LF :: unlines rest
  end.

Lemma inline_blank_no_LF (l : list byte) : forallb inline_blank l = true -> ~ In LF l.
Proof.
  intros H Hin. rewrite forallb_forall in H. specialize (H LF Hin). discriminate.
Qed.

Lemma inline_blank_blank (l : list byte) :
  forallb inline_blank l = true -> forallb blank l = true.
Proof.
  intros H. apply forallb_forall. intros c Hc. rewrite forallb_forall in H.
  specialize (H c Hc). unfold inline_blank in H. apply andb_prop in H. apply H.
Qed.

Lemma solid_no_LF (l : list byte) : forallb solid l = true -> ~ In LF l.
Proof.
  intros H Hin. rewrite forallb_forall in H. specialize (H LF Hin). discriminate.
Qed.

Lemma row_no_LF (r : row) : row_ok r -> ~ In LF (row_text r).
Proof.
  intros (Hi & Ht & Hb) Hin. unfold row_text in Hin.
  destruct (bucket r) as [name|].
  - destruct Hb as [_ Hs].
    apply in_app_or in Hin. destruct Hin as [Hin|Hin];
      [exact (inline_blank_no_LF _ Hi Hin)|].
    apply in_app_or in Hin. destruct Hin as [Hin|Hin];
      [|exact (inline_blank_no_LF _ Ht Hin)].
    apply in_app_or in Hin. destruct Hin as [Hin|Hin]; [|exact (solid_no_LF _ Hs Hin)].
    cbn in Hin. repeat (destruct Hin as [Hin|Hin]; [discriminate|]). exact Hin.
  - apply in_app_or in Hin. destruct Hin as [Hin|Hin];
      [exact (inline_blank_no_LF _ Hi Hin) | exact (inline_blank_no_LF _ Ht Hin)].
Qed.

Lemma split_byte_free (c : byte) (l : list byte) : ~ In c l -> split_byte c l = [l].
Proof.
  induction l as [|x l IH]; intros H; cbn [split_byte]; [reflexivity|].
  destruct (byte_eqb x c) eqn:Hx.
  - apply byte_eqb_eq in Hx. subst x. exfalso. apply H. left. reflexivity.
  - rewrite IH; [reflexivity|]. intros Hin. apply H. right. exact Hin.
Qed.

Lemma split_byte_first (c : byte) (l rest : list byte) :
  ~ In c l -> split_byte c (l ++ c :: rest) = l :: split_byte c rest.
Proof.
  induction l as [|x l IH]; intros H; cbn [app split_byte].
  - unfold byte_eqb. rewrite Ascii.eqb_refl. reflexivity.
  - destruct (byte_eqb x c) eqn:Hx.
    + apply byte_eqb_eq in Hx. subst x. exfalso. apply H. left. reflexivity.
    + rewrite IH; [reflexivity|]. intros Hin. apply H. right. exact Hin.
Qed.

Lemma split_unlines (lines : list (list byte)) :
  lines <> [] -> Forall (fun l => ~ In LF l) lines ->
  split_byte LF (unlines lines) = lines.
Proof.
  induction lines as [|l rest IH]; intros Hne Hall; [congruence|].
  inversion Hall as [|x y Hl Hrest]; subst.
  destruct rest as [|l' rest'].
  - cbn [unlines]. apply split_byte_free. exact Hl.
  - change (unlines (l :: l' :: rest')) with (l ++ LF :: unlines (l' :: rest')).
    rewrite split_byte_first by exact Hl. rewrite IH; [reflexivity | discriminate | exact Hrest].
Qed.

Lemma TrimSpace_blanks (pad : list byte) :
  forallb blank pad = true -> TrimSpace (string_of pad) = ""%string.
Proof.
  intros Hpad. unfold TrimSpace. rewrite bytes_string.
  replace (TrimLeftSpace pad) with (@nil byte); [reflexivity|].
  unfold TrimLeftSpace. rewrite <- (app_nil_r pad) at 2.
  rewrite (trim_left_blanks space_encodings pad []); try assumption.
  - destruct (List.length pad - List.length pad)%nat; reflexivity.
  - intros x y Hx. exact (proj1 (blank_width x y Hx)).
  - lia.
Qed.

(** Solid text is one field. *)
Lemma fields_solid (l : list byte) : forall cur,
  forallb solid l = true -> fields O cur l = flush (rev l ++ cur).
Proof.
  induction l as [|c l IH]; intros cur Hl; [reflexivity|].
  cbn [forallb] in Hl. apply andb_prop in Hl. destruct Hl as [Hc Hl].
  cbn [fields].
  rewrite (space_width_starts_none space_encodings c l (proj1 (solid_starts_none c Hc))).
  rewrite IH by exact Hl. cbn [rev]. rewrite <- app_assoc. reflexivity.
Qed.

Lemma Fields_solid (l : list byte) :
  l <> [] -> forallb solid l = true -> Fields (string_of l) = [string_of l].
Proof.
  intros Hne Hl. unfold Fields. rewrite bytes_string, fields_solid by exact Hl.
  rewrite app_nil_r. unfold flush.
  destruct (rev l) as [|x t] eqn:Hrev.
  - apply (f_equal (@rev byte)) in Hrev. rewrite rev_involutive in Hrev. contradiction.
  - rewrite <- Hrev, rev_involutive. reflexivity.
Qed.

Lemma bucket_of_row (r : row) :
  row_ok r -> bucket_of_line (string_of (row_text r)) = option_map string_of (bucket r).
Proof.
  intros (Hi & Ht & Hb). unfold bucket_of_line, row_text.
  apply inline_blank_blank in Hi. apply inline_blank_blank in Ht.
  destruct (bucket r) as [name|]; cbn [option_map].
  - destruct Hb as [Hne Hs].
    assert (Hurl : forallb solid (bytes_of "oss://" ++ name) = true)
      by (rewrite forallb_app, Hs; reflexivity).
    rewrite TrimSpace_padded; try assumption.
    2:{ apply forallb_solid_ends; [discriminate | exact Hurl]. }
    cbv zeta. rewrite Fields_solid by (discriminate || exact Hurl).
    assert (Hpre : HasPrefix (string_of (bytes_of "oss://" ++ name)) "oss://" = true).
    { unfold HasPrefix. rewrite bytes_string. apply has_prefix_self. }
    unfold first_url. cbn [find]. rewrite Hpre.
    pose proof (TrimPrefix_there (bytes_of "oss://") name) as Htrim.
    change (string_of (bytes_of "oss://")) with "oss://"%string in Htrim.
    rewrite Htrim. rewrite (string_of_nonempty name Hne).
    reflexivity.
  - rewrite <- (app_nil_r (indent r ++ trailer r)), <- app_assoc.
    rewrite (TrimSpace_blanks (indent r ++ trailer r ++ []))
      by (rewrite !forallb_app, Hi, Ht; reflexivity).
    reflexivity.
Qed.

(** X24: [parseBucketList] reads the short format back: from lines that
    each hold blanks, or "oss://" and a bucket name of printing
    characters with blanks around it (a carriage return before the
    newline included), it returns the names, in order and each once. *)
Theorem parseBucketList_short_format (rows : list row) :
  Forall row_ok rows ->
  parseBucketList (string_of (unlines (map row_text rows)))
  = keep_some (map (fun r => option_map string_of (bucket r)) rows).
Proof.
  intros Hall. unfold parseBucketList, Split. rewrite bytes_string.
  destruct rows as [|r rows]; [reflexivity|].
  rewrite split_unlines.
  - rewrite !map_map. f_equal.
    apply map_ext_in. intros x Hx. apply bucket_of_row.
    rewrite Forall_forall in Hall. apply Hall. exact Hx.
  - discriminate.
  - apply Forall_forall. intros l Hl. apply in_map_iff in Hl.
    destruct Hl as (x & <- & Hx). apply row_no_LF.
    rewrite Forall_forall in Hall. apply Hall. exact Hx.
Qed.

Lemma parseBucketList_short_format_witness :
  parseBucketList
    (string_of (bytes_of "oss://alpha" ++ [CR; LF] ++ bytes_of "  oss://beta-2" ++ [LF]))
  = ["alpha"; "beta-2"]%string.
Proof.
  apply (parseBucketList_short_format
           [ {| indent := []; bucket := Some (bytes_of "alpha"); trailer := [CR] |};
             {| indent := bytes_of "  "; bucket := Some (bytes_of "beta-2"); trailer := [] |};
             {| indent := []; bucket := None; trailer := [] |} ]).
  repeat constructor; discriminate.
Defined.

End BucketListFacts.

(** ** Profiles *)

Section ProfileFacts.
Import Engine Service.

Variable OSSProfile : Type.
Variable Name : OSSProfile -> string.
Variable IsDefault : OSSProfile -> bool.
Variable unset_IsDefault : OSSProfile -> OSSProfile.

(** The assignment [p.IsDefault = false] changes that field only, as far
    as the functions look. *)
Definition assignment_ok : Prop :=
  (forall p, Name (unset_IsDefault p) = Name p) /\
  (forall p, IsDefault (unset_IsDefault p) = false).

Let save := SaveProfile OSSProfile Name IsDefault unset_IsDefault.
Let get := GetProfile OSSProfile Name.
Let delete := DeleteProfile OSSProfile Name.
Let get_default := GetDefaultProfile OSSProfile IsDefault.

(** The profiles [SaveProfile] starts from: none when [LoadProfiles]
    fails, since its error is dropped. *)
Definition loaded_profiles (loaded : list OSSProfile + error) : list OSSProfile :=
  match loaded with
  | inl l => l
  | inr _ => []
  end.

(** The first two steps of [SaveProfile]. *)
Definition upserted (profile : OSSProfile) (l : list OSSProfile) : list OSSProfile :=
  let '(l', found) := replace_first OSSProfile Name profile l in
  if negb found then l' ++ [profile] else l'.

Definition others_unset (profile : OSSProfile) (l : list OSSProfile) : list OSSProfile :=
  if IsDefault profile
  then map (fun p => if negb (String.eqb (Name p) (Name profile))
                     then unset_IsDefault p else p) l
  else l.

Lemma save_steps (loaded : list OSSProfile + error) (profile : OSSProfile) :
  save None loaded profile
  = inr (others_unset profile (upserted profile (loaded_profiles loaded))).
Proof.
  unfold save, SaveProfile, others_unset, upserted, loaded_profiles.
  destruct (replace_first OSSProfile Name profile
              match loaded with inl l => l | inr _ => [] end) as [l' found].
  reflexivity.
Qed.

Definition by_name (name : string) (l : list OSSProfile) : option OSSProfile :=
  find (fun p => String.eqb (Name p) name) l.

Lemma upserted_cons (profile p : OSSProfile) (l : list OSSProfile) :
  upserted profile (p :: l) =
  if String.eqb (Name p) (Name profile) then profile :: l else p :: upserted profile l.
Proof.
  unfold upserted. cbn [replace_first].
  destruct (String.eqb (Name p) (Name profile)); [reflexivity|].
  destruct (replace_first OSSProfile Name profile l) as [l' found].
  destruct found; reflexivity.
Qed.

Lemma by_name_upserted (profile : OSSProfile) (l : list OSSProfile) (name : string) :
  by_name name (upserted profile l) =
  if String.eqb (Name profile) name then Some profile else by_name name l.
Proof.
  induction l as [|p l IH].
  - unfold upserted, by_name. cbn. destruct (String.eqb (Name profile) name); reflexivity.
  - rewrite upserted_cons. unfold by_name in *. cbn [find].
    destruct (String.eqb_spec (Name p) (Name profile)) as [Heq|Hne]; cbn [find].
    + rewrite Heq. destruct (String.eqb (Name profile) name); reflexivity.
    + destruct (String.eqb_spec (Name p) name) as [Hp|Hp].
      * destruct (String.eqb_spec (Name profile) name); [congruence | reflexivity].
      * exact IH.
Qed.

Lemma by_name_map (f : OSSProfile -> OSSProfile) (l : list OSSProfile) (name : string) :
  (forall p, Name (f p) = Name p) ->
  by_name name (map f l) = option_map f (by_name name l).
Proof.
  intros Hf. unfold by_name. induction l as [|p l IH]; cbn [map find]; [reflexivity|].
  rewrite Hf. destruct (String.eqb (Name p) name); [reflexivity | exact IH].
Qed.

Lemma by_name_others_unset (profile : OSSProfile) (l : list OSSProfile) (name : string) :
  assignment_ok ->
  by_name name (others_unset profile l) =
  option_map (fun p => if IsDefault profile && negb (String.eqb (Name p) (Name profile))
                       then unset_IsDefault p else p)
             (by_name name l).
Proof.
  intros [Hname _]. unfold others_unset.
  destruct (IsDefault profile); cbn [andb].
  - apply by_name_map. intros p.
    destruct (negb (String.eqb (Name p) (Name profile))); [apply Hname | reflexivity].
  - destruct (by_name name l); reflexivity.
Qed.

Lemma get_by_name (l : list OSSProfile) (name : string) :
  get (inl l) name =
  match by_name name l with
  | Some p => inl p
  | None => inr (errors_New ("profile not found: " ++ name))
  end.
Proof. reflexivity. Qed.

(** X25: a profile saved is the profile found. When [os.MkdirAll]
    succeeds, [SaveProfile] hands [saveProfiles] a list in which
    [GetProfile] finds the profile saved under its name, and finds under
    every other name what it found before, with [IsDefault] unset when
    the profile saved is the default one. An error of [LoadProfiles] is
    dropped: the list saved then holds the new profile alone. *)
Theorem SaveProfile_then_GetProfile (loaded : list OSSProfile + error)
    (profile : OSSProfile) :
  assignment_ok ->
  exists saved,
    SaveProfile OSSProfile Name IsDefault unset_IsDefault None loaded profile = inr saved /\
    GetProfile OSSProfile Name (inl saved) (Name profile) = inl profile /\
    (forall name, name <> Name profile ->
       GetProfile OSSProfile Name (inl saved) name =
       match GetProfile OSSProfile Name (inl (loaded_profiles loaded)) name with
       | inl p => inl (if IsDefault profile then unset_IsDefault p else p)
       | inr e => inr e
       end) /\
    (forall e, loaded = inr e -> saved = [profile]).
Proof.
  intros Hok. fold save get. rewrite save_steps. eexists. split; [reflexivity|].
  split; [|split].
  - rewrite get_by_name, (by_name_others_unset _ _ _ Hok), by_name_upserted.
    rewrite String.eqb_refl. cbn [option_map].
    rewrite String.eqb_refl. cbn [negb]. rewrite andb_false_r. reflexivity.
  - intros name Hne. rewrite !get_by_name.
    rewrite (by_name_others_unset _ _ _ Hok), by_name_upserted.
    destruct (String.eqb_spec (Name profile) name) as [Heq|_]; [congruence|].
    destruct (by_name name (loaded_profiles loaded)) as [p|] eqn:Hp; cbn [option_map];
      [|reflexivity].
    assert (Hpn : Name p = name).
    { unfold by_name in Hp. apply find_some in Hp. destruct Hp as [_ Hp].
      apply String.eqb_eq. exact Hp. }
    destruct (String.eqb_spec (Name p) (Name profile)) as [Heq|_]; [congruence|].
    cbn [negb]. rewrite andb_true_r. reflexivity.
  - intros e ->. unfold loaded_profiles, upserted, others_unset. cbn.
    destruct (IsDefault profile); [|reflexivity].
    cbn. rewrite String.eqb_refl. reflexivity.
Qed.

Lemma In_upserted (profile q : OSSProfile) (l : list OSSProfile) :
  In q (upserted profile l) -> q = profile \/ In q l.
Proof.
  induction l as [|p l IH].
  - unfold upserted. cbn. intros [H|[]]. left. symmetry. exact H.
  - rewrite upserted_cons.
    destruct (String.eqb (Name p) (Name profile)).
    + intros [H|H]; [left; symmetry; exact H | right; right; exact H].
    + intros [H|H]; [right; left; exact H|].
      destruct (IH H) as [Hq|Hq]; [left; exact Hq | right; right; exact Hq].
Qed.

Lemma upserted_names (profile : OSSProfile) (l : list OSSProfile) :
  NoDup (map Name l) -> NoDup (map Name (upserted profile l)).
Proof.
  induction l as [|p l IH]; intros Hnd.
  - unfold upserted. cbn. constructor; [auto | constructor].
  - rewrite upserted_cons. cbn [map] in Hnd. inversion Hnd as [|x y Hnotin Hrest]; subst.
    destruct (String.eqb_spec (Name p) (Name profile)) as [Heq|Hne]; cbn [map].
    + rewrite <- Heq. exact Hnd.
    + constructor; [|exact (IH Hrest)].
      intros Hin. apply in_map_iff in Hin. destruct Hin as (q & Hq & Hin).
      destruct (In_upserted _ _ _ Hin) as [-> | Hin']; [congruence|].
      apply Hnotin. apply in_map_iff. exists q. auto.
Qed.

Lemma others_unset_names (profile : OSSProfile) (l : list OSSProfile) :
  assignment_ok -> map Name (others_unset profile l) = map Name l.
Proof.
  intros [Hname _]. unfold others_unset. destruct (IsDefault profile); [|reflexivity].
  rewrite map_map. apply map_ext. intros p.
  destruct (negb (String.eqb (Name p) (Name profile))); [apply Hname | reflexivity].
Qed.

(** The profiles marked as default. *)
Definition defaults (l : list OSSProfile) : list OSSProfile := filter IsDefault l.

Lemma defaults_upserted_plain (profile : OSSProfile) (l : list OSSProfile) :
  IsDefault profile = false ->
  (List.length (defaults (upserted profile l)) <= List.length (defaults l))%nat.
Proof.
  intros Hp. induction l as [|p l IH].
  - unfold upserted, defaults. cbn. rewrite Hp. cbn. lia.
  - rewrite upserted_cons. unfold defaults in *.
    destruct (String.eqb (Name p) (Name profile)); cbn [filter].
    + rewrite Hp. destruct (IsDefault p); cbn [List.length]; lia.
    + destruct (IsDefault p); cbn [List.length]; lia.
Qed.

Lemma defaults_others_unset (profile : OSSProfile) (l : list OSSProfile) :
  assignment_ok -> IsDefault profile = true ->
  forall q, In q (others_unset profile l) -> IsDefault q = true -> Name q = Name profile.
Proof.
  intros [_ Hunset] Hp q Hin Hq. unfold others_unset in Hin. rewrite Hp in Hin.
  apply in_map_iff in Hin. destruct Hin as (p & Hpq & _).
  destruct (String.eqb_spec (Name p) (Name profile)) as [Heq|Hne]; cbn [negb] in Hpq.
  - subst q. exact Heq.
  - subst q. rewrite Hunset in Hq. discriminate.
Qed.

(** X26: at most one default profile, and names that stay unique. Saving
    a profile marked as default leaves it the only default one: among the
    profiles handed to [saveProfiles] only those of its name are marked,
    and [GetDefaultProfile] finds the profile saved. Saving a profile not
    marked never adds a default. When the names loaded are pairwise
    distinct, so are the names saved. *)
Theorem SaveProfile_keeps_one_default (loaded : list OSSProfile + error)
    (profile : OSSProfile) :
  assignment_ok ->
  exists saved,
    SaveProfile OSSProfile Name IsDefault unset_IsDefault None loaded profile = inr saved /\
    (IsDefault profile = true ->
       (forall q, In q saved -> IsDefault q = true -> Name q = Name profile) /\
       GetDefaultProfile OSSProfile IsDefault (inl saved) = inl (Some profile)) /\
    (IsDefault profile = false ->
       (List.length (defaults saved) <= List.length (defaults (loaded_profiles loaded)))%nat) /\
    (NoDup (map Name (loaded_profiles loaded)) -> NoDup (map Name saved)).
Proof.
  intros Hok. fold save get_default. rewrite save_steps. eexists. split; [reflexivity|].
  split; [|split].
  - intros Hp. split; [apply defaults_others_unset; assumption|].
    unfold get_default, GetDefaultProfile. f_equal.
    unfold others_unset. rewrite Hp.
    destruct Hok as [Hname Hunset].
    induction (loaded_profiles loaded) as [|p l IH].
    + unfold upserted. cbn. rewrite String.eqb_refl. cbn. rewrite Hp. reflexivity.
    + rewrite upserted_cons.
      destruct (String.eqb_spec (Name p) (Name profile)) as [Heq|Hne]; cbn [map find].
      * rewrite String.eqb_refl. cbn [negb]. rewrite Hp. reflexivity.
      * destruct (String.eqb_spec (Name p) (Name profile)); [contradiction|].
        cbn [negb]. rewrite Hunset. exact IH.
  - intros Hp. unfold others_unset. rewrite Hp. apply defaults_upserted_plain. exact Hp.
  - intros Hnd. rewrite (others_unset_names _ _ Hok). apply upserted_names. exact Hnd.
Qed.

(** X27: a profile deleted is not found again, and the others are found
    as before. [DeleteProfile] hands [saveProfiles] a list in which
    [GetProfile] finds nothing under the name deleted and, under every
    other name, what it found before; when [LoadProfiles] fails, its
    error is returned and nothing is saved. *)
Theorem DeleteProfile_then_GetProfile (profiles : list OSSProfile) (name : string)
    (e : error) :
  exists saved,
    DeleteProfile OSSProfile Name (inl profiles) name = inr saved /\
    GetProfile OSSProfile Name (inl saved) name
      = inr (errors_New ("profile not found: " ++ name)) /\
    (forall other, other <> name ->
       GetProfile OSSProfile Name (inl saved) other
       = GetProfile OSSProfile Name (inl profiles) other) /\
    DeleteProfile OSSProfile Name (inr e) name = inl e.
Proof.
  eexists. split; [reflexivity|].
  fold get. split; [|split; [|reflexivity]].
  - rewrite get_by_name. unfold by_name.
    induction profiles as [|p l IH]; cbn [filter find]; [reflexivity|].
    destruct (String.eqb (Name p) name) eqn:Hp; cbn [negb]; [exact IH|].
    cbn [find]. rewrite Hp. exact IH.
  - intros other Hne. rewrite !get_by_name. unfold by_name.
    induction profiles as [|p l IH]; cbn [filter find]; [reflexivity|].
    destruct (String.eqb_spec (Name p) name) as [Hp|Hp]; cbn [negb].
    + destruct (String.eqb_spec (Name p) other); [congruence | exact IH].
    + cbn [find]. destruct (String.eqb (Name p) other); [reflexivity | exact IH].
Qed.

End ProfileFacts.

Section ProfileExamples.
Import Engine Service.

(** A profile reduced to the two fields the functions look at. *)
Record named_profile := mkNamed {
  profile_name : string;
  profile_default : bool
}.

Definition unmark (p : named_profile) : named_profile :=
  {| profile_name := profile_name p; profile_default := false |}.

Lemma unmark_ok : assignment_ok named_profile profile_name profile_default unmark.
Proof. split; reflexivity. Qed.

Definition home : named_profile := {| profile_name := "home"; profile_default := true |}.
Definition work : named_profile := {| profile_name := "work"; profile_default := true |}.

Lemma SaveProfile_then_GetProfile_witness :
  exists saved,
    SaveProfile named_profile profile_name profile_default unmark None (inl [home]) work
    = inr saved /\
    GetProfile named_profile profile_name (inl saved) "work" = inl work /\
    GetProfile named_profile profile_name (inl saved) "home" = inl (unmark home).
Proof.
  destruct (SaveProfile_then_GetProfile named_profile profile_name profile_default unmark
              (inl [home]) work unmark_ok) as (saved & Hs & Hget & Hother & _).
  exists saved. split; [exact Hs|]. split; [exact Hget|].
  apply (Hother "home"%string). discriminate.
Defined.

Lemma SaveProfile_keeps_one_default_witness :
  exists saved,
    SaveProfile named_profile profile_name profile_default unmark None (inl [home]) work
    = inr saved /\
    GetDefaultProfile named_profile profile_default (inl saved) = inl (Some work).
Proof.
  destruct (SaveProfile_keeps_one_default named_profile profile_name profile_default unmark
              (inl [home]) work unmark_ok) as (saved & Hs & Hdef & _).
  exists saved. split; [exact Hs|]. apply Hdef. reflexivity.
Defined.

End ProfileExamples.

(** ** Moving and creating objects *)

Section MutationFacts.
Import Strings Engine Service Sdk Mutations.

Variable OSSConfig : Type.
Variable Region Endpoint : OSSConfig -> string.
Variable url_Parse_Host : string -> option string.
Variable sdk : answers.

Let client := sdkClientFromConfig OSSConfig Region Endpoint url_Parse_Host sdk.
Let move := MoveObject OSSConfig Region Endpoint url_Parse_Host sdk.
Let create_file := CreateFile OSSConfig Region Endpoint url_Parse_Host sdk.

(** [c] copies the object [key] of [bucket] to another place: another
    key of the same bucket, or another bucket. *)
Definition copies_away (c : call) (bucket key : string) : Prop :=
  match c with
  | CopyObject b src dst => b = bucket /\ src = key /\ dst <> key
  | CopyObjectFrom b srcBucket src _ => srcBucket = bucket /\ src = key /\ b <> bucket
  | _ => False
  end.

Definition is_delete (c : call) : bool :=
  match c with
  | DeleteObject _ _ => true
  | _ => false
  end.

(** The calls [added] after the calls [before] delete an object only
    right after a copy of that object to another place has answered
    [nil]. *)
Inductive deletes_copied : trace -> list call -> Prop :=
| nothing_added before : deletes_copied before []
| moved before c bucket key rest :
    copies_away c bucket key ->
    failure sdk before c = None ->
    deletes_copied (before ++ [c; DeleteObject bucket key]) rest ->
    deletes_copied before (c :: DeleteObject bucket key :: rest)
| other_call before c rest :
    is_delete c = false ->
    deletes_copied (before ++ [c]) rest ->
    deletes_copied before (c :: rest).

Lemma deletes_copied_app before added more :
  deletes_copied before added ->
  deletes_copied (before ++ added) more ->
  deletes_copied before (added ++ more).
Proof.
  induction 1 as [before | before c bucket key rest Hc Hf _ IH | before c rest Hc _ IH];
    intros Hmore.
  - now rewrite app_nil_r in Hmore.
  - simpl. apply moved; trivial. apply IH. now rewrite <- app_assoc.
  - simpl. apply other_call; trivial. apply IH. now rewrite <- app_assoc.
Qed.

Lemma one_call before c :
  is_delete c = false -> deletes_copied before [c].
Proof. intros H. apply other_call; [exact H | apply nothing_added]. Qed.

Lemma copy_is_no_delete sb k db t : is_delete (copy sb k db t) = false.
Proof. unfold copy. now destruct (String.eqb sb db). Qed.

Lemma copy_copies_away sb k db t :
  (String.eqb sb db && String.eqb k t)%bool = false ->
  copies_away (copy sb k db t) sb k.
Proof.
  unfold copy. intros H. destruct (String.eqb sb db) eqn:Hb.
  - apply String.eqb_eq in Hb. subst db. simpl in H.
    apply String.eqb_neq in H. simpl. repeat split. congruence.
  - apply String.eqb_neq in Hb. simpl. repeat split. congruence.
Qed.

Lemma client_calls config tr :
  exists added, snd (client config tr) = tr ++ added /\
                deletes_copied tr added /\
                (fst (client config tr) = None -> added <> []).
Proof.
  unfold client, sdkClientFromConfig.
  destruct (sdkEndpointForConfig _ _ _ _ _) as [endpoint [err|]].
  - exists []. rewrite app_nil_r. repeat split; [apply nothing_added | discriminate].
  - exists [New endpoint]. repeat split; [now apply one_call | discriminate].
Qed.

Lemma move_objects_calls sb sk db dk objects tr :
  exists added,
    snd (move_objects sdk sb sk db dk objects tr) = tr ++ added /\
    deletes_copied tr added.
Proof.
  revert tr. induction objects as [|o rest IH]; intros tr.
  - exists []. rewrite app_nil_r. split; [reflexivity | apply nothing_added].
  - simpl. destruct (negb (HasPrefix (normalizeObjectKey o) sk)); [apply IH|].
    set (key := normalizeObjectKey o).
    set (target := (dk ++ TrimPrefix key sk)%string).
    destruct (String.eqb sb db && String.eqb key target)%bool eqn:Hsame; [apply IH|].
    try unfold ask. destruct (failure sdk tr (copy sb key db target)) as [err|] eqn:Hc.
    + exists [copy sb key db target]. split; [reflexivity|].
      apply one_call, copy_is_no_delete.
    + try unfold ask.
      destruct (failure sdk _ (DeleteObject sb key)) as [err|] eqn:Hd.
      * exists [copy sb key db target; DeleteObject sb key]. simpl.
        rewrite <- app_assoc. split; [reflexivity|].
        apply moved; [now apply copy_copies_away | exact Hc | apply nothing_added].
      * destruct (IH ((tr ++ [copy sb key db target]) ++ [DeleteObject sb key]))
          as (added & Htr & Hsafe).
        exists ([copy sb key db target; DeleteObject sb key] ++ added).
        rewrite Htr, <- !app_assoc. split; [reflexivity|].
        simpl. apply moved; [now apply copy_copies_away | exact Hc |].
        now rewrite <- !app_assoc in Hsafe.
Qed.

Lemma move_pages_calls fuel sb sk db dk marker tr :
  exists added,
    snd (move_pages sdk fuel sb sk db dk marker tr) = tr ++ added /\
    deletes_copied tr added.
Proof.
  revert marker tr. induction fuel as [|fuel IH]; intros marker tr.
  - exists []. rewrite app_nil_r. split; [reflexivity | apply nothing_added].
  - simpl. set (c := ListObjects sb sk marker 1000).
    unfold ask. destruct (failure sdk tr c) as [err|].
    + exists [c]. split; [reflexivity | now apply one_call].
    + destruct (move_objects_calls sb sk db dk (Objects (listed sdk tr c)) (tr ++ [c]))
        as (added & Htr & Hsafe).
      destruct (move_objects sdk sb sk db dk _ (tr ++ [c])) as [[err|] tr1] eqn:Hm;
        simpl in Htr; subst tr1.
      * exists (c :: added). rewrite <- app_assoc. split; [reflexivity|].
        now apply other_call.
      * destruct (negb (IsTruncated (listed sdk tr c))).
        -- exists (c :: added). rewrite <- app_assoc. split; [reflexivity|].
           now apply other_call.
        -- destruct (IH (NextMarker (listed sdk tr c)) ((tr ++ [c]) ++ added))
             as (more & Htr & Hmore).
           exists (c :: added ++ more). rewrite Htr, <- !app_assoc.
           split; [reflexivity|].
           apply other_call; [reflexivity|].
           now apply deletes_copied_app.
Qed.

(** What the loop over the pages needs to end: no page is truncated. *)
Definition single_pages : Prop :=
  forall tr c, IsTruncated (listed sdk tr c) = false.

Lemma move_pages_ends fuel sb sk db dk marker tr :
  single_pages ->
  exists err, fst (move_pages sdk (S fuel) sb sk db dk marker tr) = Returned err.
Proof.
  intros Hs. simpl. unfold ask.
  destruct (failure sdk tr _) as [err|]; [eexists; reflexivity|].
  destruct (move_objects _ _ _ _ _ _ _) as [[err|] tr1]; [eexists; reflexivity|].
  rewrite Hs. eexists; reflexivity.
Qed.

Ltac same_trace :=
  cbn [snd fst]; rewrite <- ?app_assoc; cbn [app]; reflexivity.

(** X28: whatever the service answers and however far [MoveObject] has
    come, it has deleted an object only right after the copy of that
    object to a different key or bucket answered without an error; and
    when the service truncates no page, it returns after the first
    one. *)
Theorem MoveObject_deletes_only_copied :
  forall fuel config srcBucketName srcKey destBucketName destKey tr,
    (exists added,
        snd (move fuel config srcBucketName srcKey destBucketName destKey tr)
        = tr ++ added /\
        deletes_copied tr added) /\
    (single_pages ->
     exists err,
       fst (move (S fuel) config srcBucketName srcKey destBucketName destKey tr)
       = Returned err).
Proof.
  intros fuel config sb0 sk0 db0 dk0 tr.
  assert (Hnone : exists added, tr = tr ++ added /\ deletes_copied tr added)
    by (exists []; rewrite app_nil_r; split; [reflexivity | apply nothing_added]).
  unfold move, MoveObject.
  set (sb := TrimSpace sb0). set (db := TrimSpace db0).
  set (sk := normalizeObjectKey sk0). set (dk := normalizeObjectKey dk0).
  destruct (String.eqb sb "" || String.eqb db "")%bool;
    [split; [exact Hnone | eexists; reflexivity]|].
  destruct (String.eqb sk "" || String.eqb dk "")%bool;
    [split; [exact Hnone | eexists; reflexivity]|].
  destruct (String.eqb sb db && String.eqb sk dk)%bool eqn:Hsame;
    [split; [exact Hnone | eexists; reflexivity]|].
  set (dk' := if (HasSuffix sk "/" && negb (HasSuffix dk "/"))%bool
              then (dk ++ "/")%string else dk).
  destruct (HasSuffix sk "/" && String.eqb sb db && HasPrefix dk' sk)%bool;
    [split; [exact Hnone | eexists; reflexivity]|].
  destruct (client_calls config tr) as (a0 & Htr0 & Hs0 & _).
  fold client.
  destruct (client config tr) as [[err|] tr0]; simpl in Htr0; subst tr0.
  { split; [exists a0; split; [reflexivity | exact Hs0] | eexists; reflexivity]. }
  try unfold ask.
  destruct (failure sdk (tr ++ a0) (Bucket sb)) as [err|].
  { split; [|eexists; reflexivity].
    exists (a0 ++ [Bucket sb]). split; [same_trace|].
    apply deletes_copied_app; [exact Hs0 | now apply one_call]. }
  try unfold ask.
  destruct (failure sdk _ (Bucket db)) as [err|].
  { split; [|eexists; reflexivity].
    exists (a0 ++ [Bucket sb; Bucket db]). split; [same_trace|].
    apply deletes_copied_app; [exact Hs0|].
    apply other_call; [reflexivity | now apply one_call]. }
  assert (Hopen : deletes_copied tr (a0 ++ [Bucket sb; Bucket db])).
  { apply deletes_copied_app; [exact Hs0|].
    apply other_call; [reflexivity | now apply one_call]. }
  set (tr2 := (tr ++ a0) ++ [Bucket sb]) in *.
  assert (Htr2 : tr2 ++ [Bucket db] = tr ++ a0 ++ [Bucket sb; Bucket db])
    by (unfold tr2; rewrite <- !app_assoc; reflexivity).
  destruct (HasSuffix sk "/") eqn:Hfolder; cbn [negb].
  - (* a folder *)
    split.
    + destruct (move_pages_calls fuel sb sk db dk' ""%string (tr2 ++ [Bucket db]))
        as (added & Htr & Hsafe).
      exists ((a0 ++ [Bucket sb; Bucket db]) ++ added).
      split; [rewrite Htr, Htr2; same_trace|].
      apply deletes_copied_app; [exact Hopen|].
      now rewrite Htr2 in Hsafe.
    + intros Hsingle. now apply move_pages_ends.
  - (* one object *)
    assert (Hdk : dk' = dk) by (unfold dk'; reflexivity). rewrite Hdk.
    try unfold ask.
    destruct (failure sdk (tr2 ++ [Bucket db]) (copy sb sk db dk)) as [err|] eqn:Hc.
    { split; [|eexists; reflexivity].
      exists ((a0 ++ [Bucket sb; Bucket db]) ++ [copy sb sk db dk]).
      split; [rewrite Htr2; same_trace|].
      apply deletes_copied_app; [exact Hopen|].
      apply one_call, copy_is_no_delete. }
    assert (Hmoved : deletes_copied tr
              ((a0 ++ [Bucket sb; Bucket db]) ++ [copy sb sk db dk; DeleteObject sb sk])).
    { apply deletes_copied_app; [exact Hopen|].
      apply moved; [now apply copy_copies_away | | apply nothing_added].
      now rewrite <- Htr2. }
    unfold ask.
    destruct (failure sdk _ (DeleteObject sb sk)) as [err|];
      (split; [|eexists; reflexivity]);
      exists ((a0 ++ [Bucket sb; Bucket db]) ++ [copy sb sk db dk; DeleteObject sb sk]);
      (split; [|exact Hmoved]); cbn [snd]; rewrite Htr2, <- !app_assoc; reflexivity.
Qed.

(** X29: [MoveObject] makes no call at all when a bucket name or a key
    is blank, when source and destination are the same object, or when a
    folder is moved to a place below itself in the same bucket; only the
    second of these returns [nil]. *)
Theorem MoveObject_refuses_without_calls :
  forall fuel config srcBucketName srcKey destBucketName destKey tr,
    let sb := TrimSpace srcBucketName in
    let db := TrimSpace destBucketName in
    let sk := normalizeObjectKey srcKey in
    let dk := normalizeObjectKey destKey in
    let result := move fuel config srcBucketName srcKey destBucketName destKey tr in
    ((sb = "" \/ db = "" \/ sk = "" \/ dk = "")%string ->
     exists err, result = (Returned (Some err), tr)) /\
    (sb <> "" -> db <> "" -> sk <> "" -> dk <> "" -> sb = db -> sk = dk ->
     result = (Returned None, tr))%string /\
    (sb <> "" -> db <> "" -> sk <> "" -> dk <> "" -> sb = db -> sk <> dk ->
     HasSuffix sk "/" = true ->
     HasPrefix (if HasSuffix dk "/" then dk else dk ++ "/") sk = true ->
     exists err, result = (Returned (Some err), tr))%string.
Proof.
  intros fuel config sb0 sk0 db0 dk0 tr sb db sk dk result.
  unfold result, move, MoveObject. fold sb db sk dk.
  repeat split.
  - intros H.
    destruct (String.eqb sb "" || String.eqb db "")%bool eqn:Hb; [eexists; reflexivity|].
    apply orb_false_iff in Hb. destruct Hb as [Hb1 Hb2].
    apply String.eqb_neq in Hb1, Hb2.
    destruct (String.eqb sk "" || String.eqb dk "")%bool eqn:Hk; [eexists; reflexivity|].
    apply orb_false_iff in Hk. destruct Hk as [Hk1 Hk2].
    apply String.eqb_neq in Hk1, Hk2.
    destruct H as [H | [H | [H | H]]]; contradiction.
  - intros Hsb Hdb Hsk Hdk Hb Hk.
    apply String.eqb_neq in Hsb, Hdb, Hsk, Hdk. rewrite Hsb, Hdb, Hsk, Hdk. cbn [orb].
    apply String.eqb_eq in Hb, Hk. rewrite Hb, Hk. reflexivity.
  - intros Hsb Hdb Hsk Hdk Hb Hk Hfolder Hinside.
    apply String.eqb_neq in Hsb, Hdb, Hsk, Hdk, Hk. rewrite Hsb, Hdb, Hsk, Hdk, Hk. cbn [orb].
    apply String.eqb_eq in Hb. rewrite Hb, Hfolder, andb_false_r. cbn [andb].
    destruct (HasSuffix dk "/"); cbn [negb]; rewrite Hinside; eexists; reflexivity.
Qed.

(** The calls of [CreateFile] and [CreateFolder] that write. *)
Definition is_put (c : call) : bool :=
  match c with
  | PutObject _ _ => true
  | _ => false
  end.

(** X30: [CreateFile] writes at most once, as its last call, and only
    right after the service answered that no object has that key; the key
    is not empty and neither starts nor ends with a slash. When it returns
    [nil] it has written. *)
Theorem CreateFile_never_overwrites :
  forall config bucketName prefix fileName tr,
    let result := create_file config bucketName prefix fileName tr in
    exists added,
      snd result = tr ++ added /\
      ((forallb (fun c => negb (is_put c)) added = true /\ fst result <> None) \/
       exists before bucket key,
         added = before ++ [IsObjectExist bucket key; PutObject bucket key] /\
         forallb (fun c => negb (is_put c)) before = true /\
         found sdk (tr ++ before) (IsObjectExist bucket key) = false /\
         failure sdk (tr ++ before) (IsObjectExist bucket key) = None /\
         bucket = TrimSpace bucketName /\
         key <> ""%string /\
         HasPrefix key "/" = false /\
         HasSuffix key "/" = false).
Proof.
  intros config b0 prefix f0 tr result. unfold result, create_file, CreateFile.
  set (b := TrimSpace b0).
  set (key := normalizeObjectKey (normalizeObjectPrefix prefix ++ Trim (TrimSpace f0) "/"%char)).
  assert (Hnone : exists added, tr = tr ++ added /\
            ((forallb (fun c => negb (is_put c)) added = true /\
              Some (errors_New "") <> None) \/ False)).
  { exists []. rewrite app_nil_r. split; [reflexivity|]. left. split; [reflexivity | discriminate]. }
  destruct (String.eqb b "");
    [exists []; rewrite app_nil_r; split; [reflexivity | left; split; [reflexivity | discriminate]]|].
  destruct (String.eqb (Trim (TrimSpace f0) "/"%char) "");
    [exists []; rewrite app_nil_r; split; [reflexivity | left; split; [reflexivity | discriminate]]|].
  destruct (String.eqb key "") eqn:Hkey;
    [exists []; rewrite app_nil_r; split; [reflexivity | left; split; [reflexivity | discriminate]]|].
  destruct (HasSuffix key "/") eqn:Hsuffix;
    [exists []; rewrite app_nil_r; split; [reflexivity | left; split; [reflexivity | discriminate]]|].
  clear Hnone.
  assert (Hclient : exists a0, snd (client config tr) = tr ++ a0 /\
                               forallb (fun c => negb (is_put c)) a0 = true).
  { unfold client, sdkClientFromConfig.
    destruct (sdkEndpointForConfig _ _ _ _ _) as [endpoint [err|]].
    - exists []. rewrite app_nil_r. split; reflexivity.
    - exists [New endpoint]. split; reflexivity. }
  destruct Hclient as (a0 & Htr0 & Hput0). fold client.
  destruct (client config tr) as [[err|] tr0]; simpl in Htr0; subst tr0.
  { exists a0. split; [reflexivity|]. left. split; [exact Hput0 | discriminate]. }
  try unfold ask.
  destruct (failure sdk (tr ++ a0) (Bucket b)) as [err|].
  { exists (a0 ++ [Bucket b]). split; [same_trace|].
    left. rewrite forallb_app, Hput0. split; [reflexivity | discriminate]. }
  assert (Hbefore : forallb (fun c => negb (is_put c)) (a0 ++ [Bucket b]) = true)
    by (rewrite forallb_app, Hput0; reflexivity).
  assert (Htr1 : (tr ++ a0) ++ [Bucket b] = tr ++ a0 ++ [Bucket b])
    by (rewrite <- app_assoc; reflexivity).
  rewrite Htr1.
  try unfold ask.
  destruct (failure sdk _ (IsObjectExist b key)) as [err|] eqn:Hcheck.
  { exists ((a0 ++ [Bucket b]) ++ [IsObjectExist b key]).
    split; [same_trace|].
    left. rewrite !forallb_app, Hput0. split; [reflexivity | discriminate]. }
  destruct (found sdk _ (IsObjectExist b key)) eqn:Hfound.
  { exists ((a0 ++ [Bucket b]) ++ [IsObjectExist b key]).
    split; [same_trace|].
    left. rewrite !forallb_app, Hput0. split; [reflexivity | discriminate]. }
  exists ((a0 ++ [Bucket b]) ++ [IsObjectExist b key; PutObject b key]).
  split.
  { unfold ask. destruct (failure sdk _ (PutObject b key)); cbn [snd];
      rewrite <- !app_assoc; reflexivity. }
  right. exists (a0 ++ [Bucket b]), b, key.
  repeat split; trivial.
  - now apply String.eqb_neq.
  - apply (TrimLeft_head _ "/"%char).
Qed.

End MutationFacts.

(** *** Instances *)

Lemma enqueue_ids_distinct_witness :
  len [Upload "b" "p/" "/data/a.bin"; Download "b" "k" "/tmp/out" 10;
       Upload "b" "" "/data/a.bin"] < 2 ^ 64 /\
  NoDup (served_ids unit tt
           [Upload "b" "p/" "/data/a.bin"; Download "b" "k" "/tmp/out" 10;
            Upload "b" "" "/data/a.bin"] small_world).
Proof.
  split; [reflexivity|]. apply enqueue_ids_distinct. reflexivity.
Defined.

(** A service that answers every call with [nil] and lists one page of
    three keys. *)
Definition one_page : Mutations.answers :=
  {| Mutations.failure := fun _ _ => None;
     Mutations.listed := fun _ _ =>
       {| Mutations.Objects := ["dir/a"; "dir/sub/b"; "other"]%string;
          Mutations.IsTruncated := false;
          Mutations.NextMarker := ""%string |};
     Mutations.found := fun _ _ => false |}.

Definition hangzhou (_ : unit) : string := "cn-hangzhou"%string.
Definition no_endpoint (_ : unit) : string := ""%string.
Definition no_parse (_ : string) : option string := None.

Lemma MoveObject_deletes_only_copied_witness :
  single_pages one_page /\
  exists err,
    fst (Mutations.MoveObject unit hangzhou no_endpoint no_parse one_page 1 tt
           "b" "dir/" "b" "new" []) = Mutations.Returned err.
Proof.
  split; [intros tr c; reflexivity|].
  exact (proj2 (MoveObject_deletes_only_copied unit hangzhou no_endpoint no_parse one_page
                  0 tt "b" "dir/" "b" "new" []) (fun _ _ => eq_refl)).
Defined.

Lemma MoveObject_refuses_without_calls_witness :
  (exists err,
      Mutations.MoveObject unit hangzhou no_endpoint no_parse one_page 1 tt
        " " "k" "b" "k2" [] = (Mutations.Returned (Some err), [])) /\
  Mutations.MoveObject unit hangzhou no_endpoint no_parse one_page 1 tt
    "b" "/dir/a" " b " "dir/a" [] = (Mutations.Returned None, []) /\
  (exists err,
      Mutations.MoveObject unit hangzhou no_endpoint no_parse one_page 1 tt
        "b" "dir/" "b" "dir/sub" [] = (Mutations.Returned (Some err), [])).
Proof.
  split; [|split].
  - apply (proj1 (MoveObject_refuses_without_calls unit hangzhou no_endpoint no_parse
                    one_page 1 tt " " "k" "b" "k2" [])).
    left. reflexivity.
  - apply (proj1 (proj2 (MoveObject_refuses_without_calls unit hangzhou no_endpoint no_parse
                           one_page 1 tt "b" "/dir/a" " b " "dir/a" [])));
      vm_compute; congruence.
  - apply (proj2 (proj2 (MoveObject_refuses_without_calls unit hangzhou no_endpoint no_parse
                           one_page 1 tt "b" "dir/" "b" "dir/sub" [])));
      vm_compute; congruence.
Defined.
